(** * Isratest: the blog migration and build scripts

    A shallow embedding of [migrate.mjs] (legacy HTML to Markdown posts) and
    of the build script (Markdown posts to HTML pages), with the properties
    of the specification stated over it, and further properties of the two
    scripts: what the extractors need, what is written where, and that
    the migration reads back what the build writes.

    JavaScript strings are sequences of UTF-16 code units; they are modelled
    as lists of numbers, so that [length], [substring] and [padStart] count
    what the scripts count. *)

From Stdlib Require Import String Ascii DecimalString DecimalN DecimalPos.
From Stdlib Require Import List NArith ZArith Arith Lia Bool Permutation Sorted.
Import ListNotations.

Local Open Scope N_scope.

(* ================================================================== *)
(** * JavaScript strings and the built-ins the scripts call          *)
(* ================================================================== *)

Module Js.

Definition codeunit := N.
Definition jsstring := list codeunit.

(** ASCII literal of the source, as code units. *)
Definition u (s : string) : jsstring :=
  map N_of_ascii (list_ascii_of_string s).
Arguments u s%_string.

Definition QUOTE : codeunit := 34.       (* the double quote *)
Definition AMP : codeunit := 38.
Definition COMMA : codeunit := 44.
Definition HYPHEN : codeunit := 45.
Definition SEMI : codeunit := 59.
Definition UNDERSCORE : codeunit := 95.
Definition SPACE : codeunit := 32.
Definition NL : codeunit := 10.
Definition BACKSLASH : codeunit := 92.

Fixpoint jseqb (a b : jsstring) : bool :=
  match a, b with
  | [], [] => true
  | x :: a', y :: b' => (x =? y) && jseqb a' b'
  | _, _ => false
  end.

(** Character classes of a regular expression without the [u] and [i]
    flags. *)
Definition isDigit (c : codeunit) : bool := (48 <=? c) && (c <=? 57).
Definition isUpper (c : codeunit) : bool := (65 <=? c) && (c <=? 90).
Definition isLower (c : codeunit) : bool := (97 <=? c) && (c <=? 122).

(** [\w] is [[A-Za-z0-9_]]. *)
Definition isWord (c : codeunit) : bool :=
  isUpper c || isLower c || isDigit c || (c =? UNDERSCORE).

(** [\s], also what [trim] removes: WhiteSpace and LineTerminator. *)
Definition isSpace (c : codeunit) : bool :=
  ((9 <=? c) && (c <=? 13)) || (c =? 32) || (c =? 160) || (c =? 5760)
  || ((8192 <=? c) && (c <=? 8202)) || (c =? 8232) || (c =? 8233)
  || (c =? 8239) || (c =? 8287) || (c =? 12288) || (c =? 65279).

(** [String.prototype.toLowerCase]. The code points whose lowercase form
    lies in U+0000..U+00FF are all here: ASCII, Latin-1, U+0130 (which
    becomes [i] followed by U+0307), U+0178, U+1E9E, KELVIN SIGN and
    ANGSTROM SIGN. The other cased letters of Unicode lowercase to code
    units above U+00FF that are no white space; they are left in place,
    which no function below can tell apart: [slugify] strips them in either
    case and no month table holds one. *)
Definition lowerUnit (c : codeunit) : jsstring :=
  if isUpper c then [c + 32]
  else if (192 <=? c) && (c <=? 222) && negb (c =? 215) then [c + 32]
  else if c =? 304 then [105; 775]
  else if c =? 376 then [255]
  else if c =? 7838 then [223]
  else if c =? 8490 then [107]
  else if c =? 8491 then [229]
  else [c].

Definition toLowerCase (s : jsstring) : jsstring := flat_map lowerUnit s.

Fixpoint startsWith (p s : jsstring) : bool :=
  match p, s with
  | [], _ => true
  | a :: p', b :: s' => (a =? b) && startsWith p' s'
  | _ :: _, [] => false
  end.

Fixpoint takeWhile (p : codeunit -> bool) (s : jsstring) : jsstring :=
  match s with
  | c :: t => if p c then c :: takeWhile p t else []
  | [] => []
  end.

Fixpoint dropWhile (p : codeunit -> bool) (s : jsstring) : jsstring :=
  match s with
  | c :: t => if p c then dropWhile p t else s
  | [] => []
  end.

(** [s.includes(p)] *)
Fixpoint includes (p s : jsstring) : bool :=
  startsWith p s ||
  match s with
  | [] => false
  | _ :: t => includes p t
  end.

(** [s.trim()] *)
Definition trim (s : jsstring) : jsstring :=
  rev (dropWhile isSpace (rev (dropWhile isSpace s))).

(** [s.substring(0, n)] *)
Definition substring0 (n : nat) (s : jsstring) : jsstring := firstn n s.

(** [s.padStart(2, '0')] *)
Definition padStart2 (s : jsstring) : jsstring :=
  repeat 48 (2 - length s) ++ s.

(** A regular expression tried at the head of a string: the length of the
    match (never 0 for the expressions of these scripts) and what replaces
    it. *)
Definition matcher := jsstring -> option (nat * jsstring).

(** [s.replace(/re/g, ...)]: scan from the left; where the expression
    matches, emit the replacement and resume after the match, otherwise
    copy one code unit. [skip] counts the code units of the current match
    still to pass over. *)
Fixpoint replaceG (m : matcher) (skip : nat) (s : jsstring) : jsstring :=
  match s with
  | [] => []
  | c :: t =>
      match skip with
      | S k => replaceG m k t
      | O =>
          match m s with
          | Some (len, rep) => rep ++ replaceG m (pred len) t
          | None => c :: replaceG m 0 t
          end
      end
  end.

Definition replaceAll (m : matcher) (s : jsstring) : jsstring :=
  replaceG m 0 s.

(** A literal pattern, as in [/&mdash;/g]. *)
Definition literal (pat rep : jsstring) : matcher :=
  fun s => if startsWith pat s then Some (length pat, rep) else None.

(** [s.replace(/C+/g, rep)] for a character class [C]: every maximal run
    becomes one [rep]. [inrun] tells that the previous unit was in [C]. *)
Fixpoint collapseRuns (p : codeunit -> bool) (rep : jsstring)
         (inrun : bool) (s : jsstring) : jsstring :=
  match s with
  | [] => []
  | c :: t =>
      if p c
      then (if inrun then [] else rep) ++ collapseRuns p rep true t
      else c :: collapseRuns p rep false t
  end.

(** [s.replace(',', '')] and the like: a string pattern replaces the
    first occurrence only. *)
Fixpoint removeFirst (c : codeunit) (s : jsstring) : jsstring :=
  match s with
  | [] => []
  | x :: t => if x =? c then t else x :: removeFirst c t
  end.

(** [s.split(/C+/)]: the pieces between the maximal runs of [C]; a run at
    either end leaves an empty piece there. [cur] is the piece being read,
    reversed. *)
Fixpoint splitRuns (p : codeunit -> bool) (cur : jsstring) (inrun : bool)
         (s : jsstring) : list jsstring :=
  match s with
  | [] => [rev cur]
  | c :: t =>
      if p c
      then (if inrun then splitRuns p [] true t
            else rev cur :: splitRuns p [] true t)
      else splitRuns p (c :: cur) false t
  end.

(** [s.split(' ')]: every occurrence of the separator splits. *)
Fixpoint splitChar (c : codeunit) (cur : jsstring) (s : jsstring)
  : list jsstring :=
  match s with
  | [] => [rev cur]
  | x :: t =>
      if x =? c then rev cur :: splitChar c [] t
      else splitChar c (x :: cur) t
  end.

(** [parseInt] of a run of decimal digits, as a mathematical integer. *)
Definition digitsValue (ds : jsstring) : N :=
  fold_left (fun acc d => 10 * acc + (d - 48)) ds 0.

(** The Number nearest to an integer (round to nearest, ties to even, 53
    bits of mantissa). Beyond the largest finite double the result is
    Infinity, which [ToUint16] sends to 0, as it does every double from
    2^69 on; so no case is needed for it. *)
Definition toDouble (v : N) : N :=
  if v <? 2 ^ 53 then v
  else
    let e := N.log2 v - 52 in
    let q := v / 2 ^ e in
    let r := v mod 2 ^ e in
    let half := 2 ^ (e - 1) in
    if (half <? r) || ((r =? half) && N.odd q)
    then (q + 1) * 2 ^ e else q * 2 ^ e.

(** [String.fromCharCode(parseInt(n))] for a run of digits [n]. *)
Definition fromCharCode_parseInt (ds : jsstring) : codeunit :=
  toDouble (digitsValue ds) mod 65536.

(** Decimal text of a non-negative integer, as template literals print it. *)
Definition numberToString (n : N) : jsstring :=
  u (NilEmpty.string_of_uint (N.to_uint n)).

(** ** Property lookup on an object literal

    [obj[key]] on an object written as a literal finds the object's own
    properties first and then those of [Object.prototype]. The inherited
    ones are functions, and [__proto__] is the prototype object itself:
    all of them are truthy, so [obj[key] || dflt] does not fall back on
    [dflt] for these keys. *)
Inductive jsval :=
| VUndefined
| VString (s : jsstring)
| VNative (name : jsstring)      (* a built-in function *)
| VObjectPrototype.

Definition Object_prototype : list (jsstring * jsval) :=
  [ (u "constructor", VNative (u "Object"));
    (u "__defineGetter__", VNative (u "__defineGetter__"));
    (u "__defineSetter__", VNative (u "__defineSetter__"));
    (u "hasOwnProperty", VNative (u "hasOwnProperty"));
    (u "__lookupGetter__", VNative (u "__lookupGetter__"));
    (u "__lookupSetter__", VNative (u "__lookupSetter__"));
    (u "isPrototypeOf", VNative (u "isPrototypeOf"));
    (u "propertyIsEnumerable", VNative (u "propertyIsEnumerable"));
    (u "toString", VNative (u "toString"));
    (u "valueOf", VNative (u "valueOf"));
    (u "__proto__", VObjectPrototype);
    (u "toLocaleString", VNative (u "toLocaleString")) ].

Fixpoint assoc {A} (k : jsstring) (l : list (jsstring * A)) : option A :=
  match l with
  | [] => None
  | (k', v) :: t => if jseqb k k' then Some v else assoc k t
  end.

Definition objectLiteral := list (jsstring * jsstring).

(** [obj[key]] *)
Definition getProp (obj : objectLiteral) (key : jsstring) : jsval :=
  match assoc key obj with
  | Some s => VString s
  | None =>
      match assoc key Object_prototype with
      | Some v => v
      | None => VUndefined
      end
  end.

(** [v || dflt] with a string [dflt]: undefined and the empty string are
    falsy. *)
Definition orElse (v : jsval) (dflt : jsstring) : jsval :=
  match v with
  | VUndefined | VString [] => VString dflt
  | _ => v
  end.

(** String conversion inside a template literal. A built-in function
    prints as Node prints it. *)
Definition toString (v : jsval) : jsstring :=
  match v with
  | VUndefined => u "undefined"
  | VString s => s
  | VNative name => u "function " ++ name ++ u "() { [native code] }"
  | VObjectPrototype => u "[object Object]"
  end.

(** [a || b] on two strings. *)
Definition orStr (a b : jsstring) : jsstring :=
  match a with [] => b | _ => a end.

(** [s] between double quotes. *)
Definition q (s : jsstring) : jsstring := QUOTE :: s ++ [QUOTE].

(** ** Matching

    A pattern tried at the head of a string gives back what follows the
    match. *)
Definition lit (p s : jsstring) : option jsstring :=
  if startsWith p s then Some (skipn (length p) s) else None.

(** [String.prototype.match] without the [g] flag: the leftmost position
    where the pattern matches. *)
Fixpoint search {A} (m : jsstring -> option A) (s : jsstring) : option A :=
  match m s with
  | Some r => Some r
  | None =>
      match s with
      | [] => None
      | _ :: t => search m t
      end
  end.

(** [[\s\S]*?] followed by the pattern [m]: the shortest text after which
    [m] matches, with the result of [m] there. *)
Fixpoint lazyUntil {A} (m : jsstring -> option A) (s : jsstring)
  : option (jsstring * A) :=
  match m s with
  | Some r => Some ([], r)
  | None =>
      match s with
      | [] => None
      | c :: t =>
          match lazyUntil m t with
          | Some (b, r) => Some (c :: b, r)
          | None => None
          end
      end
  end.

(** [s.split(/re/)] for an expression that matches no empty text; [m] gives
    the length of a match at the head. *)
Fixpoint splitG (m : jsstring -> option nat) (skip : nat) (cur : jsstring)
         (s : jsstring) : list jsstring :=
  match s with
  | [] => [rev cur]
  | c :: t =>
      match skip with
      | S k => splitG m k cur t
      | O =>
          match m s with
          | Some len => rev cur :: splitG m (pred len) [] t
          | None => splitG m 0 (c :: cur) t
          end
      end
  end.

End Js.
Import Js.

(* ================================================================== *)
(** * migrate.mjs                                                     *)
(* ================================================================== *)

Module Migrate.

(** ** Entities *)

(** [/&#(\d+);/g] with the callback
    [(_, n) => String.fromCharCode(parseInt(n))]. *)
Definition numericRef : matcher := fun s =>
  match s with
  | 38 :: 35 :: t =>
      let ds := takeWhile isDigit t in
      match ds, skipn (length ds) t with
      | _ :: _, 59 :: _ =>
          Some (3 + length ds, [fromCharCode_parseInt ds])%nat
      | _, _ => None
      end
  | _ => None
  end.

(** The named references of [decodeEntities], in the order of its
    [replace] calls. *)
Definition namedRefs : list (jsstring * jsstring) :=
  [ (u "&mdash;", [8212]);
    (u "&rarr;", [8594]);
    (u "&larr;", [8592]);
    (u "&amp;", [AMP]);
    (u "&quot;", [QUOTE]);
    (u "&lt;", [60]);
    (u "&gt;", [62]);
    (u "&euml;", [235]);
    (u "&eacute;", [233]);
    (u "&egrave;", [232]);
    (u "&agrave;", [224]);
    (u "&ccedil;", [231]);
    (u "&Eacute;", [201]);
    (u "&ucirc;", [251]);
    (u "&ocirc;", [244]);
    (u "&acirc;", [226]);
    (u "&icirc;", [238]);
    (u "&nbsp;", [SPACE]) ].

Definition decodeEntities (str : jsstring) : jsstring :=
  fold_left (fun s '(pat, rep) => replaceAll (literal pat rep) s)
            namedRefs
            (replaceAll numericRef str).

(** ** Slugs *)

(** [.replace(/[^\w\s-]/g, '')] *)
Definition stripNonSlug (s : jsstring) : jsstring :=
  filter (fun c => isWord c || isSpace c || (c =? HYPHEN)) s.

(** [.replace(/\s+/g, '-')] *)
Definition spacesToHyphen (s : jsstring) : jsstring :=
  collapseRuns isSpace [HYPHEN] false s.

(** [.replace(/-+/g, '-')] *)
Definition collapseHyphens (s : jsstring) : jsstring :=
  collapseRuns (fun c => c =? HYPHEN) [HYPHEN] false s.

(** [s] without its last code unit when that is a hyphen. *)
Fixpoint dropLastHyphen (s : jsstring) : jsstring :=
  match s with
  | [] => []
  | [c] => if c =? HYPHEN then [] else [c]
  | c :: t => c :: dropLastHyphen t
  end.

(** [.replace(/^-|-$/g, '')]: one hyphen at the start and one at the end
    go; the scan resumes after the first match, so a lone hyphen is matched
    once. *)
Definition trimEdgeHyphens (s : jsstring) : jsstring :=
  match s with
  | c :: t => if c =? HYPHEN then dropLastHyphen t else dropLastHyphen s
  | [] => []
  end.

Definition slugify (title : jsstring) : jsstring :=
  substring0 60
    (trimEdgeHyphens
       (collapseHyphens
          (spacesToHyphen
             (stripNonSlug
                (toLowerCase title))))).

(** ** Dates *)

Definition enMonths : objectLiteral :=
  [ (u "january", u "01"); (u "february", u "02"); (u "march", u "03");
    (u "april", u "04"); (u "may", u "05"); (u "june", u "06");
    (u "july", u "07"); (u "august", u "08"); (u "september", u "09");
    (u "october", u "10"); (u "november", u "11"); (u "december", u "12") ].

(** English dates: [January 23, 2025] to [2025-01-23]. *)
Definition parseEnDate (dateStr : jsstring) : jsstring :=
  let parts := splitRuns isSpace [] false (removeFirst COMMA (trim dateStr)) in
  match parts with
  | [p0; p1; p2] =>
      let month := orElse (getProp enMonths (toLowerCase p0)) (u "01") in
      let day := padStart2 p1 in
      let year := p2 in
      year ++ u "-" ++ toString month ++ u "-" ++ day
  | _ => dateStr
  end.

Definition frMonths : objectLiteral :=
  [ (u "janvier", u "01");
    (u "f" ++ [233] ++ u "vrier", u "02");
    (u "mars", u "03"); (u "avril", u "04"); (u "mai", u "05");
    (u "juin", u "06"); (u "juillet", u "07");
    (u "ao" ++ [251] ++ u "t", u "08");
    (u "septembre", u "09"); (u "octobre", u "10"); (u "novembre", u "11");
    (u "d" ++ [233] ++ u "cembre", u "12") ].

(** French dates: [23 janvier 2025]. *)
Definition parseFrDate (dateStr : jsstring) : jsstring :=
  let decoded := trim (decodeEntities dateStr) in
  let parts := splitChar SPACE [] decoded in
  match parts with
  | [p0; p1; p2] =>
      let day := padStart2 p0 in
      let month := orElse (getProp frMonths (toLowerCase p1)) (u "01") in
      let year := p2 in
      year ++ u "-" ++ toString month ++ u "-" ++ day
  | _ => decoded
  end.

(** The Hebrew month names, as code units. *)
Definition heMonths : objectLiteral :=
  [ ([1497; 1504; 1493; 1488; 1512], u "01");
    ([1508; 1489; 1512; 1493; 1488; 1512], u "02");
    ([1502; 1512; 1509], u "03");
    ([1488; 1508; 1512; 1497; 1500], u "04");
    ([1502; 1488; 1497], u "05");
    ([1497; 1493; 1504; 1497], u "06");
    ([1497; 1493; 1500; 1497], u "07");
    ([1488; 1493; 1490; 1493; 1505; 1496], u "08");
    ([1505; 1508; 1496; 1502; 1489; 1512], u "09");
    ([1488; 1493; 1511; 1496; 1493; 1489; 1512], u "10");
    ([1504; 1493; 1489; 1502; 1489; 1512], u "11");
    ([1491; 1510; 1502; 1489; 1512], u "12") ].

Definition parseHeDate (dateStr : jsstring) : jsstring :=
  let decoded := trim (decodeEntities dateStr) in
  let parts := splitChar SPACE [] decoded in
  match parts with
  | [p0; p1; p2] =>
      let day := padStart2 p0 in
      let month := orElse (getProp heMonths p1) (u "01") in
      let year := p2 in
      year ++ u "-" ++ toString month ++ u "-" ++ day
  | _ => decoded
  end.

(** ** Posts *)

Inductive Lang := en | fr | he.

Definition langName (l : Lang) : jsstring :=
  match l with en => u "en" | fr => u "fr" | he => u "he" end.

Record Post := mkPost {
  title : jsstring;
  slug : jsstring;
  date : jsstring;
  category : jsstring;
  excerpt : jsstring;
  image : jsstring;
  image_alt : jsstring;
  featured : bool
}.

Definition setSlug (s : jsstring) (p : Post) : Post :=
  mkPost (title p) s (date p) (category p) (excerpt p) (image p)
         (image_alt p) (featured p).

Definition notQuote (c : codeunit) : bool := negb (c =? QUOTE).

(** The expression for the [data-cat] attribute, a double quote, one or
    more units that are no double quote, and a double quote: the capture. *)
Definition catAttrRe (s : jsstring) : option jsstring :=
  match lit (u "data-cat=" ++ [QUOTE]) s with
  | Some r =>
      let v := takeWhile notQuote r in
      match v, skipn (length v) r with
      | _ :: _, 34 :: _ => Some v
      | _, _ => None
      end
  | None => None
  end.

(** The expression for the [img] tag, whose [src] and [alt] values each
    run up to the next double quote: the two captures. *)
Definition imgRe (s : jsstring) : option (jsstring * jsstring) :=
  match lit (u "<img src=" ++ [QUOTE]) s with
  | Some r =>
      let v1 := takeWhile notQuote r in
      match lit (QUOTE :: u " alt=" ++ [QUOTE]) (skipn (length v1) r) with
      | Some r2 =>
          let v2 := takeWhile notQuote r2 in
          match skipn (length v2) r2 with
          | 34 :: _ => Some (v1, v2)
          | _ => None
          end
      | None => None
      end
  | None => None
  end.

(** [/open([\s\S]*?)close/] for literal [open] and [close]: the capture. *)
Definition betweenRe (open close : jsstring) (s : jsstring)
  : option jsstring :=
  match lit open s with
  | Some r =>
      match lazyUntil (lit close) r with
      | Some (b, _) => Some b
      | None => None
      end
  | None => None
  end.

(** [m?.[1]?.trim() || ''] *)
Definition trimmedOrEmpty (m : option jsstring) : jsstring :=
  match m with Some c => trim c | None => [] end.

Definition parsePost (block : jsstring) (lang : Lang) (isFeatured : bool)
  : Post :=
  let catAttr := search catAttrRe block in
  let cat := match catAttr with Some c => c | None => [] end in
  let imgMatch := search imgRe block in
  let dateMatch :=
    if isFeatured
    then search (betweenRe (u "<div class=" ++ q (u "featured-date") ++ u ">")
                           (u "</div>")) block
    else search (betweenRe (u "<div class=" ++ q (u "blog-card-date") ++ u ">")
                           (u "</div>")) block in
  let titleMatch :=
    if isFeatured
    then search (betweenRe (u "<h2 class=" ++ q (u "featured-title")
                              ++ u "><a href=" ++ q (u "#") ++ u ">")
                           (u "</a></h2>")) block
    else search (betweenRe (u "<h3 class=" ++ q (u "blog-card-title")
                              ++ u "><a href=" ++ q (u "#") ++ u ">")
                           (u "</a></h3>")) block in
  let excerptMatch :=
    if isFeatured
    then search (betweenRe (u "<p class=" ++ q (u "featured-excerpt") ++ u ">")
                           (u "</p>")) block
    else search (betweenRe (u "<p class=" ++ q (u "blog-card-excerpt") ++ u ">")
                           (u "</p>")) block in
  let title := decodeEntities (trimmedOrEmpty titleMatch) in
  let dateStr := decodeEntities (trimmedOrEmpty dateMatch) in
  let date :=
    match lang with
    | en => parseEnDate dateStr
    | fr => parseFrDate dateStr
    | he => parseHeDate dateStr
    end in
  let slugSource :=
    match lang with
    | en => title
    | _ => decodeEntities
             (match imgMatch with Some (_, alt) => orStr alt title
                                | None => title end)
    end in
  {| title := title;
     slug := slugify slugSource;
     date := date;
     category := cat;
     excerpt := decodeEntities (trimmedOrEmpty excerptMatch);
     image := match imgMatch with Some (src, _) => src | None => [] end;
     image_alt := decodeEntities
                    (match imgMatch with Some (_, alt) => alt | None => [] end);
     featured := isFeatured |}.

(** [\s*]: white space is skipped to its end, since each pattern that
    follows it here starts with [<]. *)
Definition ws (s : jsstring) : option jsstring := Some (dropWhile isSpace s).

(** [\s*\n\s*\n\s*] before [<]: the whole run of white space, which has to
    hold two line feeds. *)
Definition wsTwoNewlines (s : jsstring) : option jsstring :=
  if (2 <=? count_occ N.eq_dec (takeWhile isSpace s) NL)%nat
  then Some (dropWhile isSpace s) else None.

Definition andThen {A B} (o : option A) (f : A -> option B) : option B :=
  match o with Some a => f a | None => None end.

Notation "o >>= f" := (andThen o f) (at level 50, left associativity).

(** [<\/div>\s*<\/div>\s*\n\s*\n\s*<!-- Blog Grid -->] *)
Definition featuredClose (s : jsstring) : option jsstring :=
  lit (u "</div>") s >>= ws >>= lit (u "</div>") >>= wsTwoNewlines
    >>= lit (u "<!-- Blog Grid -->").

(** The featured expression tried at the head of [s]: the matched text
    [m[0]]. *)
Definition featuredRe (s : jsstring) : option jsstring :=
  match lit (u "<div class=" ++ q (u "featured-post reveal")) s with
  | Some r =>
      match lazyUntil featuredClose r with
      | Some (_, rest) => Some (firstn (length s - length rest) s)
      | None => None
      end
  | None => None
  end.

Definition extractFeatured (html : jsstring) (lang : Lang) : option Post :=
  match search featuredRe html with
  | None => None
  | Some m0 => Some (parsePost m0 lang true)
  end.

(** [<\/div>\s*<\/div>\s*<\/section>] *)
Definition gridClose (s : jsstring) : option jsstring :=
  lit (u "</div>") s >>= ws >>= lit (u "</div>") >>= ws
    >>= lit (u "</section>").

(** The grid expression tried at the head of [s]: its capture. *)
Definition gridRe (s : jsstring) : option jsstring :=
  match lit (u "<!-- Blog Grid -->") s >>= ws
          >>= lit (u "<div class=" ++ q (u "blog-grid") ++ u ">") with
  | Some r =>
      match lazyUntil gridClose r with
      | Some (b, _) => Some b
      | None => None
      end
  | None => None
  end.

(** [/<!-- Post \d+ -->/] at the head of [s]: the length of the match. *)
Definition postMarkerRe (s : jsstring) : option nat :=
  match lit (u "<!-- Post ") s with
  | Some r =>
      let ds := takeWhile isDigit r in
      match ds, lit (u " -->") (skipn (length ds) r) with
      | _ :: _, Some _ => Some (10 + length ds + 4)%nat
      | _, _ => None
      end
  | None => None
  end.

Definition extractCards (html : jsstring) (lang : Lang) : list Post :=
  match search gridRe html with
  | None => []
  | Some gridHtml =>
      let cardBlocks :=
        filter (includes (u "blog-card")) (splitG postMarkerRe 0 [] gridHtml) in
      map (fun block => parsePost block lang false) cardBlocks
  end.

(** Every double quote gets a backslash before it, as [toMarkdown] does
    for the YAML header. *)
Definition escapeYamlQuotes (s : jsstring) : jsstring :=
  replaceAll (literal [QUOTE] [BACKSLASH; QUOTE]) s.

Definition boolToString (b : bool) : jsstring :=
  if b then u "true" else u "false".

Definition toMarkdown (post : Post) : jsstring :=
  let escTitle := escapeYamlQuotes (title post) in
  let escExcerpt := escapeYamlQuotes (excerpt post) in
  let escAlt := escapeYamlQuotes (image_alt post) in
  u "---" ++ [NL]
  ++ u "title: " ++ q escTitle ++ [NL]
  ++ u "slug: " ++ q (slug post) ++ [NL]
  ++ u "date: " ++ date post ++ [NL]
  ++ u "category: " ++ q (category post) ++ [NL]
  ++ u "excerpt: " ++ q escExcerpt ++ [NL]
  ++ u "image: " ++ q (image post) ++ [NL]
  ++ u "image_alt: " ++ q escAlt ++ [NL]
  ++ u "featured: " ++ boolToString (featured post) ++ [NL]
  ++ u "---" ++ [NL]
  ++ [NL]
  ++ title post ++ [NL].

(** ** The run

    The three pages are the input; the files handed to [writeFileSync],
    in order, are the result. [enFeatured.slug] throws a TypeError when
    [enFeatured] is null, before any file is written. The file system is
    not part of the model: the pages are taken to be there and the
    directories to exist. Console output is left out. *)
Definition files (l : Lang) : jsstring :=
  match l with
  | en => u "blog.html"
  | fr => u "blog-fr.html"
  | he => u "blog-he.html"
  end.

Record File := mkFile { path : jsstring; content : jsstring }.

Inductive Run :=
| Completed (written : list File)
| TypeError.

Definition outDir (lang : Lang) : jsstring :=
  u "content/blog/" ++ langName lang.

Definition writePost (lang : Lang) (post : Post) : File :=
  mkFile (outDir lang ++ u "/" ++ slug post ++ u ".md") (toMarkdown post).

(** [enSlugs[i]] *)
Definition at_ (enSlugs : list jsstring) (i : nat) : option jsstring :=
  nth_error enSlugs i.

(** The loop over the cards, from index [i] on: each card with the slug it
    is written under. [enSlugs[i + 1] || cards[i].slug] keeps the card's own
    slug when the element is undefined or the empty string. *)
Fixpoint unifyCards (enSlugs : list jsstring) (i : nat) (cards : list Post)
  : list Post :=
  match cards with
  | [] => []
  | c :: rest =>
      let s := match at_ enSlugs (i + 1) with
               | Some e => orStr e (slug c)
               | None => slug c
               end in
      setSlug s c :: unifyCards enSlugs (S i) rest
  end.

(** One iteration of [for (const [lang, file] of Object.entries(files))].
    [featured.slug = enSlugs[0]] takes the first canonical slug as it is,
    be it empty; were the list empty, the slug would be undefined and
    print as such. *)
Definition migrateLang (enSlugs : list jsstring) (lang : Lang)
           (html : jsstring) : list File :=
  let featured := extractFeatured html lang in
  let cards := extractCards html lang in
  let fw :=
    match featured with
    | Some f =>
        let s0 := match at_ enSlugs 0 with
                  | Some e => e
                  | None => u "undefined"
                  end in
        [writePost lang (setSlug s0 f)]
    | None => []
    end in
  fw ++ map (writePost lang) (unifyCards enSlugs 0 cards).

Definition migrate (docs : Lang -> jsstring) : Run :=
  let enHtml := docs en in
  let enFeatured := extractFeatured enHtml en in
  let enCards := extractCards enHtml en in
  match enFeatured with
  | None => TypeError
  | Some f =>
      let enSlugs := slug f :: map slug enCards in
      Completed (flat_map (fun lang => migrateLang enSlugs lang (docs lang))
                          [en; fr; he])
  end.

End Migrate.

(* ================================================================== *)
(** * The build script                                                *)
(* ================================================================== *)

Module Build.

Import Migrate(Lang, en, fr, he).

(** ** Language configurations *)

Record LangCfg := mkCfg {
  folder : jsstring;
  output : jsstring;
  topTemplate : jsstring;
  bottomTemplate : jsstring;
  categoryLabels : objectLiteral;
  readMore : jsstring;
  listenNow : jsstring;
  readFull : jsstring;
  arrow : jsstring;
  locale : jsstring;
  dateOptions : objectLiteral
}.

Definition langs (lang : Lang) : LangCfg :=
  match lang with
  | en =>
      {| folder := u "content/blog/en";
         output := u "blog.html";
         topTemplate := u "templates/blog-en-top.html";
         bottomTemplate := u "templates/blog-en-bottom.html";
         categoryLabels :=
           [ (u "real-estate", u "Israel Real Estate");
             (u "economy", u "The Shekel Exchange");
             (u "team", u "The Team");
             (u "podcasts", u "Podcasts") ];
         readMore := u "Read More";
         listenNow := u "Listen Now";
         readFull := u "Read Full Article";
         arrow := u "&rarr;";
         locale := u "en-US";
         dateOptions := [ (u "month", u "long"); (u "day", u "numeric");
                          (u "year", u "numeric") ] |}
  | fr =>
      {| folder := u "content/blog/fr";
         output := u "blog-fr.html";
         topTemplate := u "templates/blog-fr-top.html";
         bottomTemplate := u "templates/blog-fr-bottom.html";
         categoryLabels :=
           [ (u "real-estate", u "Immobilier en Isra&euml;l");
             (u "economy", u "Le Change du Shekel");
             (u "team", u "L'&Eacute;quipe");
             (u "podcasts", u "Podcasts") ];
         readMore := u "Lire la Suite";
         listenNow := u "&Eacute;couter";
         readFull := u "Lire l'Article Complet";
         arrow := u "&rarr;";
         locale := u "fr-FR";
         dateOptions := [ (u "day", u "numeric"); (u "month", u "long");
                          (u "year", u "numeric") ] |}
  | he =>
      {| folder := u "content/blog/he";
         output := u "blog-he.html";
         topTemplate := u "templates/blog-he-top.html";
         bottomTemplate := u "templates/blog-he-bottom.html";
         categoryLabels :=
           [ (u "real-estate",
              u "&#1504;&#1491;&#1500;&quot;&#1503; &#1489;&#1497;&#1513;&#1512;&#1488;&#1500;");
             (u "economy",
              u "&#1513;&#1506;&#1512; &#1492;&#1513;&#1511;&#1500;");
             (u "team", u "&#1492;&#1510;&#1493;&#1493;&#1514;");
             (u "podcasts",
              u "&#1508;&#1493;&#1491;&#1511;&#1488;&#1505;&#1496;&#1497;&#1501;") ];
         readMore := u "&#1511;&#1512;&#1488;&#1493; &#1506;&#1493;&#1491;";
         listenNow :=
           u "&#1492;&#1488;&#1494;&#1497;&#1504;&#1493; &#1506;&#1499;&#1513;&#1497;&#1493;";
         readFull :=
           u "&#1511;&#1512;&#1488;&#1493; &#1488;&#1514; &#1492;&#1502;&#1488;&#1502;&#1512; &#1492;&#1502;&#1500;&#1488;";
         arrow := u "&larr;";
         locale := u "he-IL";
         dateOptions := [ (u "day", u "numeric"); (u "month", u "long");
                          (u "year", u "numeric") ] |}
  end.

(** [lang === 'he'] *)
Definition isHe (lang : Lang) : bool :=
  match lang with he => true | _ => false end.

(** ** Posts

    gray-matter hands a post's date over as a Date or as a string; the
    script turns either into a time value (milliseconds since the epoch)
    before it compares or formats it, and that value is what a post holds
    here. *)
Record Post := mkPost {
  title : jsstring;
  slug : jsstring;
  date : Z;
  category : jsstring;
  excerpt : jsstring;
  image : jsstring;
  image_alt : jsstring;
  featured : bool
}.

(** ** Helpers *)

Definition escapeHtml (str : jsstring) : jsstring :=
  replaceAll (literal [QUOTE] (u "&quot;"))
    (replaceAll (literal (u ">") (u "&gt;"))
       (replaceAll (literal (u "<") (u "&lt;"))
          (replaceAll (literal (u "&") (u "&amp;")) str))).

Definition cardColors : list jsstring :=
  [u "0D2847"; u "1a3a5c"; u "1a4a6e"; u "1a3550"; u "1a2844"; u "1a3048"].
Definition featuredColor : jsstring := u "1a2e4a".

Section Generators.

(** [new Intl.DateTimeFormat(locale, options).format(date)], which the
    platform provides. *)
Variable Intl_DateTimeFormat : jsstring -> objectLiteral -> Z -> jsstring.

Definition formatDate (dateVal : Z) (locale : jsstring)
           (options : objectLiteral) : jsstring :=
  Intl_DateTimeFormat locale (options ++ [(u "timeZone", u "UTC")]) dateVal.

(** ** HTML generators *)

Definition catLabelOf (cfg : LangCfg) (post : Post) : jsval :=
  orElse (getProp (categoryLabels cfg) (category post)) (category post).

Definition linkOf (cfg : LangCfg) (lang : Lang) (linkText : jsstring)
  : jsstring :=
  if isHe lang then arrow cfg ++ u " " ++ linkText
  else linkText ++ u " " ++ arrow cfg.

Definition featuredImgSrc (post : Post) : jsstring :=
  orStr (image post)
        (u "https://placehold.co/800x500/" ++ featuredColor ++ u "/"
           ++ featuredColor).

Definition featuredImgBlock (post : Post) : jsstring :=
  let imgSrc := featuredImgSrc post in
  let imgAlt := escapeHtml (orStr (image_alt post) (title post)) in
  u "      <div class=" ++ q (u "featured-img") ++ u ">" ++ [NL]
  ++ u "        <img src=" ++ q imgSrc ++ u " alt=" ++ q imgAlt ++ u "/>" ++ [NL]
  ++ u "        <div class=" ++ q (u "featured-img-overlay") ++ u "></div>" ++ [NL]
  ++ u "      </div>".

Definition featuredBodyBlock (post : Post) (lang : Lang) : jsstring :=
  let cfg := langs lang in
  let catLabel := toString (catLabelOf cfg post) in
  let date := formatDate (date post) (locale cfg) (dateOptions cfg) in
  let title := escapeHtml (title post) in
  let excerpt := escapeHtml (excerpt post) in
  let linkText :=
    if jseqb (category post) (u "podcasts") then listenNow cfg
    else readFull cfg in
  u "      <div class=" ++ q (u "featured-body") ++ u ">" ++ [NL]
  ++ u "        <div class=" ++ q (u "featured-cat") ++ u ">" ++ catLabel ++ u "</div>" ++ [NL]
  ++ u "        <div class=" ++ q (u "featured-date") ++ u ">" ++ date ++ u "</div>" ++ [NL]
  ++ u "        <h2 class=" ++ q (u "featured-title") ++ u "><a href=" ++ q (u "#") ++ u ">" ++ title ++ u "</a></h2>" ++ [NL]
  ++ u "        <p class=" ++ q (u "featured-excerpt") ++ u ">" ++ excerpt ++ u "</p>" ++ [NL]
  ++ u "        <a href=" ++ q (u "#") ++ u " class=" ++ q (u "featured-link") ++ u ">" ++ linkOf cfg lang linkText ++ u "</a>" ++ [NL]
  ++ u "      </div>".

Definition generateFeaturedPost (post : Post) (lang : Lang) : jsstring :=
  let imgBlock := featuredImgBlock post in
  let bodyBlock := featuredBodyBlock post lang in
  (* Hebrew: body first, image second (for RTL);
     EN/FR: image first, body second *)
  let inner :=
    if isHe lang then bodyBlock ++ [NL] ++ imgBlock
    else imgBlock ++ [NL] ++ bodyBlock in
  u "    <!-- Featured Post -->" ++ [NL]
  ++ u "    <div class=" ++ q (u "featured-post reveal") ++ u " data-cat=" ++ q (category post) ++ u ">" ++ [NL]
  ++ inner ++ [NL]
  ++ u "    </div>".

Definition cardImgSrc (post : Post) (index : nat) : jsstring :=
  let colorIdx := (index mod length cardColors)%nat in
  let color := nth colorIdx cardColors [] in
  orStr (image post)
        (u "https://placehold.co/600x400/" ++ color ++ u "/" ++ color).

Definition generateBlogCard (post : Post) (index : nat) (lang : Lang)
  : jsstring :=
  let cfg := langs lang in
  let catLabel := toString (catLabelOf cfg post) in
  let date := formatDate (date post) (locale cfg) (dateOptions cfg) in
  let rdClass := u "rd" ++ numberToString (N.of_nat ((index mod 6) + 1)) in
  let imgSrc := cardImgSrc post index in
  let imgAlt := escapeHtml (orStr (image_alt post) (title post)) in
  let title := escapeHtml (title post) in
  let excerpt := escapeHtml (excerpt post) in
  let linkText :=
    if jseqb (category post) (u "podcasts") then listenNow cfg
    else readMore cfg in
  u "      <!-- Post " ++ numberToString (N.of_nat (index + 1)) ++ u " -->" ++ [NL]
  ++ u "      <div class=" ++ q (u "blog-card reveal " ++ rdClass) ++ u " data-cat=" ++ q (category post) ++ u ">" ++ [NL]
  ++ u "        <div class=" ++ q (u "blog-card-img") ++ u ">" ++ [NL]
  ++ u "          <img src=" ++ q imgSrc ++ u " alt=" ++ q imgAlt ++ u "/>" ++ [NL]
  ++ u "          <div class=" ++ q (u "blog-card-img-overlay") ++ u "></div>" ++ [NL]
  ++ u "          <div class=" ++ q (u "blog-card-img-color") ++ u "></div>" ++ [NL]
  ++ u "          <span class=" ++ q (u "blog-card-cat") ++ u ">" ++ catLabel ++ u "</span>" ++ [NL]
  ++ u "        </div>" ++ [NL]
  ++ u "        <div class=" ++ q (u "blog-card-body") ++ u ">" ++ [NL]
  ++ u "          <div class=" ++ q (u "blog-card-date") ++ u ">" ++ date ++ u "</div>" ++ [NL]
  ++ u "          <h3 class=" ++ q (u "blog-card-title") ++ u "><a href=" ++ q (u "#") ++ u ">" ++ title ++ u "</a></h3>" ++ [NL]
  ++ u "          <p class=" ++ q (u "blog-card-excerpt") ++ u ">" ++ excerpt ++ u "</p>" ++ [NL]
  ++ u "          <a href=" ++ q (u "#") ++ u " class=" ++ q (u "blog-card-link") ++ u ">" ++ linkOf cfg lang linkText ++ u "</a>" ++ [NL]
  ++ u "        </div>" ++ [NL]
  ++ u "      </div>".

(** ** Main build *)

(** [posts.sort((a, b) => new Date(b.date) - new Date(a.date))]: the sort
    is stable, so a post goes before the first one that is not newer than
    it. *)
Fixpoint insertPost (p : Post) (l : list Post) : list Post :=
  match l with
  | [] => [p]
  | x :: t =>
      if (date p <? date x)%Z then x :: insertPost p t else p :: l
  end.

Definition sortPosts (posts : list Post) : list Post :=
  fold_right insertPost [] posts.

(** [posts.findIndex(p => p.featured === true)], [None] for -1. *)
Fixpoint findIndex (f : Post -> bool) (l : list Post) : option nat :=
  match l with
  | [] => None
  | p :: t =>
      if f p then Some O
      else match findIndex f t with
           | Some i => Some (S i)
           | None => None
           end
  end.

(** [posts.filter((_, i) => i !== featuredIdx)], counting from [i]. *)
Fixpoint dropIndex (featuredIdx i : nat) (l : list Post) : list Post :=
  match l with
  | [] => []
  | p :: t =>
      if (i =? featuredIdx)%nat then dropIndex featuredIdx (S i) t
      else p :: dropIndex featuredIdx (S i) t
  end.

Fixpoint mapi {A B} (f : A -> nat -> B) (i : nat) (l : list A) : list B :=
  match l with
  | [] => []
  | x :: t => f x i :: mapi f (S i) t
  end.

Fixpoint join (sep : jsstring) (l : list jsstring) : jsstring :=
  match l with
  | [] => []
  | [x] => x
  | x :: t => x ++ sep ++ join sep t
  end.

(** The featured post and the cards, chosen from the posts as read. *)
Definition selectPosts (posts : list Post) : option Post * list Post :=
  let sorted := sortPosts posts in
  let featuredIdx :=
    match findIndex featured sorted with
    | Some i => i
    | None => O    (* fallback: newest *)
    end in
  (nth_error sorted featuredIdx, dropIndex featuredIdx 0 sorted).

Inductive Outcome :=
| Written (page : jsstring)
| TypeError.

(** One iteration of the loop over the languages: the page written to
    [cfg.output]. With no post at all [featured] is undefined and
    [generateFeaturedPost] throws. *)
Definition buildPage (lang : Lang) (posts : list Post)
           (top bottom : jsstring) : Outcome :=
  match selectPosts posts with
  | (None, _) => TypeError
  | (Some featured, cards) =>
      let featuredHtml := generateFeaturedPost featured lang in
      let cardsHtml :=
        join [NL; NL] (mapi (fun post i => generateBlogCard post i lang) 0 cards) in
      let gridHtml :=
        [NL]
        ++ u "    <!-- Blog Grid -->" ++ [NL]
        ++ u "    <div class=" ++ q (u "blog-grid") ++ u ">" ++ [NL]
        ++ [NL]
        ++ cardsHtml ++ [NL]
        ++ [NL]
        ++ u "    </div>" ++ [NL]
        ++ u "  </div>" ++ [NL]
        ++ u "</section>" ++ [NL]
        ++ [NL] in
      Written (top ++ featuredHtml ++ [NL] ++ gridHtml ++ bottom)
  end.

End Generators.

End Build.

Import Migrate.

(* ================================================================== *)
(** * Vocabulary of the specification                                 *)
(* ================================================================== *)

(** The expression [m] matches somewhere in [s]. *)
Fixpoint matchesIn (m : matcher) (s : jsstring) : bool :=
  match m s with
  | Some _ => true
  | None =>
      match s with
      | [] => false
      | _ :: t => matchesIn m t
      end
  end.

(** Reference syntax in a text: a numeric reference [&#digits;] or one of
    the named references of the table. *)
Definition hasReference (s : jsstring) : bool :=
  matchesIn numericRef s || existsb (fun r => includes (fst r) s) namedRefs.

(** What a slug is made of: ASCII lowercase letters, digits, underscore
    and hyphen. *)
Definition isSlugChar (c : codeunit) : bool :=
  isLower c || isDigit c || (c =? UNDERSCORE) || (c =? HYPHEN).

Definition startsWithHyphen (s : jsstring) : Prop :=
  exists t, s = HYPHEN :: t.

Definition endsWithHyphen (s : jsstring) : Prop :=
  exists t, s = t ++ [HYPHEN].

(** No two hyphens in a row. *)
Fixpoint noDoubleHyphen (s : jsstring) : bool :=
  match s with
  | a :: (b :: _) as t =>
      negb ((a =? HYPHEN) && (b =? HYPHEN)) && noDoubleHyphen t
  | _ => true
  end.

(** The slug invariant of the data model: non-empty, lowercase, at most
    60 code units, no separator at either end. *)
Definition slugInvariant (s : jsstring) : Prop :=
  s <> []
  /\ Forall (fun c => isUpper c = false) s
  /\ (length s <= 60)%nat
  /\ ~ startsWithHyphen s
  /\ ~ endsWithHyphen s.

(** How many underscores a text holds. *)
Definition underscores (s : jsstring) : nat :=
  count_occ N.eq_dec s UNDERSCORE.

(** The steps of [slugify] before the truncation. *)
Definition beforeTruncation (x : jsstring) : jsstring :=
  trimEdgeHyphens
    (collapseHyphens (spacesToHyphen (stripNonSlug (toLowerCase x)))).

(** The opening marker of the featured block. *)
Definition featuredOpen : jsstring :=
  u "<div class=" ++ q (u "featured-post reveal").

(** The slug a card is written under, when the canonical list holds [e]
    (or nothing) at the card's position. *)
Definition unifiedSlug (e : option jsstring) (own : jsstring) : jsstring :=
  match e with
  | Some (c :: s) => c :: s
  | Some [] | None => own
  end.

(** [a] occurs in [s] and [b] occurs after the end of that occurrence. *)
Definition emittedInOrder (a b s : jsstring) : Prop :=
  exists pre mid post, s = pre ++ a ++ mid ++ b ++ post.

(** [part] occurs in [whole]. *)
Definition contains (part whole : jsstring) : Prop :=
  exists pre suf, whole = pre ++ part ++ suf.

(** [p] is the start of [s]. *)
Definition prefix (p s : jsstring) : Prop := exists r, s = p ++ r.

(** The first position at which [p] occurs in [s]. *)
Fixpoint indexOf (p s : jsstring) : option nat :=
  if startsWith p s then Some O
  else match s with
       | [] => None
       | _ :: t => option_map S (indexOf p t)
       end.

(** [emittedInOrder], decided: after the first occurrence of [a], look
    for [b]. *)
Definition emittedInOrderb (a b s : jsstring) : bool :=
  match indexOf a s with
  | Some i => includes b (skipn (i + length a) s)
  | None => false
  end.

(** What [escapeHtml] does to one code unit. *)
Definition escapeUnit (c : codeunit) : jsstring :=
  if c =? 38 then u "&amp;"
  else if c =? 60 then u "&lt;"
  else if c =? 62 then u "&gt;"
  else if c =? QUOTE then u "&quot;"
  else [c].

(** [a] is at least as new as [b]. *)
Definition notOlder (a b : Build.Post) : Prop :=
  (Build.date b <= Build.date a)%Z.

(** The image block and the body block of a card: the [blog-card-img] and
    the [blog-card-body] elements of the card template. *)
Definition cardImgBlock
           (Intl_DateTimeFormat : jsstring -> objectLiteral -> Z -> jsstring)
           (post : Build.Post) (index : nat) (lang : Lang) : jsstring :=
  let cfg := Build.langs lang in
  let catLabel := toString (Build.catLabelOf cfg post) in
  let imgSrc := Build.cardImgSrc post index in
  let imgAlt :=
    Build.escapeHtml (orStr (Build.image_alt post) (Build.title post)) in
  u "        <div class=" ++ q (u "blog-card-img") ++ u ">" ++ [NL]
  ++ u "          <img src=" ++ q imgSrc ++ u " alt=" ++ q imgAlt ++ u "/>" ++ [NL]
  ++ u "          <div class=" ++ q (u "blog-card-img-overlay") ++ u "></div>" ++ [NL]
  ++ u "          <div class=" ++ q (u "blog-card-img-color") ++ u "></div>" ++ [NL]
  ++ u "          <span class=" ++ q (u "blog-card-cat") ++ u ">" ++ catLabel ++ u "</span>" ++ [NL]
  ++ u "        </div>".

Definition cardBodyBlock
           (Intl_DateTimeFormat : jsstring -> objectLiteral -> Z -> jsstring)
           (post : Build.Post) (lang : Lang) : jsstring :=
  let cfg := Build.langs lang in
  let date :=
    Build.formatDate Intl_DateTimeFormat (Build.date post) (Build.locale cfg)
                     (Build.dateOptions cfg) in
  let title := Build.escapeHtml (Build.title post) in
  let excerpt := Build.escapeHtml (Build.excerpt post) in
  let linkText :=
    if jseqb (Build.category post) (u "podcasts") then Build.listenNow cfg
    else Build.readMore cfg in
  u "        <div class=" ++ q (u "blog-card-body") ++ u ">" ++ [NL]
  ++ u "          <div class=" ++ q (u "blog-card-date") ++ u ">" ++ date ++ u "</div>" ++ [NL]
  ++ u "          <h3 class=" ++ q (u "blog-card-title") ++ u "><a href=" ++ q (u "#") ++ u ">" ++ title ++ u "</a></h3>" ++ [NL]
  ++ u "          <p class=" ++ q (u "blog-card-excerpt") ++ u ">" ++ excerpt ++ u "</p>" ++ [NL]
  ++ u "          <a href=" ++ q (u "#") ++ u " class=" ++ q (u "blog-card-link") ++ u ">" ++ Build.linkOf cfg lang linkText ++ u "</a>" ++ [NL]
  ++ u "        </div>".

(** ** Sample inputs *)

(** The Hebrew word shalom, as an image's alt text may read. *)
Definition shalom : jsstring := [1513; 1500; 1493; 1501].

(** A page that holds the grid and one card, and no featured block. *)
Definition gridOnlyPage : jsstring :=
  u "<section><div>" ++ [NL]
  ++ u "<!-- Blog Grid -->" ++ [NL]
  ++ u "<div class=" ++ q (u "blog-grid") ++ u ">" ++ [NL]
  ++ u "<!-- Post 1 -->" ++ [NL]
  ++ u "<div class=" ++ q (u "blog-card reveal rd1") ++ u " data-cat=" ++ q (u "team") ++ u ">" ++ [NL]
  ++ u "<h3 class=" ++ q (u "blog-card-title") ++ u "><a href=" ++ q (u "#") ++ u ">Hello</a></h3>" ++ [NL]
  ++ u "</div>" ++ [NL]
  ++ u "</div>" ++ [NL]
  ++ u "</div>" ++ [NL]
  ++ u "</section>".

(** A date formatter that prints one fixed date, and a post with an image
    whose address holds an ampersand. *)
Definition fixedDate : jsstring -> objectLiteral -> Z -> jsstring :=
  fun _ _ _ => u "23.1.2025".

Definition samplePost : Build.Post :=
  Build.mkPost (u "Rates & <Markets>") (u "rates-markets")
               1737590400000%Z (u "economy") (u "Up 12%")
               (u "img/a.png?w=800&h=500") (u "A chart") false.

(** A post without an image and without an alt text. *)
Definition imagelessPost : Build.Post :=
  Build.mkPost (u "Listen: the Shekel") (u "listen-the-shekel")
               1737590400000%Z (u "podcasts") (u "An episode") [] [] true.

(** ** Further vocabulary *)

(** The comment that opens the grid of cards. *)
Definition gridComment : jsstring := u "<!-- Blog Grid -->".

(** A page with a featured block that the grid comment does not follow. *)
Definition featuredOnlyPage : jsstring :=
  u "<section><div>" ++ [NL]
  ++ u "<div class=" ++ q (u "featured-post reveal") ++ u " data-cat=" ++ q (u "team") ++ u ">" ++ [NL]
  ++ u "<div class=" ++ q (u "featured-body") ++ u ">" ++ [NL]
  ++ u "<h2 class=" ++ q (u "featured-title") ++ u "><a href=" ++ q (u "#") ++ u ">Hello</a></h2>" ++ [NL]
  ++ u "</div>" ++ [NL]
  ++ u "</div>" ++ [NL]
  ++ [NL]
  ++ u "</div></section>".

(** The file name a slug is written under. *)
Definition postPath (lang : Lang) (s : jsstring) : jsstring :=
  outDir lang ++ u "/" ++ s ++ u ".md".

(** Three posts and the page the build script makes of them, for each
    language. *)
Definition samplePosts : list Build.Post :=
  [ samplePost;
    Build.mkPost (u "Listen: the Shekel") (u "listen-the-shekel")
                 1737590400000%Z (u "podcasts") (u "An episode") []
                 [] true;
    Build.mkPost (u "Meet the Team") (u "meet-the-team")
                 1735689600000%Z (u "team") (u "Who we are")
                 (u "img/team.png") (u "The team") false ].

Definition samplePage (lang : Lang) : jsstring :=
  match Build.buildPage fixedDate lang samplePosts
                        (u "<html><section><div>") (u "</html>") with
  | Build.Written page => page
  | Build.TypeError => []
  end.

(** No white space in a token. *)
Definition noSpace (w : jsstring) : Prop :=
  Forall (fun c => isSpace c = false) w.

(** The references that [decodeEntities] replaces after [&amp;]. *)
Definition laterRefs : list (jsstring * jsstring) := skipn 4 namedRefs.

(** What has become of one code unit of a text, escaped by [escapeHtml],
    in the course of [decodeEntities]: the flags tell which of the four
    references are still to be decoded. *)
Definition escapeStage (amp dq lt gt : bool) (c : codeunit) : jsstring :=
  if c =? 38 then (if amp then u "&amp;" else [38])
  else if c =? 60 then (if lt then u "&lt;" else [60])
  else if c =? 62 then (if gt then u "&gt;" else [62])
  else if c =? 34 then (if dq then u "&quot;" else [34])
  else [c].

(** A code unit that [escapeHtml] leaves as it is. *)
Definition isPlain (c : codeunit) : bool :=
  negb ((c =? 38) || (c =? 60) || (c =? 62) || (c =? 34)).

(** One step of reading a decimal number, as [digitsValue] does. *)
Definition digitStep (acc d : N) : N := 10 * acc + (d - 48).

(** ** Vocabulary of the round trip *)

(** No code unit of [s] is [c]. *)
Definition lacks (c : codeunit) (s : jsstring) : bool :=
  forallb (fun x => negb (x =? c)) s.

(** [p] and [b] differ at a position that both have. *)
Fixpoint mismatch (p b : jsstring) : bool :=
  match p, b with
  | x :: p', y :: b' => negb (x =? y) || mismatch p' b'
  | _, _ => false
  end.

(** No match of [p] can start inside [x], whatever follows [x]: at every
    position of [x] the text differs from [p] before [x] ends. *)
Fixpoint clashes (p x : jsstring) : bool :=
  match x with
  | [] => true
  | _ :: t => mismatch p x && clashes p t
  end.

(** The same, as a property: no match of [p] starts inside [x]. *)
Definition inertFor (p x : jsstring) : Prop :=
  forall a b s, x = a ++ b -> b <> [] -> startsWith p (b ++ s) = false.

(** No white space at either end, so that [trim] changes nothing. *)
Definition noEdgeSpace (s : jsstring) : bool :=
  match s with
  | [] => true
  | c :: _ => negb (isSpace c) && negb (isSpace (last s 0))
  end.

(** [decodeEntities] undoes [escapeHtml] on [s]. *)
Definition decodable (s : jsstring) : bool :=
  forallb (fun r => negb (includes (fst r) s)) laterRefs.

(** The five patterns that [parsePost] looks for in a card, and the
    literal text of the card template between the fields. *)
Definition patCat : jsstring := u "data-cat=" ++ [QUOTE].
Definition patImg : jsstring := u "<img src=" ++ [QUOTE].
Definition patAlt : jsstring := QUOTE :: u " alt=" ++ [QUOTE].
Definition patCardDate : jsstring :=
  u "<div class=" ++ q (u "blog-card-date") ++ u ">".
Definition patCardTitle : jsstring :=
  u "<h3 class=" ++ q (u "blog-card-title") ++ u "><a href=" ++ q (u "#")
    ++ u ">".
Definition patCardExcerpt : jsstring :=
  u "<p class=" ++ q (u "blog-card-excerpt") ++ u ">".

Definition cardA1 (rd : jsstring) : jsstring :=
  u "      <div class=" ++ q (u "blog-card reveal " ++ rd) ++ u " ".
Definition cardA2 : jsstring :=
  QUOTE :: u ">" ++ [NL]
  ++ u "        <div class=" ++ q (u "blog-card-img") ++ u ">" ++ [NL]
  ++ u "          ".
Definition cardA3 : jsstring :=
  QUOTE :: u "/>" ++ [NL]
  ++ u "          <div class=" ++ q (u "blog-card-img-overlay") ++ u "></div>" ++ [NL]
  ++ u "          <div class=" ++ q (u "blog-card-img-color") ++ u "></div>" ++ [NL]
  ++ u "          <span class=" ++ q (u "blog-card-cat") ++ u ">".
Definition cardA4 : jsstring :=
  u "</span>" ++ [NL]
  ++ u "        </div>" ++ [NL]
  ++ u "        <div class=" ++ q (u "blog-card-body") ++ u ">" ++ [NL]
  ++ u "          ".
Definition cardA5 : jsstring := [NL] ++ u "          ".
Definition cardA7 : jsstring :=
  [NL] ++ u "          <a href=" ++ q (u "#") ++ u " class="
       ++ q (u "blog-card-link") ++ u ">".
Definition cardA8 : jsstring :=
  u "</a>" ++ [NL] ++ u "        </div>" ++ [NL] ++ u "      </div>".

(** A card without its comment line, as a chain of literal text and
    fields. *)
Definition cardShape (rd cat src alt label date title excerpt link : jsstring)
  : jsstring :=
  cardA1 rd ++ patCat ++ cat ++ cardA2 ++ patImg ++ src ++ patAlt ++ alt
    ++ cardA3 ++ label ++ cardA4 ++ patCardDate ++ date ++ u "</div>"
    ++ cardA5 ++ patCardTitle ++ title ++ u "</a></h3>" ++ cardA5
    ++ patCardExcerpt ++ excerpt ++ u "</p>" ++ cardA7 ++ link ++ cardA8.

(** The comment line of a card. *)
Definition cardComment (index : nat) : jsstring :=
  u "      <!-- Post " ++ numberToString (N.of_nat (index + 1)) ++ u " -->"
    ++ [NL].

(** The reveal class of a card. *)
Definition rdClassOf (index : nat) : jsstring :=
  u "rd" ++ numberToString (N.of_nat ((index mod 6) + 1)).

(** The text before a block is harmless for [parsePost] on a card. *)
Definition inertForCard (pre : jsstring) : Prop :=
  inertFor patCat pre /\ inertFor patImg pre /\ inertFor patCardDate pre
  /\ inertFor patCardTitle pre /\ inertFor patCardExcerpt pre.

(** The date grammar of a language, as [parsePost] chooses it. *)
Definition parseDateOf (lang : Lang) (s : jsstring) : jsstring :=
  match lang with
  | en => parseEnDate s
  | fr => parseFrDate s
  | he => parseHeDate s
  end.

(** The text a slug is made from: the title in English, the alt text
    (or, without one, the title) in the other languages. *)
Definition slugSourceOf (lang : Lang) (p : Build.Post) : jsstring :=
  match lang with
  | en => Build.title p
  | _ => orStr (Build.image_alt p) (Build.title p)
  end.

(** What [parsePost] makes of a rendered post: [src] is the address in the
    fragment, [shown] the date as the fragment shows it. *)
Definition reextracted (lang : Lang) (p : Build.Post) (src shown : jsstring)
           (isFeatured : bool) : Post :=
  {| title := Build.title p;
     slug := slugify (slugSourceOf lang p);
     date := parseDateOf lang (decodeEntities (trim shown));
     category := Build.category p;
     excerpt := Build.excerpt p;
     image := src;
     image_alt := orStr (Build.image_alt p) (Build.title p);
     featured := isFeatured |}.

(** The posts that come back from their fragment: a category that is not
    empty, no double quote and no [<] in the category and in the image
    address, a title and an excerpt without white space at the ends, and
    no text that spells out one of the later references. *)
Definition comesBack (p : Build.Post) : bool :=
  match Build.category p with [] => false | _ => true end
  && lacks QUOTE (Build.category p) && lacks 60 (Build.category p)
  && lacks QUOTE (Build.image p) && lacks 60 (Build.image p)
  && decodable (Build.title p) && noEdgeSpace (Build.title p)
  && decodable (Build.excerpt p) && noEdgeSpace (Build.excerpt p)
  && decodable (orStr (Build.image_alt p) (Build.title p)).

(** The patterns of the featured fragment and its literal text. *)
Definition patFeatDate : jsstring :=
  u "<div class=" ++ q (u "featured-date") ++ u ">".
Definition patFeatTitle : jsstring :=
  u "<h2 class=" ++ q (u "featured-title") ++ u "><a href=" ++ q (u "#")
    ++ u ">".
Definition patFeatExcerpt : jsstring :=
  u "<p class=" ++ q (u "featured-excerpt") ++ u ">".

Definition featComment : jsstring :=
  u "    <!-- Featured Post -->" ++ [NL] ++ u "    ".
Definition featB1 : jsstring := QUOTE :: u ">" ++ [NL].
Definition featI1 : jsstring :=
  u "      <div class=" ++ q (u "featured-img") ++ u ">" ++ [NL]
  ++ u "        ".
Definition featI2 : jsstring :=
  QUOTE :: u "/>" ++ [NL]
  ++ u "        <div class=" ++ q (u "featured-img-overlay") ++ u "></div>" ++ [NL]
  ++ u "      </div>".
Definition featC1 : jsstring :=
  u "      <div class=" ++ q (u "featured-body") ++ u ">" ++ [NL]
  ++ u "        <div class=" ++ q (u "featured-cat") ++ u ">".
Definition featC2 : jsstring := u "</div>" ++ [NL] ++ u "        ".
Definition featC3 : jsstring := [NL] ++ u "        ".
Definition featC4 : jsstring :=
  [NL] ++ u "        <a href=" ++ q (u "#") ++ u " class="
       ++ q (u "featured-link") ++ u ">".
Definition featC5 : jsstring := u "</a>" ++ [NL] ++ u "      </div>".
Definition featTail : jsstring := [NL] ++ u "    </div>".

Definition featImgShape (src alt : jsstring) : jsstring :=
  featI1 ++ patImg ++ src ++ patAlt ++ alt ++ featI2.

Definition featBodyShape (label date title excerpt link : jsstring)
  : jsstring :=
  featC1 ++ label ++ featC2 ++ patFeatDate ++ date ++ u "</div>" ++ featC3
    ++ patFeatTitle ++ title ++ u "</a></h2>" ++ featC3 ++ patFeatExcerpt
    ++ excerpt ++ u "</p>" ++ featC4 ++ link ++ featC5.

(** The featured fragment from its opening marker on. *)
Definition featShape (hebrew : bool)
           (cat src alt label date title excerpt link : jsstring) : jsstring :=
  featuredOpen ++ u " " ++ patCat ++ cat ++ featB1
    ++ (if hebrew
        then featBodyShape label date title excerpt link ++ [NL]
               ++ featImgShape src alt
        else featImgShape src alt ++ [NL]
               ++ featBodyShape label date title excerpt link)
    ++ featTail.

Definition inertForFeatured (pre : jsstring) : Prop :=
  inertFor patCat pre /\ inertFor patImg pre /\ inertFor patFeatDate pre
  /\ inertFor patFeatTitle pre /\ inertFor patFeatExcerpt pre.

(** ** Vocabulary of the page *)

Definition divClose : jsstring := u "</div>".

(** The closing expressions [</div>\s*</div>\s*last] (and, with [two],
    the one that wants two line feeds in the second run of white space)
    fail at the head of [b], and [b] is long enough to tell. *)
Definition closeFails (two : bool) (last b : jsstring) : bool :=
  mismatch divClose b
  || match lit divClose b with
     | Some b1 =>
         let b2 := dropWhile isSpace b1 in
         mismatch divClose b2
         || match lit divClose b2 with
            | Some b3 =>
                match dropWhile isSpace b3 with
                | [] => false
                | b4 =>
                    (two && (count_occ N.eq_dec (takeWhile isSpace b3) NL <? 2)%nat)
                    || mismatch last b4
                end
            | None => false
            end
     | None => false
     end.

(** [f] holds of every piece of [x ++ y] that starts inside [x]. *)
Fixpoint failsAll (f : jsstring -> bool) (x y : jsstring) : bool :=
  match x with
  | [] => true
  | _ :: t => f (x ++ y) && failsAll f t y
  end.

(** The expression [m] matches nowhere inside [x], when [s] follows. *)
Definition deadFor {A} (m : jsstring -> option A) (x s : jsstring) : Prop :=
  forall a b, x = a ++ b -> b <> [] -> m (b ++ s) = None.

Definition deadAlways {A} (m : jsstring -> option A) (x : jsstring) : Prop :=
  forall s, deadFor m x s.

(** No end of [p] but [p] itself can start [y]: a match of [p] that starts
    before [y] ends before [y]. *)
Fixpoint shifts (p y : jsstring) : bool :=
  match p with
  | [] => true
  | _ :: p' =>
      match p' with [] => true | _ => mismatch p' y end && shifts p' y
  end.

(** The text of the page between the fragments. *)
Definition afterFeatured : jsstring := [NL; NL] ++ u "    ".
Definition gridTag : jsstring :=
  u "<div class=" ++ q (u "blog-grid") ++ u ">".
Definition gridOpen : jsstring := ([NL] ++ u "    ") ++ gridTag.
Definition gridIndent : jsstring := u "    ".
Definition gridEnd1 : jsstring := u "</div>" ++ [NL] ++ u "  </div>".
Definition gridEnd2 : jsstring := [NL] ++ u "</section>" ++ [NL; NL].
Definition cardIndent : jsstring := u "      ".
Definition postMarker (index : nat) : jsstring :=
  u "<!-- Post " ++ numberToString (N.of_nat (index + 1)) ++ u " -->".

(** The date of a post as the page of a language shows it. *)
Definition shownDate (fmt : jsstring -> objectLiteral -> Z -> jsstring)
           (lang : Lang) (p : Build.Post) : jsstring :=
  Build.formatDate fmt (Build.date p) (Build.locale (Build.langs lang))
                   (Build.dateOptions (Build.langs lang)).

(** A card without its comment line. *)
Definition cardBody (fmt : jsstring -> objectLiteral -> Z -> jsstring)
           (lang : Lang) (p : Build.Post) (index : nat) : jsstring :=
  let cfg := Build.langs lang in
  cardShape (rdClassOf index) (Build.category p) (Build.cardImgSrc p index)
    (Build.escapeHtml (orStr (Build.image_alt p) (Build.title p)))
    (toString (Build.catLabelOf cfg p)) (shownDate fmt lang p)
    (Build.escapeHtml (Build.title p)) (Build.escapeHtml (Build.excerpt p))
    (Build.linkOf cfg lang
       (if jseqb (Build.category p) (u "podcasts")
        then Build.listenNow cfg else Build.readMore cfg)).

(** The featured fragment from its opening marker on. *)
Definition featuredBody (fmt : jsstring -> objectLiteral -> Z -> jsstring)
           (lang : Lang) (p : Build.Post) : jsstring :=
  let cfg := Build.langs lang in
  featShape (Build.isHe lang) (Build.category p) (Build.featuredImgSrc p)
    (Build.escapeHtml (orStr (Build.image_alt p) (Build.title p)))
    (toString (Build.catLabelOf cfg p)) (shownDate fmt lang p)
    (Build.escapeHtml (Build.title p)) (Build.escapeHtml (Build.excerpt p))
    (Build.linkOf cfg lang
       (if jseqb (Build.category p) (u "podcasts")
        then Build.listenNow cfg else Build.readFull cfg)).

(** The cards with the two line feeds after each of them. *)
Fixpoint cardsText (fmt : jsstring -> objectLiteral -> Z -> jsstring)
         (lang : Lang) (index : nat) (cards : list Build.Post) : jsstring :=
  match cards with
  | [] => []
  | p :: t =>
      cardIndent ++ postMarker index ++ [NL] ++ cardBody fmt lang p index
        ++ [NL; NL] ++ cardsText fmt lang (S index) t
  end.

(** What the migration gets back from the page of a language. *)
Definition featuredBack (fmt : jsstring -> objectLiteral -> Z -> jsstring)
           (lang : Lang) (f : Build.Post) : Post :=
  reextracted lang f (Build.featuredImgSrc f) (shownDate fmt lang f) true.

Definition cardsBack (fmt : jsstring -> objectLiteral -> Z -> jsstring)
           (lang : Lang) (index : nat) (cards : list Build.Post) : list Post :=
  Build.mapi (fun p i =>
                reextracted lang p (Build.cardImgSrc p i)
                            (shownDate fmt lang p) false)
             index cards.

(** The featured fragment between its opening marker and the place where
    the closing expression matches, in pieces that each show that it
    matches nowhere before. *)
Definition featC5a : jsstring := u "</a>" ++ [NL] ++ u "      ".
Definition featI2a : jsstring :=
  QUOTE :: u "/>" ++ [NL]
  ++ u "        <div class=" ++ q (u "featured-img-overlay") ++ u "></div>" ++ [NL]
  ++ u "      ".

Definition featLazy (hebrew : bool)
           (cat src alt label date title excerpt link : jsstring) : jsstring :=
  (u " " ++ patCat) ++ cat
    ++ (if hebrew
        then (featB1 ++ featC1) ++ label ++ (featC2 ++ patFeatDate) ++ date
               ++ (divClose ++ featC3 ++ patFeatTitle) ++ title
               ++ (u "</a></h2>" ++ featC3 ++ patFeatExcerpt) ++ excerpt
               ++ (u "</p>" ++ featC4) ++ link
               ++ (featC5 ++ [NL] ++ featI1 ++ patImg) ++ src ++ patAlt
               ++ alt ++ featI2a
        else (featB1 ++ featI1 ++ patImg) ++ src ++ patAlt ++ alt
               ++ (featI2 ++ [NL] ++ featC1) ++ label
               ++ (featC2 ++ patFeatDate) ++ date
               ++ (divClose ++ featC3 ++ patFeatTitle) ++ title
               ++ (u "</a></h2>" ++ featC3 ++ patFeatExcerpt) ++ excerpt
               ++ (u "</p>" ++ featC4) ++ link ++ featC5a).

(** A card up to the closing tags of its body and of the card itself. *)
Definition cardLazy (rd cat src alt label date title excerpt link : jsstring)
  : jsstring :=
  (u "      <div class=" ++ QUOTE :: u "blog-card reveal ") ++ rd
    ++ (QUOTE :: u " " ++ patCat) ++ cat ++ (cardA2 ++ patImg) ++ src
    ++ patAlt ++ alt ++ cardA3 ++ label ++ (cardA4 ++ patCardDate) ++ date
    ++ (divClose ++ cardA5 ++ patCardTitle) ++ title
    ++ (u "</a></h3>" ++ cardA5 ++ patCardExcerpt) ++ excerpt
    ++ (u "</p>" ++ cardA7) ++ link.

(** The start of the comment line of a card. *)
Definition markerOpen : jsstring := u "<!-- Post ".

(** The fields of a fragment hold no [<]. *)
Definition fieldsPlain (rd cat src alt label date title excerpt link
                        : jsstring) : Prop :=
  lacks 60 rd = true /\ lacks 60 cat = true /\ lacks 60 src = true
  /\ lacks 60 alt = true /\ lacks 60 label = true /\ lacks 60 date = true
  /\ lacks 60 title = true /\ lacks 60 excerpt = true
  /\ lacks 60 link = true.

(** The cards of the page as the grid holds them: without a card, the two
    line feeds after the place of the cards. *)
Definition gridCards (fmt : jsstring -> objectLiteral -> Z -> jsstring)
           (lang : Lang) (cards : list Build.Post) : jsstring :=
  match cards with
  | [] => [NL; NL]
  | _ => cardsText fmt lang 0 cards
  end.

(** The page that the build script makes of a featured post and of
    cards. *)
Definition pageOf (fmt : jsstring -> objectLiteral -> Z -> jsstring)
           (lang : Lang) (f : Build.Post) (cards : list Build.Post)
           (top bottom : jsstring) : jsstring :=
  top ++ featComment ++ featuredBody fmt lang f ++ afterFeatured
      ++ gridComment ++ gridOpen ++ [NL; NL]
      ++ (gridCards fmt lang cards ++ gridIndent)
      ++ gridEnd1 ++ gridEnd2 ++ bottom.

(** The end of a block of the grid: the indentation of the next comment
    line or of the closing tag. *)
Definition blockEnd (cards : list Build.Post) : jsstring :=
  match cards with [] => gridIndent | _ => cardIndent end.

(** The featured post and the cards of the sample posts. *)
Definition sampleFeatured : Build.Post := nth 1 samplePosts samplePost.
Definition sampleCards : list Build.Post :=
  [samplePost; nth 2 samplePosts samplePost].

(** The post with nothing in it. *)
Definition emptyPost (isFeatured : bool) : Post :=
  {| title := []; slug := []; date := []; category := []; excerpt := [];
     image := []; image_alt := []; featured := isFeatured |}.

(** What [escapeYamlQuotes] makes of one code unit. *)
Definition yamlUnit (c : codeunit) : jsstring :=
  if c =? QUOTE then [BACKSLASH; QUOTE] else [c].

(* ================================================================== *)
(** * Properties                                                      *)
(* ================================================================== *)

(** Boolean tests on code units, turned into arithmetic. *)
Ltac unbool :=
  repeat match goal with
  | H : _ && _ = true |- _ => apply andb_true_iff in H; destruct H
  | H : _ || _ = false |- _ => apply orb_false_iff in H; destruct H
  | H : negb _ = true |- _ => apply negb_true_iff in H
  | H : negb _ = false |- _ => apply negb_false_iff in H
  | H : (_ <=? _) = true |- _ => apply N.leb_le in H
  | H : (_ <=? _) = false |- _ => apply N.leb_gt in H
  | H : (_ =? _) = true |- _ => apply N.eqb_eq in H
  | H : (_ =? _) = false |- _ => apply N.eqb_neq in H
  | H : _ || _ = true |- _ => apply orb_true_iff in H; destruct H
  | H : _ && _ = false |- _ => apply andb_false_iff in H; destruct H
  end.

(** Decides a boolean test on a code unit from the arithmetic at hand. *)
Ltac charclass :=
  unfold isWord, isSpace, isUpper, isLower, isDigit, notQuote,
         HYPHEN, UNDERSCORE, QUOTE, AMP, SPACE, NL in *;
  match goal with
  | |- ?b = true =>
      destruct b eqn:?; [reflexivity | exfalso; unbool; lia]
  | |- ?b = false =>
      destruct b eqn:?; [exfalso; unbool; lia | reflexivity]
  | |- _ => unbool; lia
  end.

(** ** Strings *)

Section StringFacts.

Lemma jseqb_eq (a b : jsstring) : jseqb a b = true <-> a = b.
Proof.
  revert b; induction a as [|x a IH]; destruct b as [|y b]; simpl;
    try (split; [discriminate | discriminate]); try tauto.
  rewrite andb_true_iff, N.eqb_eq, IH.
  split; [intros [-> ->]; reflexivity | intros H; inversion H; auto].
Qed.

Lemma startsWith_app (p s : jsstring) : startsWith p (p ++ s) = true.
Proof.
  induction p as [|a p IH]; simpl; [reflexivity|].
  now rewrite N.eqb_refl.
Qed.

Lemma startsWith_split (p s : jsstring) :
  startsWith p s = true -> s = p ++ skipn (length p) s.
Proof.
  revert s; induction p as [|a p IH]; intros [|b s]; simpl; try discriminate;
    try reflexivity.
  intros H; apply andb_true_iff in H as [E H]; apply N.eqb_eq in E; subst.
  now rewrite <- IH.
Qed.

(** A pattern that starts with [c] matches only where [c] stands. *)
Lemma startsWith_head (c : codeunit) (p s : jsstring) :
  startsWith (c :: p) s = true -> exists t, s = c :: t.
Proof.
  destruct s as [|b s]; simpl; [discriminate|].
  intros H; apply andb_true_iff in H as [E _]; apply N.eqb_eq in E; subst.
  now exists s.
Qed.

Lemma includes_here (p s : jsstring) :
  startsWith p s = true -> includes p s = true.
Proof. intros H; destruct s; simpl; now rewrite H. Qed.

Lemma includes_app (p a b : jsstring) : includes p (a ++ p ++ b) = true.
Proof.
  induction a as [|x a IH].
  - cbn [app]; apply includes_here, startsWith_app.
  - simpl; rewrite IH; apply orb_true_r.
Qed.

Lemma includes_split (p s : jsstring) :
  includes p s = true -> exists a b, s = a ++ p ++ b.
Proof.
  induction s as [|x s IH]; simpl.
  - rewrite orb_false_r; intros H; exists [], (skipn (length p) []).
    now apply startsWith_split.
  - intros H; apply orb_true_iff in H as [H|H].
    + exists [], (skipn (length p) (x :: s)); now apply startsWith_split.
    + destruct (IH H) as (a & b & ->); now exists (x :: a), b.
Qed.

(** [replace] leaves alone a text in which the expression matches
    nowhere. *)
Lemma replaceG_no_match (m : matcher) (s : jsstring) :
  (forall a b, s = a ++ b -> m b = None) -> replaceG m 0 s = s.
Proof.
  induction s as [|c s IH]; intros H; simpl; [reflexivity|].
  rewrite (H [] (c :: s) eq_refl).
  f_equal; apply IH; intros a b ->; apply (H (c :: a) b eq_refl).
Qed.

Lemma collapseRuns_none (p : codeunit -> bool) rep b (s : jsstring) :
  Forall (fun c => p c = false) s -> collapseRuns p rep b s = s.
Proof.
  revert b; induction s as [|c s IH]; intros b H; simpl; [reflexivity|].
  inversion H; subst. now rewrite H2, IH.
Qed.

Lemma In_collapseRuns (p : codeunit -> bool) rep b (s : jsstring) c :
  In c (collapseRuns p rep b s) -> In c rep \/ (In c s /\ p c = false).
Proof.
  revert b; induction s as [|x s IH]; intros b; simpl; [tauto|].
  destruct (p x) eqn:E.
  - rewrite in_app_iff; intros [H|H].
    + destruct b; simpl in H; tauto.
    + destruct (IH _ H); tauto.
  - simpl; intros [->|H]; [tauto|]. destruct (IH _ H); tauto.
Qed.

Lemma collapseRuns_keeps (p : codeunit -> bool) rep b (s : jsstring) c :
  In c s -> p c = false -> In c (collapseRuns p rep b s).
Proof.
  revert b; induction s as [|x s IH]; intros b; simpl; [tauto|].
  intros [->|H] E.
  - rewrite E; now left.
  - destruct (p x); [apply in_or_app; right | right]; now apply IH.
Qed.

Lemma firstn_In (n : nat) (s : jsstring) c : In c (firstn n s) -> In c s.
Proof.
  revert s; induction n as [|n IH]; intros [|a s]; simpl; try tauto.
  intros [->|H]; [now left | right; now apply IH].
Qed.

End StringFacts.

(** ** Slugs *)

Section SlugFacts.

Lemma lowerUnit_not_upper (c c' : codeunit) :
  In c' (lowerUnit c) -> isUpper c' = false.
Proof.
  unfold lowerUnit.
  repeat match goal with
         | |- context [if ?b then _ else _] => destruct b eqn:?
         end; simpl; intros H;
    repeat (destruct H as [H|H]; [subst c'; charclass|]); contradiction.
Qed.

Lemma lowerUnit_slugChar (c : codeunit) :
  isSlugChar c = true -> lowerUnit c = [c].
Proof.
  unfold isSlugChar, lowerUnit; intros H.
  repeat match goal with
         | |- context [if ?b then _ else _] => destruct b eqn:?
         end; try reflexivity; exfalso; charclass.
Qed.

Lemma toLowerCase_slug (s : jsstring) :
  Forall (fun c => isSlugChar c = true) s -> toLowerCase s = s.
Proof.
  induction 1 as [|c s H _ IH]; [reflexivity|].
  unfold toLowerCase in *; simpl; now rewrite lowerUnit_slugChar, IH.
Qed.

Lemma toLowerCase_not_upper (x : jsstring) :
  Forall (fun c => isUpper c = false) (toLowerCase x).
Proof.
  apply Forall_forall; intros c H; apply in_flat_map in H as (c0 & _ & H).
  eapply lowerUnit_not_upper; eassumption.
Qed.

Lemma In_dropLastHyphen (s : jsstring) c :
  In c (dropLastHyphen s) -> In c s.
Proof.
  induction s as [|a [|b s] IH]; simpl; [tauto| |].
  - destruct (a =? HYPHEN); simpl; tauto.
  - intros [->|H]; [tauto|]. right; now apply IH.
Qed.

Lemma In_trimEdgeHyphens (s : jsstring) c :
  In c (trimEdgeHyphens s) -> In c s.
Proof.
  destruct s as [|a s]; [tauto|]; unfold trimEdgeHyphens.
  destruct (a =? HYPHEN); intros H; apply In_dropLastHyphen in H; simpl; tauto.
Qed.

Lemma dropLastHyphen_keeps (s : jsstring) c :
  In c s -> c <> HYPHEN -> In c (dropLastHyphen s).
Proof.
  induction s as [|a [|b s] IH]; simpl; [tauto| |].
  - intros [->|[]] N. apply N.eqb_neq in N; rewrite N; now left.
  - intros [->|H] N; [now left|]. right; now apply IH.
Qed.

Lemma trimEdgeHyphens_keeps (s : jsstring) c :
  In c s -> c <> HYPHEN -> In c (trimEdgeHyphens s).
Proof.
  destruct s as [|a s]; [tauto|]; unfold trimEdgeHyphens.
  destruct (a =? HYPHEN) eqn:E; intros H N.
  - apply N.eqb_eq in E; subst a; destruct H as [<-|H]; [congruence|].
    now apply dropLastHyphen_keeps.
  - now apply dropLastHyphen_keeps.
Qed.

(** Every code unit that reaches the end of the pipeline is a slug
    character. *)
Lemma beforeTruncation_chars (x : jsstring) :
  Forall (fun c => isSlugChar c = true) (beforeTruncation x).
Proof.
  apply Forall_forall; intros c H; unfold beforeTruncation in H.
  apply In_trimEdgeHyphens in H.
  apply In_collapseRuns in H as [H|[H _]];
    [destruct H as [<-|[]]; reflexivity|].
  apply In_collapseRuns in H as [H|[H S]];
    [destruct H as [<-|[]]; reflexivity|].
  apply filter_In in H as [H K].
  pose proof (toLowerCase_not_upper x) as U.
  rewrite Forall_forall in U; specialize (U _ H).
  unfold isSlugChar; unfold isWord in K; rewrite U, S in K; simpl in K.
  now rewrite orb_false_r in K.
Qed.

(** *** Hyphens never come in pairs after [/-+/g] *)

Lemma noDoubleHyphen_cons a b (s : jsstring) :
  noDoubleHyphen (a :: b :: s)
  = negb ((a =? HYPHEN) && (b =? HYPHEN)) && noDoubleHyphen (b :: s).
Proof. reflexivity. Qed.

Lemma noDoubleHyphen_tail a (s : jsstring) :
  noDoubleHyphen (a :: s) = true -> noDoubleHyphen s = true.
Proof.
  destruct s as [|b s]; [reflexivity|].
  rewrite noDoubleHyphen_cons; intros H; now apply andb_true_iff in H as [_ H].
Qed.

Lemma collapseHyphens_run (b : bool) (s : jsstring) :
  noDoubleHyphen (collapseRuns (fun c => c =? HYPHEN) [HYPHEN] b s) = true
  /\ (b = true ->
      ~ startsWithHyphen (collapseRuns (fun c => c =? HYPHEN) [HYPHEN] b s)).
Proof.
  revert b; induction s as [|c s IH]; intros b.
  - split; [reflexivity | intros _ (t & E); discriminate].
  - cbn [collapseRuns]; destruct (c =? HYPHEN) eqn:E.
    + destruct (IH true) as [D S]; specialize (S eq_refl).
      destruct b; cbn [app].
      * split; [exact D | intros _; exact S].
      * split; [|discriminate].
        destruct (collapseRuns _ _ true s) as [|y r] eqn:R; [reflexivity|].
        rewrite noDoubleHyphen_cons, D, andb_true_r.
        apply negb_true_iff, andb_false_iff; right; apply N.eqb_neq.
        intros ->; apply S; now exists r.
    + destruct (IH false) as [D _]; split.
      * destruct (collapseRuns _ _ false s) as [|y r] eqn:R; [reflexivity|].
        now rewrite noDoubleHyphen_cons, E, D.
      * intros _ (t & K); inversion K; subst c; discriminate.
Qed.

Lemma collapseHyphens_fixed (b : bool) (s : jsstring) :
  noDoubleHyphen s = true -> (b = true -> ~ startsWithHyphen s) ->
  collapseRuns (fun c => c =? HYPHEN) [HYPHEN] b s = s.
Proof.
  revert b; induction s as [|c s IH]; intros b D S; [reflexivity|].
  cbn [collapseRuns]; destruct (c =? HYPHEN) eqn:E.
  - apply N.eqb_eq in E; subst c.
    destruct b; [exfalso; apply S; [reflexivity | now exists s]|].
    cbn [app]; f_equal; apply IH; [eapply noDoubleHyphen_tail; eassumption|].
    intros _ (t & ->); rewrite noDoubleHyphen_cons in D.
    rewrite !N.eqb_refl in D; discriminate.
  - f_equal; apply IH; [eapply noDoubleHyphen_tail; eassumption|discriminate].
Qed.

Lemma noDoubleHyphen_dropLast (s : jsstring) :
  noDoubleHyphen s = true -> noDoubleHyphen (dropLastHyphen s) = true.
Proof.
  induction s as [|a [|b s] IH]; intros D; [reflexivity| |].
  - simpl; destruct (a =? HYPHEN); reflexivity.
  - pose proof (noDoubleHyphen_tail _ _ D) as Dt; specialize (IH Dt).
    change (dropLastHyphen (a :: b :: s)) with (a :: dropLastHyphen (b :: s)).
    destruct (dropLastHyphen (b :: s)) as [|y r] eqn:R; [reflexivity|].
    rewrite noDoubleHyphen_cons, IH, andb_true_r.
    assert (y = b) as ->.
    { destruct s as [|c s]; simpl in R.
      - destruct (b =? HYPHEN); inversion R; reflexivity.
      - inversion R; reflexivity. }
    rewrite noDoubleHyphen_cons in D; now apply andb_true_iff in D as [D _].
Qed.

Lemma noDoubleHyphen_firstn (n : nat) (s : jsstring) :
  noDoubleHyphen s = true -> noDoubleHyphen (firstn n s) = true.
Proof.
  revert s; induction n as [|n IH]; intros [|a s] D; try reflexivity.
  pose proof (noDoubleHyphen_tail _ _ D) as Dt; specialize (IH _ Dt).
  cbn [firstn]; destruct s as [|b s]; [destruct n; reflexivity|].
  destruct n as [|n]; [reflexivity|].
  cbn [firstn] in *; rewrite noDoubleHyphen_cons in *.
  rewrite IH, andb_true_r; now apply andb_true_iff in D as [D _].
Qed.

Lemma dropLastHyphen_head (s : jsstring) :
  ~ startsWithHyphen s -> ~ startsWithHyphen (dropLastHyphen s).
Proof.
  destruct s as [|a [|b s]]; intros S (t & E); simpl in E; try discriminate.
  - destruct (a =? HYPHEN) eqn:K; [discriminate|].
    inversion E; subst a; discriminate.
  - inversion E; subst a; apply S; now eexists.
Qed.

Lemma dropLastHyphen_last (s : jsstring) :
  noDoubleHyphen s = true -> ~ endsWithHyphen (dropLastHyphen s).
Proof.
  induction s as [|a [|b s] IH]; intros D (t & E).
  - destruct t; discriminate.
  - simpl in E; destruct (a =? HYPHEN) eqn:K.
    + destruct t; discriminate.
    + destruct t as [|y [|z t]]; inversion E; subst; discriminate.
  - change (dropLastHyphen (a :: b :: s)) with (a :: dropLastHyphen (b :: s))
      in E.
    destruct t as [|y t]; cbn [app] in E.
    + (* the one unit left is [a]; then [b :: s] was a lone hyphen *)
      inversion E as [[Ea Er]]; subst a.
      destruct s as [|c s]; simpl in Er.
      * destruct (b =? HYPHEN) eqn:K; [|discriminate].
        rewrite noDoubleHyphen_cons in D; rewrite K, N.eqb_refl in D; discriminate.
      * discriminate.
    + inversion E as [[Ea Er]].
      apply IH; [eapply noDoubleHyphen_tail; eassumption | now exists t].
Qed.

Lemma dropLastHyphen_fixed (s : jsstring) :
  ~ endsWithHyphen s -> dropLastHyphen s = s.
Proof.
  induction s as [|a [|b s] IH]; intros L; [reflexivity| |].
  - simpl; destruct (a =? HYPHEN) eqn:K; [|reflexivity].
    apply N.eqb_eq in K; subst a; exfalso; apply L; now exists [].
  - change (dropLastHyphen (a :: b :: s)) with (a :: dropLastHyphen (b :: s)).
    f_equal; apply IH; intros (t & E); apply L; exists (a :: t).
    now rewrite E.
Qed.

Lemma trimEdgeHyphens_edges (s : jsstring) :
  noDoubleHyphen s = true ->
  noDoubleHyphen (trimEdgeHyphens s) = true
  /\ ~ startsWithHyphen (trimEdgeHyphens s)
  /\ ~ endsWithHyphen (trimEdgeHyphens s).
Proof.
  destruct s as [|a s]; intros D.
  - repeat split; intros (t & E); [discriminate | destruct t; discriminate].
  - pose proof (noDoubleHyphen_tail _ _ D) as Dt.
    unfold trimEdgeHyphens; destruct (a =? HYPHEN) eqn:K.
    + repeat split;
        [now apply noDoubleHyphen_dropLast | | now apply dropLastHyphen_last].
      apply dropLastHyphen_head; intros (t & ->).
      rewrite noDoubleHyphen_cons in D; rewrite K, N.eqb_refl in D; discriminate.
    + repeat split;
        [now apply noDoubleHyphen_dropLast | | now apply dropLastHyphen_last].
      apply dropLastHyphen_head; intros (t & E); inversion E; subst a.
      discriminate.
Qed.

Lemma trimEdgeHyphens_fixed (s : jsstring) :
  ~ startsWithHyphen s -> ~ endsWithHyphen s -> trimEdgeHyphens s = s.
Proof.
  destruct s as [|a s]; intros S L; [reflexivity|].
  unfold trimEdgeHyphens; destruct (a =? HYPHEN) eqn:K.
  - apply N.eqb_eq in K; subst a; exfalso; apply S; now exists s.
  - now apply dropLastHyphen_fixed.
Qed.

Lemma beforeTruncation_edges (x : jsstring) :
  noDoubleHyphen (beforeTruncation x) = true
  /\ ~ startsWithHyphen (beforeTruncation x)
  /\ ~ endsWithHyphen (beforeTruncation x).
Proof.
  apply trimEdgeHyphens_edges, (collapseHyphens_run false).
Qed.

Lemma firstn_head (n : nat) (s : jsstring) :
  ~ startsWithHyphen s -> ~ startsWithHyphen (firstn n s).
Proof.
  intros S (t & E); apply S.
  destruct n, s as [|a s]; try discriminate.
  inversion E; subst a; now exists s.
Qed.

End SlugFacts.

Section SlugEmptiness.

Lemma word_not_space (c : codeunit) : isWord c = true -> isSpace c = false.
Proof. intros H; charclass. Qed.

Lemma word_not_hyphen (c : codeunit) : isWord c = true -> c <> HYPHEN.
Proof. intros H; charclass. Qed.

Lemma all_hyphens_collapse (s : jsstring) :
  Forall (fun c => c = HYPHEN) s ->
  collapseRuns (fun c => c =? HYPHEN) [HYPHEN] true s = []
  /\ (collapseRuns (fun c => c =? HYPHEN) [HYPHEN] false s = []
      \/ collapseRuns (fun c => c =? HYPHEN) [HYPHEN] false s = [HYPHEN]).
Proof.
  induction 1 as [|c s -> _ [IH _]]; [split; [|left]; reflexivity|].
  cbn [collapseRuns]; rewrite N.eqb_refl, IH; split; [|right]; reflexivity.
Qed.

(** The slug is empty exactly when lowercasing leaves no word character. *)
Lemma beforeTruncation_empty (x : jsstring) :
  beforeTruncation x = []
  <-> Forall (fun c => isWord c = false) (toLowerCase x).
Proof.
  split.
  - intros E; apply Forall_forall; intros c H.
    destruct (isWord c) eqn:W; [exfalso | reflexivity].
    assert (In c (beforeTruncation x)) as K; [|rewrite E in K; exact K].
    apply trimEdgeHyphens_keeps; [|now apply word_not_hyphen].
    apply collapseRuns_keeps;
      [|apply N.eqb_neq; now apply word_not_hyphen].
    apply collapseRuns_keeps; [|now apply word_not_space].
    apply filter_In; split; [exact H | now rewrite W].
  - intros F; unfold beforeTruncation.
    assert (Forall (fun c => c = HYPHEN)
                   (spacesToHyphen (stripNonSlug (toLowerCase x)))) as A.
    { apply Forall_forall; intros c H.
      apply In_collapseRuns in H as [[<-|[]]|[H S]]; [reflexivity|].
      apply filter_In in H as [H K].
      rewrite Forall_forall in F; rewrite (F _ H), S in K; simpl in K.
      now apply N.eqb_eq in K. }
    destruct (all_hyphens_collapse _ A) as [_ [E|E]];
      unfold collapseHyphens; rewrite E; reflexivity.
Qed.

Lemma firstn_nil_iff (n : nat) (s : jsstring) :
  firstn (S n) s = [] <-> s = [].
Proof. destruct s; simpl; split; congruence. Qed.

End SlugEmptiness.

Section UnderscoreCount.

Lemma underscores_app (a b : jsstring) :
  underscores (a ++ b) = (underscores a + underscores b)%nat.
Proof. apply count_occ_app. Qed.


Lemma count_lowerUnit (c : codeunit) : underscores (lowerUnit c) = underscores [c].
Proof.
  unfold underscores, lowerUnit.
  repeat match goal with
         | |- context [if ?b then _ else _] => destruct b eqn:?
         end; simpl;
    repeat match goal with
           | |- context [N.eq_dec ?a ?b] => destruct (N.eq_dec a b)
           end; try reflexivity; exfalso; charclass.
Qed.

Lemma count_toLowerCase (x : jsstring) : underscores (toLowerCase x) = underscores x.
Proof.
  induction x as [|c x IH]; [reflexivity|].
  change (toLowerCase (c :: x)) with (lowerUnit c ++ toLowerCase x).
  change (c :: x) with ([c] ++ x).
  rewrite !underscores_app, count_lowerUnit, IH; reflexivity.
Qed.

Lemma count_filter (f : codeunit -> bool) (s : jsstring) :
  f UNDERSCORE = true -> underscores (filter f s) = underscores s.
Proof.
  intros F; unfold underscores; induction s as [|c s IH]; [reflexivity|].
  simpl; destruct (f c) eqn:E; simpl; destruct (N.eq_dec c UNDERSCORE);
    try congruence.
Qed.

Lemma count_collapseRuns (p : codeunit -> bool) rep b (s : jsstring) :
  p UNDERSCORE = false -> underscores rep = O ->
  underscores (collapseRuns p rep b s) = underscores s.
Proof.
  intros P R; revert b; induction s as [|c s IH]; intros b; [reflexivity|].
  cbn [collapseRuns]; destruct (p c) eqn:E.
  - assert (c <> UNDERSCORE) as Nc by congruence.
    rewrite underscores_app, IH; unfold underscores in *; simpl.
    destruct (N.eq_dec c UNDERSCORE); [contradiction|].
    destruct b; [reflexivity | now rewrite R].
  - unfold underscores in *; simpl.
    destruct (N.eq_dec c UNDERSCORE); now rewrite IH.
Qed.

Lemma count_dropLastHyphen (s : jsstring) :
  underscores (dropLastHyphen s) = underscores s.
Proof.
  induction s as [|a [|b s] IH]; [reflexivity| |].
  - simpl; destruct (a =? HYPHEN) eqn:E; [|reflexivity].
    apply N.eqb_eq in E; subst a; reflexivity.
  - change (dropLastHyphen (a :: b :: s)) with ([a] ++ dropLastHyphen (b :: s)).
    change (a :: b :: s) with ([a] ++ b :: s).
    now rewrite !underscores_app, IH.
Qed.

Lemma count_beforeTruncation (x : jsstring) :
  underscores (beforeTruncation x) = underscores x.
Proof.
  unfold beforeTruncation, trimEdgeHyphens.
  transitivity (underscores (collapseHyphens
                         (spacesToHyphen (stripNonSlug (toLowerCase x))))).
  - destruct (collapseHyphens _) as [|a s]; [reflexivity|].
    destruct (a =? HYPHEN) eqn:E; rewrite count_dropLastHyphen;
      [|reflexivity].
    apply N.eqb_eq in E; subst a; reflexivity.
  - unfold collapseHyphens, spacesToHyphen, stripNonSlug.
    rewrite !count_collapseRuns, count_filter, count_toLowerCase;
      reflexivity.
Qed.

End UnderscoreCount.

(** ** What [slugify] returns *)

Section SlugClaims.

(** C2, as the specification states it, fails: a text without any ASCII
    word character has the empty slug, which breaks the invariant of a
    non-empty slug. *)
Lemma slugify_invariant_fails : ~ slugInvariant (slugify shalom).
Proof. intros (H & _); apply H; reflexivity. Qed.

Lemma slugify_chars (x : jsstring) :
  Forall (fun c => isSlugChar c = true) (slugify x).
Proof.
  apply Forall_forall; intros c H; apply firstn_In in H.
  pose proof (beforeTruncation_chars x) as F; rewrite Forall_forall in F.
  now apply F.
Qed.

(** C2, amended: [slugify] runs its six steps in the order lowercase,
    strip, white space to hyphen, collapse hyphens, trim the edge hyphens,
    truncate to 60; its result is empty exactly when the lowercased text
    has no word character, holds no uppercase letter, has at most 60 code
    units, never starts with a hyphen, and does not end with one when
    nothing was cut off. *)
Theorem slugify_shape (x : jsstring) :
  slugify x
  = substring0 60
      (trimEdgeHyphens
         (collapseHyphens (spacesToHyphen (stripNonSlug (toLowerCase x)))))
  /\ (slugify x = [] <-> Forall (fun c => isWord c = false) (toLowerCase x))
  /\ Forall (fun c => isUpper c = false) (slugify x)
  /\ (length (slugify x) <= 60)%nat
  /\ ~ startsWithHyphen (slugify x)
  /\ ((length (beforeTruncation x) <= 60)%nat -> ~ endsWithHyphen (slugify x)).
Proof.
  change (slugify x) with (firstn 60 (beforeTruncation x)).
  destruct (beforeTruncation_edges x) as (D & S & L).
  repeat split.
  - intros E; apply firstn_nil_iff in E; now apply beforeTruncation_empty.
  - intros F; apply firstn_nil_iff; now apply beforeTruncation_empty.
  - eapply Forall_impl; [|apply slugify_chars].
    intros c F; unfold isSlugChar in F; charclass.
  - apply firstn_le_length.
  - now apply firstn_head.
  - intros B; now rewrite firstn_all2.
Qed.

Lemma slugify_shape_witness :
  ~ endsWithHyphen (slugify (u "Tel Aviv's Market: Up 12%!")).
Proof.
  apply (slugify_shape (u "Tel Aviv's Market: Up 12%!")).
  vm_compute; lia.
Defined.

(** C10: a slug holds only ASCII lowercase letters, digits, underscores
    and hyphens; the underscore is a word character, and every underscore
    of the text is still there when the truncation takes place. *)
Theorem slugify_alphabet (x : jsstring) :
  Forall (fun c => isSlugChar c = true) (slugify x)
  /\ isWord UNDERSCORE = true
  /\ slugify x = substring0 60 (beforeTruncation x)
  /\ underscores (beforeTruncation x) = underscores x.
Proof.
  repeat split; [apply slugify_chars | apply count_beforeTruncation].
Qed.

Example slugify_snake_case :
  slugify (u "snake_case Title") = u "snake_case-title".
Proof. reflexivity. Qed.

(** A slug that does not end with a hyphen is a fixed point. *)
Lemma slugify_fixed (x : jsstring) :
  ~ endsWithHyphen (slugify x) -> slugify (slugify x) = slugify x.
Proof.
  intros L.
  pose proof (slugify_chars x) as F.
  assert (noDoubleHyphen (slugify x) = true) as D
    by apply noDoubleHyphen_firstn, beforeTruncation_edges.
  assert (~ startsWithHyphen (slugify x)) as S
    by apply firstn_head, beforeTruncation_edges.
  assert (length (slugify x) <= 60)%nat as B by apply firstn_le_length.
  set (s := slugify x) in *; unfold slugify at 1.
  rewrite (toLowerCase_slug s F).
  assert (stripNonSlug s = s) as ->.
  { unfold stripNonSlug; apply forallb_filter_id, forallb_forall.
    intros c H; rewrite Forall_forall in F; specialize (F _ H).
    unfold isSlugChar in F; charclass. }
  assert (spacesToHyphen s = s) as ->.
  { apply collapseRuns_none; eapply Forall_impl; [|exact F].
    intros c H; unfold isSlugChar in H; charclass. }
  assert (collapseHyphens s = s) as ->
    by (apply collapseHyphens_fixed; [exact D | discriminate]).
  rewrite (trimEdgeHyphens_fixed s S L).
  now apply firstn_all2.
Qed.

(** C3 fails on the code: cutting a slug at 60 code units can leave a
    hyphen at its end, which a second pass then trims. Here a title of 59
    letters, a space and one more letter. *)
Theorem slugify_twice_differs :
  let x := repeat 97 59 ++ u " b" in
  slugify x = repeat 97 59 ++ [HYPHEN]
  /\ slugify (slugify x) = repeat 97 59
  /\ slugify (slugify x) <> slugify x.
Proof. vm_compute; repeat split; discriminate. Qed.

End SlugClaims.

(** ** Entities *)

Section EntityClaims.

(** Every reference starts with an ampersand. *)
Lemma numericRef_head (s : jsstring) p :
  numericRef s = Some p -> exists t, s = AMP :: t.
Proof.
  destruct s as [|c s]; [discriminate|]; unfold numericRef.
  destruct (N.eq_dec c 38) as [->|Nc]; [now exists s|].
  destruct c as [|c]; [discriminate|].
  do 6 (destruct c as [c|c|]; try discriminate); congruence.
Qed.

Lemma namedRefs_head :
  Forall (fun r => exists p, fst r = AMP :: p) namedRefs.
Proof. repeat constructor; eexists; reflexivity. Qed.

Lemma suffix_In (a b s : jsstring) c t :
  s = a ++ b -> b = c :: t -> In c s.
Proof. intros -> ->; apply in_or_app; right; now left. Qed.

Lemma numeric_pass_fixed (s : jsstring) :
  ~ In AMP s -> replaceAll numericRef s = s.
Proof.
  intros A; apply replaceG_no_match; intros a b E.
  destruct (numericRef b) as [p|] eqn:M; [exfalso | reflexivity].
  destruct (numericRef_head _ _ M) as (t & K).
  eapply A, suffix_In; eassumption.
Qed.

Lemma named_pass_fixed (pat rep s : jsstring) :
  (exists p, pat = AMP :: p) -> ~ In AMP s ->
  replaceAll (literal pat rep) s = s.
Proof.
  intros (p & ->) A; apply replaceG_no_match; intros a b E.
  unfold literal; destruct (startsWith (AMP :: p) b) eqn:M; [exfalso|reflexivity].
  destruct (startsWith_head _ _ _ M) as (t & K).
  eapply A, suffix_In; eassumption.
Qed.

(** A text without an ampersand holds no reference, and decoding leaves it
    as it is. *)
Lemma decodeEntities_no_amp (s : jsstring) :
  ~ In AMP s -> decodeEntities s = s.
Proof.
  intros A; unfold decodeEntities; rewrite (numeric_pass_fixed s A).
  pose proof namedRefs_head as F.
  induction F as [|[pat rep] refs H _ IH]; [reflexivity|].
  cbn [fold_left]; now rewrite (named_pass_fixed pat rep s H A).
Qed.

(** C4, as the specification states it, fails: one pass turns the
    reference to an ampersand into an ampersand that heads a new reference,
    which a second pass decodes. *)
Lemma decodeEntities_not_idempotent :
  decodeEntities (u "&amp;amp;") = u "&amp;"
  /\ decodeEntities (decodeEntities (u "&amp;amp;")) = u "&"
  /\ decodeEntities (decodeEntities (u "&amp;amp;"))
     <> decodeEntities (u "&amp;amp;").
Proof. vm_compute; repeat split; discriminate. Qed.

(** Every match fits into the text and is longer than what replaces
    it. *)
Definition shortens (m : matcher) : Prop :=
  forall s len rep,
    m s = Some (len, rep) -> (length rep < len <= length s)%nat.

Lemma numericRef_shortens : shortens numericRef.
Proof.
  intros s len rep; unfold numericRef.
  destruct s as [|c1 [|c2 t]]; try discriminate.
  - destruct c1 as [|p]; [discriminate|].
    do 6 (destruct p as [p|p|]; try discriminate).
  - destruct (N.eq_dec c1 38) as [->|N1];
      [|destruct c1 as [|p]; [discriminate|];
        do 6 (destruct p as [p|p|]; try discriminate); congruence].
    destruct (N.eq_dec c2 35) as [->|N2];
      [|destruct c2 as [|p]; [discriminate|];
        do 6 (destruct p as [p|p|]; try discriminate); congruence].
    cbv zeta.
    destruct (takeWhile isDigit t) as [|d ds] eqn:T; [discriminate|].
    destruct (skipn (length (d :: ds)) t) as [|c r] eqn:K; [discriminate|].
    destruct (N.eq_dec c 59) as [->|N3];
      [|destruct c as [|p]; [discriminate|];
        do 6 (destruct p as [p|p|]; try discriminate); congruence].
    intros [= <- <-].
    assert (length (skipn (length (d :: ds)) t) = S (length r)) as L
      by now rewrite K.
    rewrite length_skipn in L; cbn [length] in *; lia.
Qed.

Lemma literal_shortens (pat rep : jsstring) :
  (length rep < length pat)%nat -> shortens (literal pat rep).
Proof.
  intros L s len rep'; unfold literal.
  destruct (startsWith pat s) eqn:W; [|discriminate].
  intros [= <- <-]; split; [exact L|].
  rewrite (startsWith_split _ _ W), length_app; lia.
Qed.

Lemma namedRefs_shorten :
  Forall (fun r => (length (snd r) < length (fst r))%nat) namedRefs.
Proof. repeat constructor; vm_compute; lia. Qed.

(** A pass never makes the text longer. *)
Lemma replaceG_length (m : matcher) (s : jsstring) (k : nat) :
  shortens m -> (length (replaceG m k s) <= length s - k)%nat.
Proof.
  intros F; revert k; induction s as [|c t IH]; intros k; [simpl; lia|].
  destruct k as [|k]; cbn [replaceG].
  - destruct (m (c :: t)) as [[len rep]|] eqn:M.
    + destruct (F _ _ _ M) as [L1 L2]; cbn [length] in *.
      rewrite length_app; specialize (IH (pred len)); lia.
    + specialize (IH 0%nat); cbn [length]; lia.
  - specialize (IH k); cbn [length]; lia.
Qed.

(** A pass over a text in which its expression matches makes the text
    shorter. *)
Lemma replaceAll_shrinks (m : matcher) (s : jsstring) :
  shortens m -> matchesIn m s = true ->
  (length (replaceAll m s) < length s)%nat.
Proof.
  intros F; unfold replaceAll; induction s as [|c t IH]; cbn [matchesIn].
  - destruct (m []) as [[len rep]|] eqn:M; [|discriminate].
    destruct (F _ _ _ M); cbn [length] in *; lia.
  - cbn [replaceG]; destruct (m (c :: t)) as [[len rep]|] eqn:M; intros H.
    + destruct (F _ _ _ M) as [L1 L2]; cbn [length] in *.
      rewrite length_app.
      pose proof (replaceG_length m t (pred len) F); lia.
    + specialize (IH H); cbn [length]; lia.
Qed.

(** A pass over a text in which its expression matches nowhere changes
    nothing. *)
Lemma replaceAll_fixed (m : matcher) (s : jsstring) :
  matchesIn m s = false -> replaceAll m s = s.
Proof.
  unfold replaceAll; induction s as [|c t IH]; cbn [matchesIn replaceG];
    [reflexivity|].
  destruct (m (c :: t)); [discriminate|].
  intros H; now rewrite IH.
Qed.

Lemma matchesIn_literal (pat rep s : jsstring) :
  matchesIn (literal pat rep) s = includes pat s.
Proof.
  induction s as [|c t IH]; cbn [matchesIn includes]; unfold literal at 1;
    destruct (startsWith pat _); try reflexivity.
  exact IH.
Qed.

(** The named passes, one after the other. *)
Lemma named_passes (refs : list (jsstring * jsstring)) :
  Forall (fun r => (length (snd r) < length (fst r))%nat) refs ->
  forall s,
    let out :=
      fold_left (fun s '(pat, rep) => replaceAll (literal pat rep) s) refs s
    in
    (length out <= length s)%nat
    /\ (existsb (fun r => includes (fst r) s) refs = true ->
        (length out < length s)%nat)
    /\ (existsb (fun r => includes (fst r) s) refs = false -> out = s).
Proof.
  induction 1 as [|[pat rep] refs L _ IH]; intros s; cbn [fold_left existsb].
  - repeat split; [lia | discriminate].
  - cbn [fst snd] in *.
    destruct (IH (replaceAll (literal pat rep) s)) as (I1 & _ & _).
    pose proof (replaceG_length _ s 0 (literal_shortens pat rep L)) as P.
    fold (replaceAll (literal pat rep) s) in P.
    destruct (includes pat s) eqn:E; cbn [orb].
    + pose proof (replaceAll_shrinks _ s (literal_shortens pat rep L)) as Q.
      rewrite matchesIn_literal in Q; specialize (Q E).
      repeat split; [lia | lia | discriminate].
    + rewrite replaceAll_fixed by now rewrite matchesIn_literal.
      exact (IH s).
Qed.

(** The texts that decoding leaves as they are, are the texts without
    reference syntax. *)
Lemma decodeEntities_fixed (s : jsstring) :
  hasReference s = false <-> decodeEntities s = s.
Proof.
  unfold hasReference, decodeEntities.
  destruct (named_passes namedRefs namedRefs_shorten s) as (_ & N2 & N3).
  destruct (named_passes namedRefs namedRefs_shorten
                         (replaceAll numericRef s)) as (M1 & _ & _).
  cbv zeta in *.
  destruct (matchesIn numericRef s) eqn:E; cbn [orb].
  - pose proof (replaceAll_shrinks _ s numericRef_shortens E) as Q.
    split; [discriminate|].
    intros K; rewrite K in M1; lia.
  - rewrite (replaceAll_fixed _ _ E).
    destruct (existsb _ namedRefs) eqn:X.
    + split; [discriminate|].
      intros K; specialize (N2 eq_refl); rewrite K in N2; lia.
    + split; [intros _; now apply N3 | reflexivity].
Qed.

(** C4, amended: decoding twice is the same as decoding once exactly on
    the texts after whose first pass no reference syntax remains, whether
    or not an ampersand remains. *)
Theorem decodeEntities_idempotent (x : jsstring) :
  hasReference (decodeEntities x) = false
  <-> decodeEntities (decodeEntities x) = decodeEntities x.
Proof. apply decodeEntities_fixed. Qed.

Lemma decodeEntities_idempotent_witness :
  let x := u "AT&amp;T &mdash; Tom & Jerry &#1513;&lt;" in
  hasReference (decodeEntities x) = false
  /\ In AMP (decodeEntities x)
  /\ decodeEntities (decodeEntities x) = decodeEntities x.
Proof.
  assert (hasReference
            (decodeEntities (u "AT&amp;T &mdash; Tom & Jerry &#1513;&lt;"))
          = false) as R by (vm_compute; reflexivity).
  split; [exact R|].
  split; [vm_compute; tauto|].
  exact (proj1 (decodeEntities_idempotent _) R).
Defined.

End EntityClaims.

(** ** Dates *)

Section DateClaims.

(** The part of C7 on texts that do not split into three tokens: the
    English grammar hands its argument back, which [parsePost] has decoded
    before the call; the French and Hebrew grammars hand back the decoded,
    trimmed text. *)
Lemma parse_not_three_tokens (dateStr : jsstring) :
  (length (splitRuns isSpace [] false (removeFirst COMMA (trim dateStr))) <> 3%nat
   -> parseEnDate dateStr = dateStr)
  /\ (length (splitChar SPACE [] (trim (decodeEntities dateStr))) <> 3%nat
      -> parseFrDate dateStr = trim (decodeEntities dateStr)
         /\ parseHeDate dateStr = trim (decodeEntities dateStr)).
Proof.
  unfold parseEnDate, parseFrDate, parseHeDate; split.
  - destruct (splitRuns _ _ _ _) as [|a [|b [|c [|d l]]]]; simpl; intros H;
      try reflexivity; congruence.
  - destruct (splitChar _ _ _) as [|a [|b [|c [|d l]]]]; simpl; intros H;
      try (split; reflexivity); congruence.
Qed.

(** The part of C7 on month names that holds: a month token that is
    neither a key of the table nor the name of a property inherited from
    [Object.prototype] gives the month 01. *)
Lemma month_default (table : objectLiteral) (token : jsstring) :
  assoc token table = None ->
  assoc token Object_prototype = None ->
  toString (orElse (getProp table token) (u "01")) = u "01".
Proof. intros T P; unfold getProp; now rewrite T, P. Qed.

Lemma parseHeDate_default (dateStr p0 p1 p2 : jsstring) :
  splitChar SPACE [] (trim (decodeEntities dateStr)) = [p0; p1; p2] ->
  assoc p1 heMonths = None ->
  assoc p1 Object_prototype = None ->
  parseHeDate dateStr = p2 ++ u "-" ++ u "01" ++ u "-" ++ padStart2 p0.
Proof.
  intros S T P; unfold parseHeDate; rewrite S.
  now rewrite (month_default _ _ T P).
Qed.

Lemma parseFrDate_default (dateStr p0 p1 p2 : jsstring) :
  splitChar SPACE [] (trim (decodeEntities dateStr)) = [p0; p1; p2] ->
  assoc (toLowerCase p1) frMonths = None ->
  assoc (toLowerCase p1) Object_prototype = None ->
  parseFrDate dateStr = p2 ++ u "-" ++ u "01" ++ u "-" ++ padStart2 p0.
Proof.
  intros S T P; unfold parseFrDate; rewrite S.
  now rewrite (month_default _ _ T P).
Qed.

Lemma parseEnDate_default (dateStr p0 p1 p2 : jsstring) :
  splitRuns isSpace [] false (removeFirst COMMA (trim dateStr)) = [p0; p1; p2] ->
  assoc (toLowerCase p0) enMonths = None ->
  assoc (toLowerCase p0) Object_prototype = None ->
  parseEnDate dateStr = p2 ++ u "-" ++ u "01" ++ u "-" ++ padStart2 p1.
Proof.
  intros S T P; unfold parseEnDate; rewrite S.
  now rewrite (month_default _ _ T P).
Qed.

(** The dates of the specification's examples. *)
Example parse_examples :
  parseEnDate (u "January 23, 2025") = u "2025-01-23"
  /\ parseFrDate (u "23 janvier 2025") = u "2025-01-23"
  /\ parseHeDate (u "23 " ++ [1497; 1504; 1493; 1488; 1512] ++ u " 2025")
     = u "2025-01-23"
  /\ parseEnDate (u "Smarch 5, 2025") = u "2025-01-05".
Proof. vm_compute; repeat split. Qed.

(** C7 fails on the code: the month tables are object literals, and the
    lookup [table[token] || '01'] also finds what every object inherits.
    The tokens below are in no month table, and the month is not 01. *)
Theorem month_lookup_reaches_prototype :
  assoc (u "__proto__") enMonths = None
  /\ assoc (u "__proto__") frMonths = None
  /\ assoc (u "constructor") heMonths = None
  /\ parseEnDate (u "__proto__ 5, 2025") = u "2025-[object Object]-05"
  /\ parseFrDate (u "5 __proto__ 2025") = u "2025-[object Object]-05"
  /\ parseHeDate (u "5 constructor 2025")
     = u "2025-function Object() { [native code] }-05".
Proof. vm_compute; repeat split. Qed.

End DateClaims.

(** ** The migration run *)

Section RunClaims.

Lemma search_none {A} (m : jsstring -> option A) (s : jsstring) :
  (forall a b, s = a ++ b -> m b = None) -> search m s = None.
Proof.
  induction s as [|c s IH]; intros H; simpl.
  - now rewrite (H [] [] eq_refl).
  - rewrite (H [] (c :: s) eq_refl).
    apply IH; intros a b ->; apply (H (c :: a) b eq_refl).
Qed.

Lemma not_included (p s : jsstring) :
  includes p s = false -> forall a b, s = a ++ b -> startsWith p b = false.
Proof.
  intros I a b ->; destruct (startsWith p b) eqn:E; [|reflexivity].
  rewrite (startsWith_split _ _ E), includes_app in I; discriminate.
Qed.

(** Without the opening marker there is no featured block. *)
Lemma extractFeatured_absent (html : jsstring) (lang : Lang) :
  includes featuredOpen html = false -> extractFeatured html lang = None.
Proof.
  intros I; unfold extractFeatured; rewrite search_none; [reflexivity|].
  intros a b E; unfold featuredRe, lit.
  change (u "<div class=" ++ q (u "featured-post reveal")) with featuredOpen.
  now rewrite (not_included _ _ I a b E).
Qed.

(** In a page other than the English one the absence is harmless: the
    loop guards the featured post with [if (featured)], and the cards of
    the page are written all the same. *)
Lemma migrateLang_without_featured enSlugs (lang : Lang) (html : jsstring) :
  includes featuredOpen html = false ->
  migrateLang enSlugs lang html
  = map (writePost lang) (unifyCards enSlugs 0 (extractCards html lang)).
Proof.
  intros I; unfold migrateLang; now rewrite (extractFeatured_absent _ _ I).
Qed.

Lemma migrate_completes (docs : Lang -> jsstring) f :
  extractFeatured (docs en) en = Some f ->
  exists written, migrate docs = Completed written.
Proof. intros E; unfold migrate; rewrite E; eexists; reflexivity. Qed.

(** C6 fails on the code when the page is the English one:
    [extractFeatured] returns null as the claim says, but the run then
    reads [enFeatured.slug] without the guard that the loop has, and
    throws before a single file is written, whatever the other pages
    hold. *)
Theorem english_page_without_featured_aborts (docs : Lang -> jsstring) :
  includes featuredOpen (docs en) = false ->
  extractFeatured (docs en) en = None /\ migrate docs = TypeError.
Proof.
  intros I; pose proof (extractFeatured_absent _ en I) as E.
  split; [exact E | unfold migrate; now rewrite E].
Qed.

Lemma english_page_without_featured_aborts_witness :
  includes featuredOpen gridOnlyPage = false
  /\ map slug (extractCards gridOnlyPage en) = [u "hello"]
  /\ extractFeatured gridOnlyPage en = None
  /\ migrate (fun _ => gridOnlyPage) = TypeError.
Proof.
  assert (includes featuredOpen gridOnlyPage = false) as I
    by (vm_compute; reflexivity).
  split; [exact I|]; split; [vm_compute; reflexivity|].
  exact (english_page_without_featured_aborts (fun _ => gridOnlyPage) I).
Defined.

(** *** Slug unification *)

Lemma unifyCards_nth enSlugs (k : nat) (cards : list Post) (i : nat) :
  nth_error (unifyCards enSlugs k cards) i
  = option_map
      (fun c => setSlug (unifiedSlug (nth_error enSlugs (k + i + 1)) (slug c)) c)
      (nth_error cards i).
Proof.
  revert k i; induction cards as [|c cards IH]; intros k [|i];
    try reflexivity.
  - cbn [unifyCards nth_error option_map]; unfold at_.
    rewrite Nat.add_0_r.
    destruct (nth_error enSlugs (k + 1)) as [[|x e]|]; reflexivity.
  - cbn [unifyCards nth_error]; rewrite IH.
    now replace (S k + i + 1)%nat with (k + S i + 1)%nat by lia.
Qed.

Lemma unifyCards_firstn enSlugs (k : nat) (cards : list Post) :
  unifyCards (firstn (k + length cards + 1) enSlugs) k cards
  = unifyCards enSlugs k cards.
Proof.
  revert k; induction cards as [|c cards IH]; intros k; [reflexivity|].
  cbn [unifyCards length]; unfold at_; f_equal.
  - rewrite nth_error_firstn.
    destruct (Nat.ltb_spec (k + 1) (k + S (length cards) + 1)); [reflexivity|lia].
  - replace (k + S (length cards) + 1)%nat with (S k + length cards + 1)%nat
      by lia.
    apply IH.
Qed.

(** C8, as the specification states it, fails: the canonical slug at the
    card's position exists, but it is the empty slug of an English title
    without word characters, and the card keeps its own slug. *)
Lemma empty_canonical_slug_not_applied :
  let enSlugs := [slugify (u "Market Update"); slugify (u "???")] in
  let card := mkPost (u "Le march" ++ [233]) (u "le-march") (u "2025-01-23")
                     (u "economy") [] [] [] false in
  nth_error enSlugs (0 + 1) = Some []
  /\ map slug (unifyCards enSlugs 0 [card]) = [u "le-march"]
  /\ map slug (unifyCards enSlugs 0 [card]) <> [[]].
Proof. vm_compute; repeat split; discriminate. Qed.

(** C8, amended: the card at position [i] is written under the canonical
    slug at [i + 1] when the list reaches that far and the slug there is
    not empty; otherwise, beyond the list's length or at an empty canonical
    slug, it keeps its own slug. Nothing else of the card changes, no card
    is added or lost, and the canonical slugs past the last card are not
    looked at. *)
Theorem unifyCards_slug enSlugs (cards : list Post) :
  (forall i,
     nth_error (unifyCards enSlugs 0 cards) i
     = option_map
         (fun c => setSlug (unifiedSlug (nth_error enSlugs (i + 1)) (slug c)) c)
         (nth_error cards i))
  /\ length (unifyCards enSlugs 0 cards) = length cards
  /\ unifyCards (firstn (length cards + 1) enSlugs) 0 cards
     = unifyCards enSlugs 0 cards.
Proof.
  split; [intros i; apply (unifyCards_nth enSlugs 0) | split].
  - generalize 0%nat; induction cards as [|c cards IH]; intros k;
      [reflexivity | cbn [unifyCards length]; now rewrite IH].
  - apply (unifyCards_firstn enSlugs 0).
Qed.

End RunClaims.

(** ** Sorting and selecting the featured post *)

Section SelectClaims.

Import Build.

Lemma insertPost_perm (p : Build.Post) l : Permutation (p :: l) (insertPost p l).
Proof.
  induction l as [|x l IH]; simpl; [reflexivity|].
  destruct (Build.date p <? Build.date x)%Z; [|reflexivity].
  rewrite perm_swap; now constructor.
Qed.

Lemma sortPosts_perm (posts : list Build.Post) :
  Permutation posts (sortPosts posts).
Proof.
  induction posts as [|p posts IH]; simpl; [reflexivity|].
  rewrite <- insertPost_perm; now constructor.
Qed.

Lemma insertPost_sorted (p : Build.Post) l :
  StronglySorted notOlder l -> StronglySorted notOlder (insertPost p l).
Proof.
  induction 1 as [|x l S IH F]; simpl; [repeat constructor|].
  destruct (Z.ltb_spec (Build.date p) (Build.date x)).
  - constructor; [exact IH|].
    rewrite <- insertPost_perm; constructor; [unfold notOlder; lia | exact F].
  - constructor; [now constructor|].
    constructor; [exact H|].
    eapply Forall_impl; [|exact F]; unfold notOlder; intros; lia.
Qed.

Lemma sortPosts_sorted (posts : list Build.Post) :
  StronglySorted notOlder (sortPosts posts).
Proof.
  induction posts as [|p posts IH]; simpl;
    [constructor | now apply insertPost_sorted].
Qed.

(** The sort is stable: the posts of one date keep their order. *)
Lemma insertPost_stable (d : Z) (p : Build.Post) l :
  filter (fun x => (Build.date x =? d)%Z) (insertPost p l)
  = filter (fun x => (Build.date x =? d)%Z) (p :: l).
Proof.
  induction l as [|x l IH]; [reflexivity|].
  cbn [insertPost]; destruct (Z.ltb_spec (Build.date p) (Build.date x));
    [|reflexivity].
  cbn [filter] in *; rewrite IH.
  destruct (Z.eqb_spec (Build.date x) d), (Z.eqb_spec (Build.date p) d);
    try reflexivity; lia.
Qed.

Lemma sortPosts_stable (d : Z) (posts : list Build.Post) :
  filter (fun x => (Build.date x =? d)%Z) (sortPosts posts)
  = filter (fun x => (Build.date x =? d)%Z) posts.
Proof.
  induction posts as [|p posts IH]; [reflexivity|].
  cbn [sortPosts fold_right]; rewrite insertPost_stable.
  cbn [filter]; fold (sortPosts posts); now rewrite IH.
Qed.

Lemma findIndex_some f (l : list Build.Post) i :
  findIndex f l = Some i ->
  exists l1 x l2, l = l1 ++ x :: l2 /\ length l1 = i /\ f x = true
                  /\ Forall (fun y => f y = false) l1.
Proof.
  revert i; induction l as [|p l IH]; intros i; simpl; [discriminate|].
  destruct (f p) eqn:E.
  - intros [= <-]; exists [], p, l; repeat split; auto.
  - destruct (findIndex f l) as [j|]; [|discriminate].
    intros [= <-]; destruct (IH j eq_refl) as (l1 & x & l2 & -> & L & X & F).
    exists (p :: l1), x, l2; repeat split; simpl; auto.
Qed.

Lemma findIndex_none f (l : list Build.Post) :
  findIndex f l = None -> Forall (fun y => f y = false) l.
Proof.
  induction l as [|p l IH]; simpl; [constructor|].
  destruct (f p) eqn:E; [discriminate|].
  destruct (findIndex f l); [discriminate|]; auto.
Qed.

Lemma dropIndex_past (n k : nat) (l : list Build.Post) :
  (n < k)%nat -> dropIndex n k l = l.
Proof.
  revert k; induction l as [|p l IH]; intros k H; simpl; [reflexivity|].
  destruct (Nat.eqb_spec k n); [lia|]. f_equal; apply IH; lia.
Qed.

Lemma dropIndex_at (k : nat) (l1 : list Build.Post) x l2 :
  dropIndex (k + length l1) k (l1 ++ x :: l2) = l1 ++ l2.
Proof.
  revert k; induction l1 as [|p l1 IH]; intros k; simpl.
  - rewrite Nat.add_0_r, Nat.eqb_refl; apply dropIndex_past; lia.
  - destruct (Nat.eqb_spec k (k + S (length l1))); [lia|].
    f_equal; rewrite <- (IH (S k)); f_equal; lia.
Qed.

(** C5: the posts are sorted by date, newest first, posts of one date in
    the order they were read; the featured post is the first of the sorted
    posts whose [featured] is true, or the first of them all (the newest)
    when none is flagged; the other posts are the cards, in sorted order.
    A partition without posts has no featured post. *)
Theorem selectPosts_spec (posts : list Build.Post) :
  let sorted := sortPosts posts in
  Permutation posts sorted
  /\ StronglySorted notOlder sorted
  /\ (forall d, filter (fun x => (Build.date x =? d)%Z) sorted
                = filter (fun x => (Build.date x =? d)%Z) posts)
  /\ match selectPosts posts with
     | (Some f, cards) =>
         exists l1 l2,
           sorted = l1 ++ f :: l2 /\ cards = l1 ++ l2
           /\ Forall (fun y => Build.featured y = false) l1
           /\ (Build.featured f = true
               \/ (l1 = []
                   /\ Forall (fun y => Build.featured y = false) sorted
                   /\ Forall (notOlder f) sorted))
     | (None, cards) => posts = [] /\ cards = []
     end.
Proof.
  intros sorted.
  split; [apply sortPosts_perm|].
  split; [apply sortPosts_sorted|].
  split; [intros d; apply sortPosts_stable|].
  unfold selectPosts; fold sorted.
  destruct (findIndex Build.featured sorted) as [i|] eqn:E.
  - destruct (findIndex_some _ _ _ E) as (l1 & x & l2 & S & L & X & F).
    rewrite S, <- L, nth_error_app2, Nat.sub_diag by lia; cbn [nth_error].
    exists l1, l2; repeat split; auto. apply (dropIndex_at 0).
  - pose proof (findIndex_none _ _ E) as F.
    pose proof (sortPosts_sorted posts) as St; fold sorted in St.
    pose proof (sortPosts_perm posts) as P; fold sorted in P.
    destruct sorted as [|x l]; cbn [nth_error].
    + split; [|reflexivity].
      now apply Permutation_sym, Permutation_nil in P.
    + exists [], l; repeat split; auto.
      * simpl; f_equal; apply dropIndex_past; lia.
      * right; repeat split; auto.
        inversion St; subst; constructor; [unfold notOlder; lia | assumption].
Qed.

End SelectClaims.

(** ** Rendering *)

Section RenderFacts.

Lemma contains_here (p s : jsstring) : contains p (p ++ s).
Proof. now exists [], s. Qed.

Lemma contains_skip (a p s : jsstring) : contains p s -> contains p (a ++ s).
Proof.
  intros (pre & suf & ->); exists (a ++ pre), suf; now rewrite app_assoc.
Qed.

Lemma contains_cons (c : codeunit) (p s : jsstring) :
  contains p s -> contains p (c :: s).
Proof. apply (contains_skip [c]). Qed.

Lemma prefix_self (p s : jsstring) : prefix p (p ++ s).
Proof. now exists s. Qed.

Lemma prefix_end (p : jsstring) : prefix p p.
Proof. exists []; now rewrite app_nil_r. Qed.

Lemma prefix_app (a p s : jsstring) : prefix p s -> prefix (a ++ p) (a ++ s).
Proof. intros (r & ->); exists r; now rewrite app_assoc. Qed.

Lemma prefix_cons (c : codeunit) (p s : jsstring) :
  prefix p s -> prefix (c :: p) (c :: s).
Proof. apply (prefix_app [c]). Qed.

Lemma prefix_contains (p s : jsstring) : prefix p s -> contains p s.
Proof. intros (r & ->); apply contains_here. Qed.

Lemma emittedInOrder_skip (x a b s : jsstring) :
  emittedInOrder a b s -> emittedInOrder a b (x ++ s).
Proof.
  intros (pre & mid & post & ->); exists (x ++ pre), mid, post.
  now rewrite app_assoc.
Qed.

Lemma indexOf_here (p s : jsstring) :
  startsWith p s = true -> indexOf p s = Some O.
Proof. intros H; destruct s; simpl; now rewrite H. Qed.

Lemma indexOf_first (p pre rest : jsstring) :
  exists i, indexOf p (pre ++ p ++ rest) = Some i /\ (i <= length pre)%nat.
Proof.
  induction pre as [|c pre (i & E & L)].
  - exists O; split; [|reflexivity].
    cbn [app]; apply indexOf_here, startsWith_app.
  - cbn [app indexOf]; destruct (startsWith p (c :: pre ++ p ++ rest)).
    + exists O; split; [reflexivity | simpl; lia].
    + exists (S i); rewrite E; split; [reflexivity | simpl; lia].
Qed.

(** The decision procedure answers yes on every text in which the two
    parts come in order. *)
Lemma emittedInOrderb_complete (a b s : jsstring) :
  emittedInOrder a b s -> emittedInOrderb a b s = true.
Proof.
  intros (pre & mid & post & ->); unfold emittedInOrderb.
  destruct (indexOf_first a pre (mid ++ b ++ post)) as (i & -> & L).
  rewrite (app_assoc pre a), skipn_app.
  replace (i + length a - length (pre ++ a))%nat with O
    by (rewrite length_app; lia).
  cbn [skipn]; rewrite app_assoc; apply includes_app.
Qed.

(** *** [escapeHtml], one code unit at a time *)

Lemma replace_single (c : codeunit) (rep s : jsstring) :
  replaceAll (literal [c] rep) s
  = flat_map (fun x => if x =? c then rep else [x]) s.
Proof.
  unfold replaceAll; induction s as [|x s IH]; [reflexivity|].
  cbn [replaceG flat_map]; unfold literal at 1; cbn [startsWith].
  rewrite (N.eqb_sym c x), andb_true_r.
  destruct (x =? c); cbn [app length pred]; now rewrite <- IH.
Qed.

Lemma flat_map_compose (f g : codeunit -> jsstring) (s : jsstring) :
  flat_map g (flat_map f s) = flat_map (fun c => flat_map g (f c)) s.
Proof.
  induction s as [|c s IH]; [reflexivity|].
  cbn [flat_map]; now rewrite flat_map_app, IH.
Qed.

Lemma escapeHtml_units (s : jsstring) :
  Build.escapeHtml s = flat_map escapeUnit s.
Proof.
  unfold Build.escapeHtml.
  change (u "&") with [38]; change (u "<") with [60];
    change (u ">") with [62].
  rewrite !replace_single, !flat_map_compose.
  apply flat_map_ext; intros c; unfold escapeUnit, QUOTE.
  destruct (N.eqb_spec c 38) as [->|?]; [reflexivity|].
  destruct (N.eqb_spec c 60) as [->|?]; [reflexivity|].
  destruct (N.eqb_spec c 62) as [->|?]; [reflexivity|].
  destruct (N.eqb_spec c 34) as [->|?]; [reflexivity|].
  cbn [flat_map app].
  repeat match goal with
         | |- context [?x =? ?y] =>
             destruct (N.eqb_spec x y); [congruence|]; cbn [flat_map app]
         end.
  reflexivity.
Qed.

Lemma escapeHtml_safe (s : jsstring) (c : codeunit) :
  In c (Build.escapeHtml s) -> c <> 60 /\ c <> 62 /\ c <> QUOTE.
Proof.
  rewrite escapeHtml_units; intros H; apply in_flat_map in H as (x & _ & H).
  unfold escapeUnit, QUOTE in *.
  repeat match type of H with
         | context [?a =? ?b] => destruct (N.eqb_spec a b)
         end;
    simpl in H; repeat (destruct H as [<-|H]; [repeat split; lia|]);
    contradiction.
Qed.

End RenderFacts.

Section RenderClaims.

Variable Intl_DateTimeFormat : jsstring -> objectLiteral -> Z -> jsstring.

Local Abbreviation generateFeaturedPost := (Build.generateFeaturedPost Intl_DateTimeFormat).
Local Abbreviation generateBlogCard := (Build.generateBlogCard Intl_DateTimeFormat).
Local Abbreviation featuredBodyBlock := (Build.featuredBodyBlock Intl_DateTimeFormat).

(** Looks for the part inside a concatenation, piece by piece. *)
Ltac match_prefix :=
  first [ apply prefix_end
        | apply prefix_self
        | apply prefix_app; match_prefix
        | apply prefix_cons; match_prefix ].

Ltac find_part :=
  solve [apply prefix_contains; match_prefix]
  || (first [apply contains_skip | apply contains_cons]; find_part).

(** On the sample post the featured fragment has the body first in
    Hebrew and the image first in English and French, and no second
    occurrence the other way round. *)
Example featured_order_sample :
  let body l := Build.featuredBodyBlock fixedDate samplePost l in
  let img := Build.featuredImgBlock samplePost in
  let out l := Build.generateFeaturedPost fixedDate samplePost l in
  emittedInOrderb (body he) img (out he) = true
  /\ emittedInOrderb img (body he) (out he) = false
  /\ emittedInOrderb img (body en) (out en) = true
  /\ emittedInOrderb (body en) img (out en) = false
  /\ emittedInOrderb img (body fr) (out fr) = true
  /\ emittedInOrderb (body fr) img (out fr) = false.
Proof. vm_compute; repeat split. Qed.

(** C1, as the specification states it, fails for the cards: in the card
    of a Hebrew page the body block does not come before the image
    block. *)
Lemma hebrew_card_body_not_before_image :
  ~ emittedInOrder (cardBodyBlock fixedDate samplePost he)
                   (cardImgBlock fixedDate samplePost 0 he)
                   (Build.generateBlogCard fixedDate samplePost 0 he).
Proof.
  intros H; apply emittedInOrderb_complete in H.
  vm_compute in H; discriminate.
Qed.

(** C1, amended: the featured fragment holds the image block after the
    body block when the language is Hebrew, and before it otherwise; a
    card holds the image block before the body block in every
    language. *)
Theorem image_body_order (post : Build.Post) (index : nat) (lang : Lang) :
  (if Build.isHe lang
   then emittedInOrder (featuredBodyBlock post lang)
                       (Build.featuredImgBlock post)
                       (generateFeaturedPost post lang)
   else emittedInOrder (Build.featuredImgBlock post)
                       (featuredBodyBlock post lang)
                       (generateFeaturedPost post lang))
  /\ emittedInOrder (cardImgBlock Intl_DateTimeFormat post index lang)
                    (cardBodyBlock Intl_DateTimeFormat post lang)
                    (generateBlogCard post index lang).
Proof.
  split.
  - unfold Build.generateFeaturedPost; cbv zeta.
    destruct lang; cbn [Build.isHe];
      do 8 apply emittedInOrder_skip;
      eexists [], [NL], ([NL] ++ u "    </div>");
      rewrite <- !app_assoc; reflexivity.
  - unfold Build.generateBlogCard; cbv zeta.
    do 10 apply emittedInOrder_skip.
    exists [], [NL], ([NL] ++ u "      </div>").
    unfold cardImgBlock, cardBodyBlock; cbv zeta.
    rewrite <- !app_assoc; reflexivity.
Qed.

(** The two fragments hold the image tag with the address that their
    generator computes, and the escaped title and excerpt. *)
Lemma fragments_hold_fields (post : Build.Post) (index : nat) (lang : Lang) :
  let imgTag src :=
    u "<img src=" ++ q src ++ u " alt="
      ++ q (Build.escapeHtml (orStr (Build.image_alt post) (Build.title post)))
      ++ u "/>" in
  let titleLink :=
    q (u "#") ++ u ">" ++ Build.escapeHtml (Build.title post) ++ u "</a></h" in
  let excerptText :=
    u ">" ++ Build.escapeHtml (Build.excerpt post) ++ u "</p>" in
  contains (imgTag (Build.featuredImgSrc post)) (generateFeaturedPost post lang)
  /\ contains (imgTag (Build.cardImgSrc post index))
              (generateBlogCard post index lang)
  /\ contains titleLink (generateFeaturedPost post lang)
  /\ contains titleLink (generateBlogCard post index lang)
  /\ contains (q (u "featured-excerpt") ++ excerptText)
              (generateFeaturedPost post lang)
  /\ contains (q (u "blog-card-excerpt") ++ excerptText)
              (generateBlogCard post index lang).
Proof.
  intros imgTag titleLink excerptText; subst imgTag titleLink excerptText.
  cbv beta.
  assert (contains
            (u "<img src=" ++ q (Build.cardImgSrc post index) ++ u " alt="
               ++ q (Build.escapeHtml
                       (orStr (Build.image_alt post) (Build.title post)))
               ++ u "/>")
            (generateBlogCard post index lang)
          /\ contains
               (q (u "#") ++ u ">" ++ Build.escapeHtml (Build.title post)
                  ++ u "</a></h")
               (generateBlogCard post index lang)
          /\ contains
               (q (u "blog-card-excerpt") ++ u ">"
                  ++ Build.escapeHtml (Build.excerpt post) ++ u "</p>")
               (generateBlogCard post index lang)) as (C1 & C2 & C3).
  { unfold Build.generateBlogCard; cbv zeta.
    fold (Build.cardImgSrc post index).
    generalize (Build.cardImgSrc post index); intros src.
    change (u "          <img src=") with (u "          " ++ u "<img src=").
    change (u "</a></h3>") with (u "</a></h" ++ u "3>").
    rewrite <- !app_assoc; repeat split; find_part. }
  assert (contains
            (u "<img src=" ++ q (Build.featuredImgSrc post) ++ u " alt="
               ++ q (Build.escapeHtml
                       (orStr (Build.image_alt post) (Build.title post)))
               ++ u "/>")
            (generateFeaturedPost post lang)
          /\ contains
               (q (u "#") ++ u ">" ++ Build.escapeHtml (Build.title post)
                  ++ u "</a></h")
               (generateFeaturedPost post lang)
          /\ contains
               (q (u "featured-excerpt") ++ u ">"
                  ++ Build.escapeHtml (Build.excerpt post) ++ u "</p>")
               (generateFeaturedPost post lang)) as (F1 & F2 & F3).
  { unfold Build.generateFeaturedPost, Build.featuredImgBlock,
      Build.featuredBodyBlock; cbv zeta.
    generalize (Build.featuredImgSrc post); intros src.
    change (u "        <img src=") with (u "        " ++ u "<img src=").
    change (u "</a></h2>") with (u "</a></h" ++ u "2>").
    destruct lang; cbn [Build.isHe]; rewrite <- !app_assoc;
      repeat split; find_part. }
  repeat split; assumption.
Qed.

(** C9: the address of the image goes into the [src] attribute as it is,
    in the featured fragment and in a card, so that an ampersand, an angle
    bracket or a double quote in it reaches the page unescaped; without an
    address the attribute holds the placeholder address, made of the size
    of the fragment and of the colour of the fragment (for a card, the
    colour of the palette at the index of the card modulo six); the title,
    the excerpt and the alt text go through [escapeHtml], which replaces
    each of these four characters by its reference and lets none of the
    last three through. *)
Theorem image_url_embedded_verbatim
        (post : Build.Post) (index : nat) (lang : Lang) :
  let palette :=
    [u "0D2847"; u "1a3a5c"; u "1a4a6e"; u "1a3550"; u "1a2844"; u "1a3048"] in
  let color := nth (index mod 6) palette [] in
  let featuredSrc :=
    match Build.image post with
    | [] => u "https://placehold.co/800x500/1a2e4a/1a2e4a"
    | url => url
    end in
  let cardSrc :=
    match Build.image post with
    | [] => u "https://placehold.co/600x400/" ++ color ++ u "/" ++ color
    | url => url
    end in
  let imgTag src :=
    u "<img src=" ++ q src ++ u " alt="
      ++ q (Build.escapeHtml (orStr (Build.image_alt post) (Build.title post)))
      ++ u "/>" in
  let titleLink :=
    q (u "#") ++ u ">" ++ Build.escapeHtml (Build.title post) ++ u "</a></h" in
  let excerptText :=
    u ">" ++ Build.escapeHtml (Build.excerpt post) ++ u "</p>" in
  contains (imgTag featuredSrc) (generateFeaturedPost post lang)
  /\ contains (imgTag cardSrc) (generateBlogCard post index lang)
  /\ contains titleLink (generateFeaturedPost post lang)
  /\ contains titleLink (generateBlogCard post index lang)
  /\ contains (q (u "featured-excerpt") ++ excerptText)
              (generateFeaturedPost post lang)
  /\ contains (q (u "blog-card-excerpt") ++ excerptText)
              (generateBlogCard post index lang)
  /\ (forall s, Build.escapeHtml s = flat_map escapeUnit s)
  /\ (forall s c, In c (Build.escapeHtml s) ->
                  c <> 60 /\ c <> 62 /\ c <> QUOTE).
Proof.
  intros palette color featuredSrc cardSrc imgTag titleLink excerptText.
  assert (Build.featuredImgSrc post = featuredSrc) as EF
    by (unfold Build.featuredImgSrc, featuredSrc;
        destruct (Build.image post); reflexivity).
  assert (Build.cardImgSrc post index = cardSrc) as EC
    by (unfold Build.cardImgSrc, cardSrc;
        destruct (Build.image post); reflexivity).
  destruct (fragments_hold_fields post index lang)
    as (F1 & C1 & F2 & C2 & F3 & C3).
  rewrite EF in F1; rewrite EC in C1.
  repeat split; auto using escapeHtml_units; now apply escapeHtml_safe in H.
Qed.

End RenderClaims.

Lemma image_url_embedded_verbatim_witness :
  contains
    (u "<img src=" ++ q (u "img/a.png?w=800&h=500") ++ u " alt="
       ++ q (u "A chart") ++ u "/>")
    (Build.generateBlogCard fixedDate samplePost 0 he)
  /\ contains
       (u "<img src=" ++ q (u "https://placehold.co/600x400/1a3a5c/1a3a5c")
          ++ u " alt=" ++ q (u "Listen: the Shekel") ++ u "/>")
       (Build.generateBlogCard fixedDate imagelessPost 7 fr)
  /\ contains
       (u "<img src=" ++ q (u "https://placehold.co/800x500/1a2e4a/1a2e4a")
          ++ u " alt=" ++ q (u "Listen: the Shekel") ++ u "/>")
       (Build.generateFeaturedPost fixedDate imagelessPost he).
Proof.
  split; [|split].
  - exact (proj1 (proj2 (image_url_embedded_verbatim fixedDate samplePost 0 he))).
  - exact (proj1 (proj2 (image_url_embedded_verbatim
                           fixedDate imagelessPost 7 fr))).
  - exact (proj1 (image_url_embedded_verbatim fixedDate imagelessPost 0 he)).
Defined.

(* ================================================================== *)
(** * Further properties of the migration                             *)
(* ================================================================== *)

Section GridComment.

(** [b] is what is left of [s] after some text. *)
Lemma includes_suffix (p a b : jsstring) :
  includes p b = true -> includes p (a ++ b) = true.
Proof.
  intros H; apply includes_split in H as (x & y & ->).
  rewrite app_assoc; apply includes_app.
Qed.

Lemma dropWhile_suffix (f : codeunit -> bool) (s : jsstring) :
  exists a, s = a ++ dropWhile f s.
Proof.
  induction s as [|c s (a & E)]; [now exists []|].
  simpl; destruct (f c); [|now exists []].
  exists (c :: a); simpl; now rewrite <- E.
Qed.

Lemma skipn_suffix (n : nat) (s : jsstring) : exists a, s = a ++ skipn n s.
Proof. exists (firstn n s); now rewrite firstn_skipn. Qed.

Lemma lit_suffix (p s r : jsstring) :
  lit p s = Some r -> s = p ++ r.
Proof.
  unfold lit; destruct (startsWith p s) eqn:E; [|discriminate].
  intros [= <-]; now apply startsWith_split.
Qed.

Lemma lazyUntil_some {A} (m : jsstring -> option A) (s b : jsstring) r :
  lazyUntil m s = Some (b, r) -> exists t, s = b ++ t /\ m t = Some r.
Proof.
  revert b; induction s as [|c s IH]; intros b; simpl.
  - destruct (m []) eqn:E; [|discriminate].
    intros [= <- <-]; now exists [].
  - destruct (m (c :: s)) eqn:E.
    + intros [= <- <-]; now exists (c :: s).
    + destruct (lazyUntil m s) as [[b' r']|]; [|discriminate].
      intros [= <- <-]; destruct (IH b' eq_refl) as (t & -> & M).
      now exists t.
Qed.

Lemma search_some {A} (m : jsstring -> option A) (s : jsstring) r :
  search m s = Some r -> exists a b, s = a ++ b /\ m b = Some r.
Proof.
  induction s as [|c s IH]; simpl.
  - destruct (m []) eqn:E; [|discriminate].
    intros [= <-]; now exists [], [].
  - destruct (m (c :: s)) eqn:E.
    + intros [= <-]; now exists [], (c :: s).
    + intros H; destruct (IH H) as (a & b & -> & M); now exists (c :: a), b.
Qed.

(** The closing sequence of the featured block ends with the grid
    comment. *)
Lemma featuredClose_grid (s r : jsstring) :
  featuredClose s = Some r -> includes gridComment s = true.
Proof.
  unfold featuredClose, andThen, ws, wsTwoNewlines.
  destruct (lit (u "</div>") s) as [s1|] eqn:E1; [|discriminate].
  destruct (lit (u "</div>") (dropWhile isSpace s1)) as [s2|] eqn:E2;
    [|discriminate].
  destruct (2 <=? _)%nat; [|discriminate].
  intros E3; apply lit_suffix in E1, E2, E3.
  destruct (dropWhile_suffix isSpace s1) as (a1 & D1).
  destruct (dropWhile_suffix isSpace s2) as (a2 & D2).
  rewrite E1, D1, E2, D2, E3.
  do 4 apply includes_suffix; apply includes_here, startsWith_app.
Qed.

Lemma featuredRe_grid (s m0 : jsstring) :
  featuredRe s = Some m0 -> includes gridComment s = true.
Proof.
  unfold featuredRe.
  destruct (lit _ s) as [r|] eqn:E; [|discriminate].
  destruct (lazyUntil featuredClose r) as [[b rest]|] eqn:L; [|discriminate].
  intros _; apply lit_suffix in E.
  apply lazyUntil_some in L as (t & -> & C).
  rewrite E; do 2 apply includes_suffix.
  eapply featuredClose_grid; eassumption.
Qed.

(** X1. Both extractors depend on the comment that opens the grid: a page
    without it has no cards and, whatever else it holds, no featured
    post. *)
Theorem no_grid_comment_nothing_extracted (html : jsstring) (lang : Lang) :
  includes gridComment html = false ->
  extractFeatured html lang = None /\ extractCards html lang = [].
Proof.
  intros I; split.
  - unfold extractFeatured.
    destruct (search featuredRe html) as [m0|] eqn:S; [exfalso|reflexivity].
    apply search_some in S as (a & b & -> & M).
    apply featuredRe_grid in M.
    rewrite (includes_suffix _ a _ M) in I; discriminate.
  - unfold extractCards; rewrite search_none; [reflexivity|].
    intros a b E; unfold gridRe, lit.
    change (u "<!-- Blog Grid -->") with gridComment.
    now rewrite (not_included _ _ I a b E).
Qed.

End GridComment.

Lemma no_grid_comment_nothing_extracted_witness :
  includes gridComment featuredOnlyPage = false
  /\ includes featuredOpen featuredOnlyPage = true
  /\ extractFeatured featuredOnlyPage fr = None
  /\ extractCards featuredOnlyPage fr = [].
Proof.
  assert (includes gridComment featuredOnlyPage = false) as I
    by (vm_compute; reflexivity).
  split; [exact I|]; split; [vm_compute; reflexivity|].
  exact (no_grid_comment_nothing_extracted featuredOnlyPage fr I).
Defined.

Section Unification.

Lemma setSlug_same (c : Post) : setSlug (slug c) c = c.
Proof. now destruct c. Qed.

Lemma orStr_same (s : jsstring) : orStr s s = s.
Proof. now destruct s. Qed.

Lemma unifyCards_own (pre : list jsstring) (i : nat) (cards : list Post) :
  length pre = (i + 1)%nat ->
  unifyCards (pre ++ map slug cards) i cards = cards.
Proof.
  revert pre i; induction cards as [|c cards IH]; intros pre i L;
    [reflexivity|].
  cbn [unifyCards map]; unfold at_.
  rewrite nth_error_app2, <- L, Nat.sub_diag by lia; cbn [nth_error].
  rewrite orStr_same, setSlug_same; f_equal.
  change (pre ++ slug c :: map slug cards)
    with (pre ++ [slug c] ++ map slug cards).
  rewrite app_assoc; apply IH; rewrite length_app; simpl; lia.
Qed.

(** X2. In the English turn of the loop, where the canonical slugs come
    from the page itself, the files handed over for writing are the posts
    as they were extracted, the featured one first and the cards in the
    order of the page, each under its own slug, empty or not: unification
    changes nothing in the English partition. *)
Theorem english_posts_written_as_extracted (html : jsstring) (f : Post) :
  extractFeatured html en = Some f ->
  migrateLang (slug f :: map slug (extractCards html en)) en html
  = map (writePost en) (f :: extractCards html en).
Proof.
  intros E; unfold migrateLang; rewrite E; unfold at_; cbn [nth_error].
  rewrite setSlug_same; cbn [app map]; f_equal; f_equal.
  apply (unifyCards_own [slug f] 0); reflexivity.
Qed.

Lemma unifyCards_aligned (pre slugs : list jsstring) (i : nat)
      (cards : list Post) :
  length pre = (i + 1)%nat ->
  length cards = length slugs ->
  Forall (fun s => s <> []) slugs ->
  map slug (unifyCards (pre ++ slugs) i cards) = slugs.
Proof.
  revert pre i slugs; induction cards as [|c cards IH];
    intros pre i [|s slugs] L K F; try discriminate; [reflexivity|].
  cbn [unifyCards map]; unfold at_.
  rewrite nth_error_app2, <- L, Nat.sub_diag by lia; cbn [nth_error].
  inversion F as [|? ? Hs Fs]; subst.
  f_equal; [destruct s; [congruence | reflexivity]|].
  change (pre ++ s :: slugs) with (pre ++ [s] ++ slugs).
  rewrite app_assoc; apply IH; auto; rewrite length_app; simpl; lia.
Qed.

(** X3. A page with a featured post and as many cards as the English
    page, none of whose slugs is empty, is written under the English file
    names, in the English order, in its own directory. *)
Theorem aligned_page_uses_english_names
        (enSlugs : list jsstring) (lang : Lang) (html : jsstring) f :
  extractFeatured html lang = Some f ->
  S (length (extractCards html lang)) = length enSlugs ->
  Forall (fun s => s <> []) (tl enSlugs) ->
  map path (migrateLang enSlugs lang html) = map (postPath lang) enSlugs.
Proof.
  intros E L F; destruct enSlugs as [|s0 slugs]; [discriminate|].
  unfold migrateLang; rewrite E; cbn [at_ nth_error app map].
  f_equal; rewrite map_map.
  change (fun x => path (writePost lang x))
    with (fun x => postPath lang (slug x)).
  rewrite <- (map_map slug (postPath lang)); f_equal.
  apply (unifyCards_aligned [s0] slugs 0); auto.
Qed.

End Unification.

Lemma english_posts_written_as_extracted_witness :
  exists f,
    extractFeatured (samplePage en) en = Some f
    /\ migrateLang (slug f :: map slug (extractCards (samplePage en) en)) en
                   (samplePage en)
       = map (writePost en) (f :: extractCards (samplePage en) en).
Proof.
  destruct (extractFeatured (samplePage en) en) as [f|] eqn:E.
  - exists f; split; [reflexivity|].
    exact (english_posts_written_as_extracted (samplePage en) f E).
  - vm_compute in E; discriminate.
Defined.

Lemma aligned_page_uses_english_names_witness :
  let enSlugs := [u "listen-the-shekel"; u "rates-markets"; u "meet-the-team"] in
  map path (migrateLang enSlugs he (samplePage he))
  = map (postPath he) enSlugs.
Proof.
  intros enSlugs.
  destruct (extractFeatured (samplePage he) he) as [f|] eqn:E.
  - apply (aligned_page_uses_english_names enSlugs he (samplePage he) f E).
    + vm_compute; reflexivity.
    + repeat constructor; discriminate.
  - vm_compute in E; discriminate.
Defined.

(* ================================================================== *)
(** * Further properties of the build                                 *)
(* ================================================================== *)

Section Assembly.

Lemma selectPosts_none (posts : list Build.Post) cards :
  Build.selectPosts posts = (None, cards) -> posts = [].
Proof.
  unfold Build.selectPosts.
  pose proof (sortPosts_perm posts) as P.
  destruct (Build.findIndex Build.featured (Build.sortPosts posts)) as [i|] eqn:E.
  - destruct (findIndex_some _ _ _ E) as (l1 & x & l2 & S & L & _).
    rewrite S, <- L, nth_error_app2, Nat.sub_diag by lia; discriminate.
  - destruct (Build.sortPosts posts) as [|x l]; [|discriminate].
    intros _; now apply Permutation_sym, Permutation_nil in P.
Qed.

(** X4. Selection neither loses nor repeats a post: the featured post
    followed by the cards is a rearrangement of the posts read, so a
    partition of [n + 1] posts gives [n] cards; only the empty partition
    has no featured post. *)
Theorem selectPosts_keeps_every_post (posts : list Build.Post) :
  match Build.selectPosts posts with
  | (Some f, cards) =>
      Permutation posts (f :: cards) /\ length posts = S (length cards)
  | (None, cards) => posts = [] /\ cards = []
  end.
Proof.
  destruct (Build.selectPosts posts) as [[f|] cards] eqn:E.
  - assert (Permutation posts (f :: cards)) as P;
      [|split; [exact P | apply (Permutation_length P)]].
    unfold Build.selectPosts in E.
    rewrite (sortPosts_perm posts) at 1.
    destruct (Build.findIndex Build.featured (Build.sortPosts posts))
      as [i|] eqn:F.
    + destruct (findIndex_some _ _ _ F) as (l1 & x & l2 & S & L & _).
      rewrite S, <- L, nth_error_app2, Nat.sub_diag in E by lia.
      pose proof (dropIndex_at 0 l1 x l2) as Dr; cbn [Nat.add] in Dr.
      rewrite Dr in E; inversion E; subst.
      rewrite S; apply Permutation_sym, Permutation_middle.
    + destruct (Build.sortPosts posts) as [|x l]; [discriminate|].
      cbn [nth_error Build.dropIndex Nat.eqb] in E.
      rewrite dropIndex_past in E by lia; inversion E; subst; reflexivity.
  - pose proof (selectPosts_none _ _ E) as ->.
    split; [reflexivity | now inversion E].
Qed.

End Assembly.

(* ================================================================== *)
(** * Further properties of slugs                                     *)
(* ================================================================== *)

Section SlugExtras.

(** X6. A slug never holds two hyphens in a row, cut off or not. *)
Theorem slugify_no_double_hyphen (x : jsstring) :
  noDoubleHyphen (slugify x) = true
  /\ forall a b, slugify x <> a ++ [HYPHEN; HYPHEN] ++ b.
Proof.
  assert (noDoubleHyphen (slugify x) = true) as D
    by apply noDoubleHyphen_firstn, beforeTruncation_edges.
  split; [exact D|].
  intros a b E; rewrite E in D; clear E.
  induction a as [|c a IH].
  - cbn [app] in D; rewrite noDoubleHyphen_cons, !N.eqb_refl in D.
    discriminate.
  - apply IH; eapply noDoubleHyphen_tail; exact D.
Qed.

(** X7. On a text whose slug is not cut off, [slugify] is idempotent. *)
Theorem slugify_idempotent_untruncated (x : jsstring) :
  (length (beforeTruncation x) <= 60)%nat ->
  slugify (slugify x) = slugify x.
Proof.
  intros B; apply slugify_fixed.
  change (slugify x) with (firstn 60 (beforeTruncation x)).
  rewrite firstn_all2 by exact B; apply beforeTruncation_edges.
Qed.

Lemma slugify_idempotent_untruncated_witness :
  let x := u "Tel Aviv's Market: Up 12%!" in
  (length (beforeTruncation x) <= 60)%nat
  /\ slugify (slugify x) = slugify x.
Proof.
  assert (length (beforeTruncation (u "Tel Aviv's Market: Up 12%!")) <= 60)%nat
    as B by (vm_compute; lia).
  split; [exact B | exact (slugify_idempotent_untruncated _ B)].
Defined.

End SlugExtras.

(* ================================================================== *)
(** * Further properties of the date grammars                         *)
(* ================================================================== *)

Section DateGrammars.

Lemma dropWhile_head (f : codeunit -> bool) c (s : jsstring) :
  f c = false -> dropWhile f (c :: s) = c :: s.
Proof. intros H; simpl; now rewrite H. Qed.

(** [trim] leaves alone a text with no white space at either end. *)
Lemma trim_fixed (c1 c2 : codeunit) (t1 t2 s : jsstring) :
  s = c1 :: t1 -> s = t2 ++ [c2] ->
  isSpace c1 = false -> isSpace c2 = false -> trim s = s.
Proof.
  intros E1 E2 S1 S2; unfold trim.
  rewrite E1 at 1; rewrite (dropWhile_head _ _ _ S1), <- E1.
  rewrite E2 at 1; rewrite rev_app_distr; cbn [rev app].
  rewrite (dropWhile_head _ _ _ S2).
  change (c2 :: rev t2) with (rev [c2] ++ rev t2).
  now rewrite <- rev_app_distr, rev_involutive.
Qed.

Lemma removeFirst_app (c : codeunit) (a b : jsstring) :
  ~ In c a -> removeFirst c (a ++ b) = a ++ removeFirst c b.
Proof.
  induction a as [|x a IH]; intros N; [reflexivity|].
  cbn [app removeFirst]; destruct (N.eqb_spec x c) as [->|_].
  - exfalso; apply N; now left.
  - f_equal; apply IH; intros H; apply N; now right.
Qed.

Lemma splitRuns_word (cur w s : jsstring) (b : bool) :
  w <> [] -> noSpace w ->
  splitRuns isSpace cur b (w ++ s)
  = splitRuns isSpace (rev w ++ cur) false s.
Proof.
  revert cur b; induction w as [|c w IH]; intros cur b N F; [congruence|].
  inversion F as [|? ? Hc Fw]; subst.
  cbn [app splitRuns]; rewrite Hc.
  destruct w as [|c' w]; [reflexivity|].
  rewrite IH by (auto; discriminate).
  cbn [rev]; now rewrite <- !app_assoc.
Qed.

Lemma splitRuns_last (cur w : jsstring) (b : bool) :
  w <> [] -> noSpace w -> splitRuns isSpace cur b w = [rev cur ++ w].
Proof.
  intros N F; rewrite <- (app_nil_r w) at 1.
  rewrite splitRuns_word by assumption; cbn [splitRuns].
  now rewrite rev_app_distr, rev_involutive.
Qed.

Lemma splitChar_word (cur w s : jsstring) :
  ~ In SPACE w ->
  splitChar SPACE cur (w ++ s) = splitChar SPACE (rev w ++ cur) s.
Proof.
  revert cur; induction w as [|c w IH]; intros cur N; [reflexivity|].
  cbn [app splitChar]; destruct (N.eqb_spec c SPACE) as [->|_].
  - exfalso; apply N; now left.
  - rewrite IH by (intros H; apply N; now right).
    cbn [rev]; now rewrite <- app_assoc.
Qed.

Lemma splitChar_three (a b c : jsstring) :
  ~ In SPACE a -> ~ In SPACE b -> ~ In SPACE c ->
  splitChar SPACE [] (a ++ u " " ++ b ++ u " " ++ c) = [a; b; c].
Proof.
  intros A B C.
  rewrite splitChar_word by exact A; cbn [app u map list_ascii_of_string].
  change (N_of_ascii " ") with SPACE.
  cbn [splitChar]; rewrite N.eqb_refl, app_nil_r, rev_involutive; f_equal.
  rewrite splitChar_word by exact B.
  cbn [splitChar app]; rewrite N.eqb_refl, app_nil_r, rev_involutive; f_equal.
  rewrite <- (app_nil_r c) at 1; rewrite splitChar_word by exact C.
  cbn [splitChar]; now rewrite app_nil_r, rev_involutive.
Qed.

Lemma assoc_In {A} (k : jsstring) (l : list (jsstring * A)) v :
  assoc k l = Some v -> In (k, v) l.
Proof.
  induction l as [|[k' v'] l IH]; simpl; [discriminate|].
  destruct (jseqb k k') eqn:E.
  - intros [= <-]; apply jseqb_eq in E; subst; now left.
  - intros H; right; now apply IH.
Qed.

(** A key of a month table gives its two digits: the fallback on 01 and
    the inherited properties play no part. *)
Lemma month_found (table : objectLiteral) (key mm : jsstring) :
  Forall (fun e => snd e <> []) table ->
  assoc key table = Some mm ->
  toString (orElse (getProp table key) (u "01")) = mm.
Proof.
  intros F A; unfold getProp; rewrite A.
  apply assoc_In in A; rewrite Forall_forall in F; specialize (F _ A).
  destruct mm; [now simpl in F | reflexivity].
Qed.

Lemma months_not_empty :
  Forall (fun e => snd e <> []) enMonths
  /\ Forall (fun e => snd e <> []) frMonths
  /\ Forall (fun e => snd e <> []) heMonths.
Proof. repeat split; repeat constructor; discriminate. Qed.

Lemma last_split (s : jsstring) : s <> [] -> exists t c, s = t ++ [c].
Proof.
  intros N; destruct (exists_last N) as (t & c & E); now exists t, c.
Qed.

(** X8. The English grammar: a month name of the table, in any case, a
    day, a comma and a year give year-month-day, the day padded to two
    characters. *)
Theorem parseEnDate_wellformed (name day year mm : jsstring) :
  name <> [] -> day <> [] -> year <> [] ->
  noSpace name -> noSpace day -> noSpace year ->
  ~ In COMMA name -> ~ In COMMA day ->
  assoc (toLowerCase name) enMonths = Some mm ->
  parseEnDate (name ++ u " " ++ day ++ u ", " ++ year)
  = year ++ u "-" ++ mm ++ u "-" ++ padStart2 day.
Proof.
  intros Nn Nd Ny Sn Sd Sy Cn Cd A; unfold parseEnDate.
  assert (trim (name ++ u " " ++ day ++ u ", " ++ year)
          = name ++ u " " ++ day ++ u ", " ++ year) as ->.
  { destruct name as [|c1 t1]; [congruence|].
    destruct (last_split year Ny) as (t2 & c2 & ->).
    inversion Sn; subst.
    apply Forall_app in Sy as [_ Sy]; inversion Sy; subst.
    eapply (trim_fixed c1 c2); [reflexivity | | assumption | assumption].
    rewrite !app_assoc; reflexivity. }
  rewrite removeFirst_app by exact Cn.
  change (u " " ++ day ++ u ", " ++ year)
    with (SPACE :: (day ++ COMMA :: SPACE :: year)).
  cbn [removeFirst]; change (SPACE =? COMMA) with false; cbv iota.
  rewrite removeFirst_app by exact Cd.
  cbn [removeFirst]; rewrite N.eqb_refl.
  rewrite splitRuns_word by assumption.
  cbn [splitRuns]; change (isSpace SPACE) with true; cbv iota.
  rewrite app_nil_r, rev_involutive.
  rewrite splitRuns_word by assumption.
  cbn [splitRuns]; change (isSpace SPACE) with true; cbv iota.
  rewrite app_nil_r, rev_involutive.
  rewrite splitRuns_last by assumption; cbn [rev app].
  now rewrite (month_found _ _ _ (proj1 months_not_empty) A).
Qed.

(** X9. The French grammar: when the decoded, trimmed text is a day, a
    month name of the table in any case and a year, set apart by single
    spaces, the result is year-month-day. *)
Theorem parseFrDate_wellformed (dateStr day name year mm : jsstring) :
  trim (decodeEntities dateStr) = day ++ u " " ++ name ++ u " " ++ year ->
  ~ In SPACE day -> ~ In SPACE name -> ~ In SPACE year ->
  assoc (toLowerCase name) frMonths = Some mm ->
  parseFrDate dateStr = year ++ u "-" ++ mm ++ u "-" ++ padStart2 day.
Proof.
  intros E D N Y A; unfold parseFrDate.
  rewrite E, (splitChar_three _ _ _ D N Y).
  now rewrite (month_found _ _ _ (proj1 (proj2 months_not_empty)) A).
Qed.

(** X10. The Hebrew grammar: the same, the month name matched as it is
    written. *)
Theorem parseHeDate_wellformed (dateStr day name year mm : jsstring) :
  trim (decodeEntities dateStr) = day ++ u " " ++ name ++ u " " ++ year ->
  ~ In SPACE day -> ~ In SPACE name -> ~ In SPACE year ->
  assoc name heMonths = Some mm ->
  parseHeDate dateStr = year ++ u "-" ++ mm ++ u "-" ++ padStart2 day.
Proof.
  intros E D N Y A; unfold parseHeDate.
  rewrite E, (splitChar_three _ _ _ D N Y).
  now rewrite (month_found _ _ _ (proj2 (proj2 months_not_empty)) A).
Qed.

End DateGrammars.

Lemma parseEnDate_wellformed_witness :
  parseEnDate (u "January 5, 2025") = u "2025-01-05".
Proof.
  apply (parseEnDate_wellformed (u "January") (u "5") (u "2025") (u "01"));
    try discriminate; try (repeat constructor);
    try (simpl; intuition discriminate).
Defined.

Lemma parseFrDate_wellformed_witness :
  parseFrDate (u " 3 F&eacute;vrier 2025 ") = u "2025-02-03".
Proof.
  apply (parseFrDate_wellformed (u " 3 F&eacute;vrier 2025 ") (u "3")
                                (u "F" ++ [233] ++ u "vrier") (u "2025")
                                (u "02"));
    try (vm_compute; reflexivity); simpl; intuition discriminate.
Defined.

Lemma parseHeDate_wellformed_witness :
  parseHeDate (u "15 &#1497;&#1504;&#1493;&#1488;&#1512; 2025")
  = u "2025-01-15".
Proof.
  apply (parseHeDate_wellformed
           (u "15 &#1497;&#1504;&#1493;&#1488;&#1512; 2025") (u "15")
           [1497; 1504; 1493; 1488; 1512] (u "2025") (u "01"));
    try (vm_compute; reflexivity); simpl; intuition discriminate.
Defined.

(* ================================================================== *)
(** * Escaping and decoding                                           *)
(* ================================================================== *)

Section EscapeDecode.

Lemma pass_units (m : matcher) (e e' : codeunit -> jsstring) (s : jsstring) :
  (forall c t, replaceAll m (e c ++ t) = e' c ++ replaceAll m t) ->
  replaceAll m (flat_map e s) = flat_map e' s.
Proof.
  intros H; induction s as [|c s IH]; [reflexivity|].
  cbn [flat_map]; now rewrite H, IH.
Qed.

Lemma replaceAll_cons_none (m : matcher) c (t : jsstring) :
  m (c :: t) = None -> replaceAll m (c :: t) = c :: replaceAll m t.
Proof. intros H; unfold replaceAll; cbn [replaceG]; now rewrite H. Qed.

Lemma literal_other_head (c : codeunit) (p rep t : jsstring) :
  c <> 38 -> literal (38 :: p) rep (c :: t) = None.
Proof.
  intros N; unfold literal; cbn [startsWith].
  destruct (N.eqb_spec 38 c); [congruence | reflexivity].
Qed.

Lemma numericRef_other_head (c : codeunit) (t : jsstring) :
  c <> 38 -> numericRef (c :: t) = None.
Proof.
  intros N; destruct (numericRef (c :: t)) eqn:E; [|reflexivity].
  destruct (numericRef_head _ _ E) as (t' & K); injection K as -> _.
  now elim N.
Qed.

Lemma escapeStage_plain (a d l g : bool) (c : codeunit) :
  isPlain c = true -> escapeStage a d l g c = [c].
Proof.
  unfold isPlain, escapeStage; intros H; apply negb_true_iff in H.
  repeat (apply orb_false_iff in H as [H ?]).
  now repeat match goal with K : (_ =? _) = false |- _ => rewrite K; clear K end.
Qed.

(** The cases of a code unit: one of the four that are escaped, or
    plain. *)
Lemma unit_cases (c : codeunit) :
  c = 38 \/ c = 60 \/ c = 62 \/ c = 34 \/ isPlain c = true.
Proof.
  unfold isPlain.
  destruct (N.eqb_spec c 38); [tauto|].
  destruct (N.eqb_spec c 60); [tauto|].
  destruct (N.eqb_spec c 62); [tauto|].
  destruct (N.eqb_spec c 34); tauto.
Qed.

Lemma plain_not_amp (c : codeunit) : isPlain c = true -> c <> 38.
Proof. intros H ->; discriminate. Qed.

(** A name made of plain code units starts the escaped text exactly when
    it starts the text itself. *)
Lemma startsWith_stage (d l g : bool) (name s : jsstring) :
  Forall (fun c => isPlain c = true) name ->
  startsWith name (flat_map (escapeStage false d l g) s) = startsWith name s.
Proof.
  intros F; revert s; induction F as [|n name Pn _ IH]; intros s;
    [reflexivity|].
  destruct s as [|c s]; [reflexivity|].
  cbn [flat_map].
  destruct (unit_cases c) as [->|[->|[->|[->|Pc]]]];
    try (rewrite escapeStage_plain by exact Pc; cbn [app startsWith];
         now rewrite IH).
  all: unfold isPlain in Pn; apply negb_true_iff in Pn.
  all: repeat (apply orb_false_iff in Pn as [Pn ?]).
  all: destruct d, l, g; simpl;
    repeat match goal with K : (_ =? _) = false |- _ => rewrite K; clear K end;
    reflexivity.
Qed.

Lemma includes_cons_false (p : jsstring) c (s : jsstring) :
  includes p (c :: s) = false ->
  startsWith p (c :: s) = false /\ includes p s = false.
Proof. cbn [includes]; intros H; now apply orb_false_iff in H. Qed.

(** One of the later passes, on a text in which the reference does not
    occur: an ampersand of the text is passed over, and the other code
    units behave as they do on their own. *)
Lemma later_pass (name rep : jsstring) (d l g d' l' g' : bool)
      (s : jsstring) :
  Forall (fun c => isPlain c = true) name ->
  (forall c t, c <> 38 ->
     replaceAll (literal (38 :: name) rep) (escapeStage false d l g c ++ t)
     = escapeStage false d' l' g' c ++ replaceAll (literal (38 :: name) rep) t) ->
  includes (38 :: name) s = false ->
  replaceAll (literal (38 :: name) rep) (flat_map (escapeStage false d l g) s)
  = flat_map (escapeStage false d' l' g') s.
Proof.
  intros F U; induction s as [|c s IH]; intros I; [reflexivity|].
  apply includes_cons_false in I as [S I].
  cbn [flat_map]; destruct (N.eq_dec c 38) as [->|Nc].
  - change (escapeStage false d l g 38) with [38].
    change (escapeStage false d' l' g' 38) with [38].
    cbn [app]; rewrite replaceAll_cons_none; [now rewrite IH|].
    unfold literal; cbn [startsWith] in *; rewrite N.eqb_refl in *.
    cbn [andb] in *; now rewrite startsWith_stage, S.
  - now rewrite U, IH.
Qed.

End EscapeDecode.

Section EscapeDecodeRoundTrip.

(** Proves what a pass does to one escaped code unit, case by case. *)
Ltac unit_goal :=
  let c := fresh "c" in
  let t := fresh "t" in
  intros c t; try (let N := fresh "N" in intros N);
  destruct (unit_cases c) as [->|[->|[->|[->|Pc]]]];
  [ try (exfalso; congruence); reflexivity
  | reflexivity
  | reflexivity
  | reflexivity
  | rewrite !escapeStage_plain by exact Pc; cbn [app];
    apply replaceAll_cons_none;
    first [ apply literal_other_head | apply numericRef_other_head ];
    now apply plain_not_amp ].

Lemma escapeStage_done (s : jsstring) :
  flat_map (escapeStage false false false false) s = s.
Proof.
  induction s as [|c s IH]; [reflexivity|].
  cbn [flat_map]; rewrite IH.
  destruct (unit_cases c) as [->|[->|[->|[->|Pc]]]]; try reflexivity.
  now rewrite escapeStage_plain.
Qed.

(** The passes of [decodeEntities] over an escaped text, one by one. *)
Lemma escape_then_decode (s : jsstring) :
  Forall (fun r => includes (fst r) s = false) laterRefs ->
  decodeEntities (Build.escapeHtml s) = s.
Proof.
  intros F; rewrite escapeHtml_units.
  change (flat_map escapeUnit s)
    with (flat_map (escapeStage true true true true) s).
  unfold decodeEntities, namedRefs; cbn [fold_left].
  unfold laterRefs, namedRefs in F; cbn [skipn] in F.
  repeat match goal with
         | H : Forall _ (_ :: _) |- _ => inversion H; clear H; subst
         end.
  cbn [fst] in *.
  rewrite (pass_units numericRef _ (escapeStage true true true true))
    by unit_goal.
  rewrite (pass_units (literal (u "&mdash;") _) _
                      (escapeStage true true true true)) by unit_goal.
  rewrite (pass_units (literal (u "&rarr;") _) _
                      (escapeStage true true true true)) by unit_goal.
  rewrite (pass_units (literal (u "&larr;") _) _
                      (escapeStage true true true true)) by unit_goal.
  rewrite (pass_units (literal (u "&amp;") _) _
                      (escapeStage false true true true)) by unit_goal.
  change (u "&quot;") with (38 :: u "quot;") in *.
  rewrite (later_pass (u "quot;") _ true true true false true true)
    by first [assumption | solve [repeat constructor] | unit_goal].
  change (u "&lt;") with (38 :: u "lt;") in *.
  rewrite (later_pass (u "lt;") _ false true true false false true)
    by first [assumption | solve [repeat constructor] | unit_goal].
  change (u "&gt;") with (38 :: u "gt;") in *.
  rewrite (later_pass (u "gt;") _ false false true false false false)
    by first [assumption | solve [repeat constructor] | unit_goal].
  change (u "&euml;") with (38 :: u "euml;") in *.
  change (u "&eacute;") with (38 :: u "eacute;") in *.
  change (u "&egrave;") with (38 :: u "egrave;") in *.
  change (u "&agrave;") with (38 :: u "agrave;") in *.
  change (u "&ccedil;") with (38 :: u "ccedil;") in *.
  change (u "&Eacute;") with (38 :: u "Eacute;") in *.
  change (u "&ucirc;") with (38 :: u "ucirc;") in *.
  change (u "&ocirc;") with (38 :: u "ocirc;") in *.
  change (u "&acirc;") with (38 :: u "acirc;") in *.
  change (u "&icirc;") with (38 :: u "icirc;") in *.
  change (u "&nbsp;") with (38 :: u "nbsp;") in *.
  repeat rewrite (later_pass _ _ false false false false false false)
    by first [assumption | solve [repeat constructor] | unit_goal].
  apply escapeStage_done.
Qed.

(** X11. Escaping and decoding are a round trip on every text that holds
    none of the references decoded after [&amp;]: [decodeEntities] gives
    back what [escapeHtml] was given, ampersands included. *)
Theorem decode_escape_round_trip (s : jsstring) :
  Forall (fun r => includes (fst r) s = false) laterRefs ->
  decodeEntities (Build.escapeHtml s) = s.
Proof. exact (escape_then_decode s). Qed.

(** The condition is needed: a text that spells out a reference comes
    back decoded. *)
Example decode_escape_loses_reference :
  decodeEntities (Build.escapeHtml (u "a &lt; b")) = u "a < b".
Proof. vm_compute; reflexivity. Qed.

Lemma decode_escape_round_trip_witness :
  let s := u "Rates & <Markets> &amp; " ++ q (u "caf") ++ [233] in
  Forall (fun r => includes (fst r) s = false) laterRefs
  /\ decodeEntities (Build.escapeHtml s) = s.
Proof.
  assert (Forall (fun r => includes (fst r)
                    (u "Rates & <Markets> &amp; " ++ q (u "caf") ++ [233])
                  = false) laterRefs) as F
    by (repeat constructor).
  split; [exact F | exact (decode_escape_round_trip _ F)].
Defined.

End EscapeDecodeRoundTrip.

(* ================================================================== *)
(** * Numeric references                                              *)
(* ================================================================== *)

Section NumericReferences.

Ltac eval_ascii :=
  repeat match goal with
         | |- context [N_of_ascii ?a] =>
             let v := eval vm_compute in (N_of_ascii a) in
             change (N_of_ascii a) with v
         end.

Lemma digits_acc (d : Decimal.uint) (p : positive) :
  fold_left digitStep (u (NilEmpty.string_of_uint d)) (N.pos p)
  = N.pos (Pos.of_uint_acc d p).
Proof.
  revert p; induction d; intros p; cbn [NilEmpty.string_of_uint]; try reflexivity;
    change (u (String ?a ?s)) with (N_of_ascii a :: u s);
    cbn [fold_left Pos.of_uint_acc]; rewrite <- IHd; f_equal;
    unfold digitStep; eval_ascii; lia.
Qed.

Lemma digits_value (d : Decimal.uint) :
  digitsValue (u (NilEmpty.string_of_uint d)) = N.of_uint d.
Proof.
  unfold digitsValue, N.of_uint; fold digitStep.
  induction d; cbn [NilEmpty.string_of_uint Pos.of_uint]; try reflexivity;
    change (u (String ?a ?s)) with (N_of_ascii a :: u s);
    cbn [fold_left]; eval_ascii;
    [ exact IHd | rewrite <- digits_acc; f_equal .. ].
Qed.

(** The decimal text of a number reads back as the number. *)
Lemma digitsValue_numberToString (n : N) :
  digitsValue (numberToString n) = n.
Proof.
  unfold numberToString; rewrite digits_value; apply DecimalN.Unsigned.of_to.
Qed.

Lemma digits_are_digits (d : Decimal.uint) :
  Forall (fun c => isDigit c = true) (u (NilEmpty.string_of_uint d)).
Proof.
  induction d; cbn [NilEmpty.string_of_uint]; [constructor | ..];
    change (u (String ?a ?s)) with (N_of_ascii a :: u s);
    constructor; auto.
Qed.

Lemma numberToString_digits (n : N) :
  Forall (fun c => isDigit c = true) (numberToString n)
  /\ numberToString n <> [].
Proof.
  split; [apply digits_are_digits|].
  unfold numberToString; destruct n as [|p]; [discriminate|].
  cbn [N.to_uint]; pose proof (Unsigned.to_uint_nonnil p) as N.
  destruct (Pos.to_uint p); [congruence | discriminate ..].
Qed.

Lemma takeWhile_all (f : codeunit -> bool) (w : jsstring) c (t : jsstring) :
  Forall (fun x => f x = true) w -> f c = false ->
  takeWhile f (w ++ c :: t) = w.
Proof.
  induction 1 as [|x w Hx _ IH]; intros Hc; simpl.
  - now rewrite Hc.
  - now rewrite Hx, IH.
Qed.

Lemma replaceG_skip (m : matcher) (a t : jsstring) :
  replaceG m (length a) (a ++ t) = replaceG m 0 t.
Proof. induction a as [|c a IH]; [reflexivity | exact IH]. Qed.

Lemma named_pass_short (pat rep : jsstring) (c : codeunit) :
  (2 <= length pat)%nat -> replaceAll (literal pat rep) [c] = [c].
Proof.
  intros L; destruct pat as [|a [|b pat]]; simpl in L; try lia.
  unfold replaceAll, literal; cbn [replaceG startsWith].
  now rewrite andb_false_r.
Qed.

Lemma numericRef_match (ds t : jsstring) :
  Forall (fun c => isDigit c = true) ds -> ds <> [] ->
  numericRef (38 :: 35 :: ds ++ SEMI :: t)
  = Some ((3 + length ds)%nat, [fromCharCode_parseInt ds]).
Proof.
  intros D N; unfold numericRef; cbv beta iota zeta.
  rewrite (takeWhile_all isDigit ds SEMI t D eq_refl).
  destruct ds as [|c l] eqn:K; [congruence|]; rewrite <- K.
  now rewrite skipn_app, Nat.sub_diag, skipn_all.
Qed.

Lemma replaceAll_match (m : matcher) c (t : jsstring) len rep :
  m (c :: t) = Some (len, rep) ->
  replaceAll m (c :: t) = rep ++ replaceG m (pred len) t.
Proof. intros H; unfold replaceAll; cbn [replaceG]; now rewrite H. Qed.

(** X12. A numeric reference on its own decodes to the code unit of that
    number, taken modulo 2^16 as [String.fromCharCode] does; the number
    is read exactly as long as it is below 2^53. *)
Theorem numeric_reference_decoded (n : N) :
  n < 2 ^ 53 ->
  decodeEntities (u "&#" ++ numberToString n ++ u ";") = [n mod 65536].
Proof.
  intros B; destruct (numberToString_digits n) as [D N].
  assert (replaceAll numericRef (u "&#" ++ numberToString n ++ u ";")
          = [n mod 65536]) as E.
  { change (u "&#" ++ numberToString n ++ u ";")
      with (38 :: 35 :: numberToString n ++ SEMI :: []).
    etransitivity;
      [exact (replaceAll_match _ _ _ _ _ (numericRef_match _ [] D N))|].
    cbn [pred Nat.add].
    pose proof (replaceG_skip numericRef (35 :: numberToString n ++ [SEMI]) [])
      as K.
    rewrite app_nil_r in K; cbn [length] in K.
    rewrite length_app, Nat.add_comm in K; cbn [length Nat.add] in K.
    etransitivity; [apply f_equal, K|]; cbn [replaceG app].
    unfold fromCharCode_parseInt, toDouble.
    rewrite digitsValue_numberToString.
    apply N.ltb_lt in B; now rewrite B. }
  unfold decodeEntities; rewrite E; unfold namedRefs; cbn [fold_left].
  now rewrite !named_pass_short by (simpl; lia).
Qed.

Lemma numeric_reference_decoded_witness :
  1513 < 2 ^ 53 /\ decodeEntities (u "&#1513;") = [1513].
Proof.
  assert (1513 < 2 ^ 53) as B by (vm_compute; reflexivity).
  split; [exact B | exact (numeric_reference_decoded 1513 B)].
Defined.

End NumericReferences.

(* ================================================================== *)
(** * From a rendered fragment back to the post                       *)
(* ================================================================== *)

Section Searching.

Lemma lacks_Forall (c : codeunit) (s : jsstring) :
  lacks c s = true -> Forall (fun x => x <> c) s.
Proof.
  unfold lacks; intros H; apply Forall_forall; intros x I.
  rewrite forallb_forall in H; specialize (H _ I).
  apply negb_true_iff in H; now apply N.eqb_neq.
Qed.

Lemma lacks_app (c : codeunit) (a b : jsstring) :
  lacks c (a ++ b) = lacks c a && lacks c b.
Proof. apply forallb_app. Qed.

Lemma mismatch_startsWith (p b s : jsstring) :
  mismatch p b = true -> startsWith p (b ++ s) = false.
Proof.
  revert b; induction p as [|x p IH]; intros [|y b]; simpl; try discriminate.
  intros H; apply orb_true_iff in H as [H|H].
  - apply negb_true_iff in H; now rewrite H.
  - rewrite (IH _ H); apply andb_false_r.
Qed.

Lemma inertFor_nil (p : jsstring) : inertFor p [].
Proof.
  intros a b s E N; symmetry in E; apply app_eq_nil in E as [_ ->].
  congruence.
Qed.

Lemma inertFor_clash (p x : jsstring) : clashes p x = true -> inertFor p x.
Proof.
  induction x as [|c x IH]; intros C; [apply inertFor_nil|].
  cbn [clashes] in C; apply andb_true_iff in C as [M C].
  intros a b s E N; destruct a as [|c' a]; cbn [app] in E.
  - subst b; now apply mismatch_startsWith.
  - injection E as _ E; now apply (IH C a b s).
Qed.

Lemma inertFor_chars (c : codeunit) (p x : jsstring) :
  lacks c x = true -> inertFor (c :: p) x.
Proof.
  intros L a b s E N; destruct b as [|y b]; [congruence|].
  apply lacks_Forall in L; rewrite E in L.
  apply Forall_app in L as [_ L]; inversion L; subst.
  cbn [app startsWith]; destruct (N.eqb_spec c y); [congruence|reflexivity].
Qed.

Lemma inertFor_app (p x y : jsstring) :
  inertFor p x -> inertFor p y -> inertFor p (x ++ y).
Proof.
  intros X Y a b s E N; apply app_eq_app in E as (l & [[-> ->]|[-> ->]]).
  - destruct l as [|c l].
    + cbn [app]; apply (Y [] y s); [reflexivity|].
      destruct y; [|discriminate].
      cbn [app] in N; congruence.
    + rewrite <- app_assoc; apply (X a (c :: l)); [reflexivity|discriminate].
  - now apply (Y l b s).
Qed.

(** A match that needs [p] at its start is not found inside an inert
    text. *)
Lemma search_skip {A} (p : jsstring) (m : jsstring -> option A)
      (x s : jsstring) :
  (forall t, startsWith p t = false -> m t = None) ->
  inertFor p x ->
  search m (x ++ s) = search m s.
Proof.
  intros M; induction x as [|c x IH]; intros I; [reflexivity|].
  cbn [app search].
  rewrite M by (apply (I [] (c :: x) s); [reflexivity|discriminate]).
  apply IH; intros a b t E N; apply (I (c :: a) b t); [now rewrite E|exact N].
Qed.

Lemma search_here {A} (m : jsstring -> option A) (s : jsstring) r :
  m s = Some r -> search m s = Some r.
Proof. intros H; destruct s; simpl; now rewrite H. Qed.

Lemma lit_app (p s : jsstring) : lit p (p ++ s) = Some s.
Proof.
  unfold lit; rewrite startsWith_app.
  now rewrite skipn_app, Nat.sub_diag, skipn_all.
Qed.

Lemma lit_none (p s : jsstring) : startsWith p s = false -> lit p s = None.
Proof. intros H; unfold lit; now rewrite H. Qed.

Lemma lazyUntil_now {A} (m : jsstring -> option A) (s : jsstring) r :
  m s = Some r -> lazyUntil m s = Some ([], r).
Proof. intros H; destruct s; simpl; now rewrite H. Qed.

(** The lazy wildcard stops at the first place where what follows
    matches: here right after a text that cannot hold the start of the
    closing pattern. *)
Lemma lazyUntil_here (c : codeunit) (close f rest : jsstring) :
  lacks c f = true ->
  lazyUntil (lit (c :: close)) (f ++ c :: close ++ rest) = Some (f, rest).
Proof.
  intros L; apply lacks_Forall in L.
  induction L as [|x f Hx _ IH].
  - cbn [app]; apply lazyUntil_now, (lit_app (c :: close)).
  - cbn [app lazyUntil]; rewrite IH.
    unfold lit at 1; cbn [startsWith].
    destruct (N.eqb_spec c x); [congruence | reflexivity].
Qed.

Lemma betweenRe_none (open close s : jsstring) :
  startsWith open s = false -> betweenRe open close s = None.
Proof. intros H; unfold betweenRe; now rewrite lit_none. Qed.

Lemma betweenRe_here (c : codeunit) (open close f rest : jsstring) :
  lacks c f = true ->
  betweenRe open (c :: close) (open ++ f ++ (c :: close) ++ rest) = Some f.
Proof.
  intros L; unfold betweenRe; rewrite lit_app; cbn [app].
  now rewrite lazyUntil_here.
Qed.

Lemma takeWhile_notQuote (f rest : jsstring) :
  lacks QUOTE f = true ->
  takeWhile notQuote (f ++ QUOTE :: rest) = f.
Proof.
  intros L; apply takeWhile_all; [|reflexivity].
  apply lacks_Forall in L; eapply Forall_impl; [|exact L].
  intros x H; unfold notQuote; apply negb_true_iff; now apply N.eqb_neq.
Qed.

Lemma catAttrRe_none (s : jsstring) :
  startsWith (u "data-cat=" ++ [QUOTE]) s = false -> catAttrRe s = None.
Proof. intros H; unfold catAttrRe; now rewrite lit_none. Qed.

Lemma catAttrRe_here (cat rest : jsstring) :
  cat <> [] -> lacks QUOTE cat = true ->
  catAttrRe ((u "data-cat=" ++ [QUOTE]) ++ cat ++ QUOTE :: rest) = Some cat.
Proof.
  intros N L; unfold catAttrRe; rewrite lit_app; cbv beta iota zeta.
  rewrite takeWhile_notQuote by exact L.
  destruct cat as [|c l] eqn:K; [congruence|]; rewrite <- K.
  now rewrite skipn_app, Nat.sub_diag, skipn_all.
Qed.

Lemma imgRe_none (s : jsstring) :
  startsWith (u "<img src=" ++ [QUOTE]) s = false -> imgRe s = None.
Proof. intros H; unfold imgRe; now rewrite lit_none. Qed.

Lemma imgRe_here (src alt rest : jsstring) :
  lacks QUOTE src = true -> lacks QUOTE alt = true ->
  imgRe ((u "<img src=" ++ [QUOTE]) ++ src
           ++ (QUOTE :: u " alt=" ++ [QUOTE]) ++ alt ++ QUOTE :: rest)
  = Some (src, alt).
Proof.
  intros S A; unfold imgRe; rewrite lit_app; cbv beta iota zeta.
  change ((QUOTE :: u " alt=" ++ [QUOTE]) ++ alt ++ QUOTE :: rest)
    with (QUOTE :: (u " alt=" ++ [QUOTE]) ++ alt ++ QUOTE :: rest).
  rewrite takeWhile_notQuote by exact S.
  rewrite skipn_app, Nat.sub_diag, skipn_all; cbn [app skipn].
  change (QUOTE :: (u " alt=" ++ [QUOTE]) ++ alt ++ QUOTE :: rest)
    with ((QUOTE :: u " alt=" ++ [QUOTE]) ++ alt ++ QUOTE :: rest).
  rewrite lit_app; cbv beta iota zeta.
  rewrite takeWhile_notQuote by exact A.
  now rewrite skipn_app, Nat.sub_diag, skipn_all.
Qed.

End Searching.

Section CardShape.

Variable Intl_DateTimeFormat : jsstring -> objectLiteral -> Z -> jsstring.

(** Brings a concatenation into the form of a chain nested to the
    right. *)
Ltac flatten :=
  unfold q; repeat (rewrite <- ?app_comm_cons, <- ?app_assoc).

(** The card of the build script is its comment line and the chain of
    [cardShape]. *)
Lemma generateBlogCard_shape (post : Build.Post) (index : nat) (lang : Lang) :
  let cfg := Build.langs lang in
  Build.generateBlogCard Intl_DateTimeFormat post index lang
  = cardComment index
      ++ cardShape (rdClassOf index) (Build.category post)
           (Build.cardImgSrc post index)
           (Build.escapeHtml (orStr (Build.image_alt post) (Build.title post)))
           (toString (Build.catLabelOf cfg post))
           (Build.formatDate Intl_DateTimeFormat (Build.date post)
                             (Build.locale cfg) (Build.dateOptions cfg))
           (Build.escapeHtml (Build.title post))
           (Build.escapeHtml (Build.excerpt post))
           (Build.linkOf cfg lang
              (if jseqb (Build.category post) (u "podcasts")
               then Build.listenNow cfg else Build.readMore cfg)).
Proof.
  intros cfg; unfold Build.generateBlogCard; cbv zeta; fold cfg.
  unfold cardComment, cardShape, rdClassOf, cardA1, cardA2, cardA3, cardA4,
    cardA5, cardA7, cardA8, patCat, patImg, patAlt, patCardDate,
    patCardTitle, patCardExcerpt.
  generalize (Build.cardImgSrc post index)
    (Build.escapeHtml (orStr (Build.image_alt post) (Build.title post)))
    (toString (Build.catLabelOf cfg post))
    (Build.formatDate Intl_DateTimeFormat (Build.date post)
                      (Build.locale cfg) (Build.dateOptions cfg))
    (Build.escapeHtml (Build.title post))
    (Build.escapeHtml (Build.excerpt post))
    (Build.linkOf cfg lang
       (if jseqb (Build.category post) (u "podcasts")
        then Build.listenNow cfg else Build.readMore cfg))
    (numberToString (N.of_nat (index + 1)))
    (numberToString (N.of_nat (index mod 6 + 1)))
    (Build.category post).
  intros src alt label date title excerpt link num rd cat.
  flatten; reflexivity.
Qed.

End CardShape.

Section CardSearches.

Lemma inertFor_field (c : codeunit) (p x : jsstring) :
  startsWith [c] p = true -> lacks c x = true -> inertFor p x.
Proof.
  intros H L; destruct (startsWith_head _ _ _ H) as (t & ->).
  now apply inertFor_chars.
Qed.

Lemma rdClass_cases (index : nat) :
  In (rdClassOf index) [u "rd1"; u "rd2"; u "rd3"; u "rd4"; u "rd5"; u "rd6"].
Proof.
  unfold rdClassOf.
  assert (index mod 6 < 6)%nat as B by (apply Nat.mod_upper_bound; lia).
  destruct (index mod 6)%nat as [|[|[|[|[|[|k]]]]]]; try lia; simpl; tauto.
Qed.

(** Shows that no match of the pattern at hand starts in a piece. *)
Ltac inert :=
  first [ assumption
        | apply inertFor_clash; vm_compute; reflexivity
        | apply (inertFor_field 60); [reflexivity | assumption] ].

(** Passes over the pieces in front of the place where [p] is. *)
Ltac skip_to p mnone :=
  repeat match goal with
         | |- context [search ?m (?x ++ ?s)] =>
             rewrite (search_skip p m x s mnone) by inert
         end.

Lemma card_searches (pre post rd cat src alt label date title excerpt link
                     : jsstring) :
  In rd [u "rd1"; u "rd2"; u "rd3"; u "rd4"; u "rd5"; u "rd6"] ->
  inertForCard pre ->
  cat <> [] -> lacks QUOTE cat = true -> lacks 60 cat = true ->
  lacks QUOTE src = true -> lacks 60 src = true ->
  lacks QUOTE alt = true -> lacks 60 alt = true ->
  lacks 60 label = true -> lacks 60 date = true ->
  lacks 60 title = true -> lacks 60 excerpt = true ->
  let block :=
    pre ++ cardShape rd cat src alt label date title excerpt link ++ post in
  search catAttrRe block = Some cat
  /\ search imgRe block = Some (src, alt)
  /\ search (betweenRe patCardDate (u "</div>")) block = Some date
  /\ search (betweenRe patCardTitle (u "</a></h3>")) block = Some title
  /\ search (betweenRe patCardExcerpt (u "</p>")) block = Some excerpt.
Proof.
  intros Rd (I1 & I2 & I3 & I4 & I5) Nc Qc Lc Qs Ls Qa La Ll Ld Lt Le block.
  subst block; unfold cardShape; rewrite <- !app_assoc.
  assert (inertFor patCat (cardA1 rd) /\ inertFor patImg (cardA1 rd)
          /\ inertFor patCardDate (cardA1 rd)
          /\ inertFor patCardTitle (cardA1 rd)
          /\ inertFor patCardExcerpt (cardA1 rd)) as (R1 & R2 & R3 & R4 & R5).
  { cbn [In] in Rd.
    repeat (destruct Rd as [<-|Rd]; [repeat split; inert|]); contradiction. }
  repeat split.
  - skip_to patCat catAttrRe_none.
    apply search_here, (catAttrRe_here cat _ Nc Qc).
  - skip_to patImg imgRe_none.
    apply search_here.
    exact (imgRe_here src alt _ Qs Qa).
  - skip_to patCardDate (betweenRe_none patCardDate (u "</div>")).
    apply search_here.
    exact (betweenRe_here 60 patCardDate (u "/div>") date _ Ld).
  - skip_to patCardTitle (betweenRe_none patCardTitle (u "</a></h3>")).
    apply search_here.
    exact (betweenRe_here 60 patCardTitle (u "/a></h3>") title _ Lt).
  - skip_to patCardExcerpt (betweenRe_none patCardExcerpt (u "</p>")).
    apply search_here.
    exact (betweenRe_here 60 patCardExcerpt (u "/p>") excerpt _ Le).
Qed.

End CardSearches.

Section CardRoundTrip.

Variable Intl_DateTimeFormat : jsstring -> objectLiteral -> Z -> jsstring.

Lemma lacks_intro (c : codeunit) (s : jsstring) :
  (forall x, In x s -> x <> c) -> lacks c s = true.
Proof.
  intros H; apply forallb_forall; intros x I.
  apply negb_true_iff, N.eqb_neq; now apply H.
Qed.

Lemma escapeHtml_lacks (s : jsstring) :
  lacks QUOTE (Build.escapeHtml s) = true
  /\ lacks 60 (Build.escapeHtml s) = true.
Proof.
  split; apply lacks_intro; intros x I; now apply escapeHtml_safe in I.
Qed.

Lemma decodable_round_trip (s : jsstring) :
  decodable s = true -> decodeEntities (Build.escapeHtml s) = s.
Proof.
  intros D; apply escape_then_decode, Forall_forall; intros r I.
  unfold decodable in D; rewrite forallb_forall in D.
  now apply negb_true_iff, D.
Qed.

Lemma escapeUnit_ends (c : codeunit) :
  isSpace c = false ->
  exists h w z v, escapeUnit c = h :: w /\ escapeUnit c = v ++ [z]
                  /\ isSpace h = false /\ isSpace z = false.
Proof.
  intros S; change (escapeUnit c) with (escapeStage true true true true c).
  destruct (unit_cases c) as [->|[->|[->|[->|Pc]]]].
  - exists 38, (u "amp;"), SEMI, (u "&amp"); repeat split.
  - exists 38, (u "lt;"), SEMI, (u "&lt"); repeat split.
  - exists 38, (u "gt;"), SEMI, (u "&gt"); repeat split.
  - exists 38, (u "quot;"), SEMI, (u "&quot"); repeat split.
  - rewrite escapeStage_plain by exact Pc.
    exists c, [], c, []; repeat split; assumption.
Qed.

(** Escaping brings no white space to the ends of a text. *)
Lemma trim_escapeHtml (t : jsstring) :
  noEdgeSpace t = true -> trim (Build.escapeHtml t) = Build.escapeHtml t.
Proof.
  intros E; rewrite escapeHtml_units; destruct t as [|c t]; [reflexivity|].
  cbn [noEdgeSpace] in E; apply andb_true_iff in E as [E1 E2].
  apply negb_true_iff in E1, E2.
  assert (exists r, c :: t = r ++ [last (c :: t) 0]) as (r & R)
    by (exists (removelast (c :: t)); now apply app_removelast_last).
  remember (last (c :: t) 0) as l eqn:Hl; clear Hl.
  destruct (escapeUnit_ends c E1) as (h & w & _ & _ & Eh & _ & Sh & _).
  destruct (escapeUnit_ends l E2) as (_ & _ & z & v & _ & Ez & _ & Sz).
  apply (trim_fixed h z (w ++ flat_map escapeUnit t)
                    (flat_map escapeUnit r ++ v));
    [| |exact Sh|exact Sz].
  - cbn [flat_map]; rewrite Eh; reflexivity.
  - rewrite R, flat_map_app; cbn [flat_map]; rewrite Ez, app_nil_r.
    now rewrite app_assoc.
Qed.

Lemma orStr_nil (a b : jsstring) : orStr a b = [] -> b = [].
Proof. destruct a; [auto | discriminate]. Qed.

Lemma escapeHtml_nil (s : jsstring) : Build.escapeHtml s = [] -> s = [].
Proof.
  rewrite escapeHtml_units; destruct s as [|c s]; [reflexivity|].
  cbn [flat_map]; change (escapeUnit c) with (escapeStage true true true true c).
  destruct (unit_cases c) as [->|[->|[->|[->|Pc]]]]; try discriminate.
  rewrite escapeStage_plain by exact Pc; discriminate.
Qed.

(** The alt text of the fragment decodes to the alt text that was
    rendered, also when [parsePost] falls back on the title. *)
Lemma slug_source_back (a t : jsstring) :
  decodable a = true -> (a = [] -> t = []) ->
  decodeEntities (orStr (Build.escapeHtml a) t) = a.
Proof.
  intros D E; destruct (Build.escapeHtml a) eqn:K.
  - apply escapeHtml_nil in K; subst a; rewrite (E eq_refl); reflexivity.
  - cbn [orStr]; rewrite <- K; now apply decodable_round_trip.
Qed.

(** A label never holds [<] when the category holds none. *)
Lemma catLabel_lacks (lang : Lang) (post : Build.Post) :
  lacks 60 (Build.category post) = true ->
  lacks 60 (toString (Build.catLabelOf (Build.langs lang) post)) = true.
Proof.
  intros L; unfold Build.catLabelOf, getProp.
  destruct (assoc _ (Build.categoryLabels _)) as [s|] eqn:A.
  - apply assoc_In in A.
    assert (lacks 60 s = true) as Ls.
    { destruct lang; cbn [Build.langs Build.categoryLabels In] in A;
        repeat (destruct A as [A|A]; [injection A as _ <-; reflexivity|]);
        contradiction. }
    destruct s; [exact L | exact Ls].
  - destruct (assoc _ Object_prototype) as [v|] eqn:P; [|exact L].
    apply assoc_In in P; cbn [Object_prototype In] in P.
    repeat (destruct P as [P|P]; [injection P as _ <-; reflexivity|]).
    contradiction.
Qed.

Lemma cardImgSrc_lacks (post : Build.Post) (index : nat) :
  lacks QUOTE (Build.image post) = true -> lacks 60 (Build.image post) = true ->
  lacks QUOTE (Build.cardImgSrc post index) = true
  /\ lacks 60 (Build.cardImgSrc post index) = true.
Proof.
  intros Q L; unfold Build.cardImgSrc; cbv zeta.
  destruct (Build.image post) as [|c s]; [|now split].
  cbn [orStr length Build.cardColors].
  assert (index mod 6 < 6)%nat as B by (apply Nat.mod_upper_bound; lia).
  destruct (index mod 6)%nat as [|[|[|[|[|[|k]]]]]]; try lia;
    split; reflexivity.
Qed.

(** What [parsePost] finds in a card that stands after a harmless text,
    whatever comes after the card. *)
Lemma parsePost_card (post : Build.Post) (index : nat) (lang : Lang)
      (pre rest : jsstring) :
  let cfg := Build.langs lang in
  let shown :=
    Build.formatDate Intl_DateTimeFormat (Build.date post) (Build.locale cfg)
                     (Build.dateOptions cfg) in
  inertForCard pre ->
  comesBack post = true ->
  lacks 60 shown = true ->
  parsePost
    (pre ++ cardShape (rdClassOf index) (Build.category post)
            (Build.cardImgSrc post index)
            (Build.escapeHtml (orStr (Build.image_alt post) (Build.title post)))
            (toString (Build.catLabelOf cfg post))
            shown
            (Build.escapeHtml (Build.title post))
            (Build.escapeHtml (Build.excerpt post))
            (Build.linkOf cfg lang
               (if jseqb (Build.category post) (u "podcasts")
                then Build.listenNow cfg else Build.readMore cfg))
         ++ rest)
    lang false
  = reextracted lang post (Build.cardImgSrc post index) shown false.
Proof.
  intros cfg shown I C Ld; unfold comesBack in C.
  repeat (apply andb_true_iff in C as [C ?]).
  assert (Build.category post <> []) as Nc
    by (destruct (Build.category post); [discriminate C | discriminate]).
  destruct (cardImgSrc_lacks post index) as [Qs Ls]; try assumption.
  destruct (escapeHtml_lacks (orStr (Build.image_alt post) (Build.title post)))
    as [Qa La].
  destruct (escapeHtml_lacks (Build.title post)) as [_ Lt].
  destruct (escapeHtml_lacks (Build.excerpt post)) as [_ Le].
  pose proof (catLabel_lacks lang post) as Ll.
  match goal with
  | |- parsePost (pre ++ cardShape ?rd ?cat ?src ?alt ?label ?date ?title
                                   ?excerpt ?link ++ rest) _ _ = _ =>
      destruct (card_searches pre rest rd cat src alt label date title excerpt
                              link (rdClass_cases index) I)
        as (S1 & S2 & S3 & S4 & S5); auto
  end.
  unfold patCardDate, patCardTitle, patCardExcerpt in S3, S4, S5.
  unfold parsePost; cbv beta iota zeta.
  rewrite S1, S2, S3, S4, S5; unfold trimmedOrEmpty.
  rewrite !trim_escapeHtml, !decodable_round_trip by assumption.
  unfold reextracted, parseDateOf, slugSourceOf; f_equal.
  destruct lang; try reflexivity;
    (rewrite slug_source_back; [reflexivity | assumption | apply orStr_nil]).
Qed.

End CardRoundTrip.

Section CardFragment.

Variable Intl_DateTimeFormat : jsstring -> objectLiteral -> Z -> jsstring.

Lemma digits_lack (c : codeunit) (n : N) :
  isDigit c = false -> lacks c (numberToString n) = true.
Proof.
  intros H; apply lacks_intro; intros x I ->.
  destruct (numberToString_digits n) as [D _].
  rewrite Forall_forall in D; rewrite (D _ I) in H; discriminate.
Qed.

Lemma inertForCard_comment (index : nat) : inertForCard (cardComment index).
Proof.
  unfold inertForCard, cardComment.
  repeat split; repeat apply inertFor_app;
    first [ apply inertFor_clash; vm_compute; reflexivity
          | apply (inertFor_field 60); [reflexivity | now apply digits_lack]
          | apply (inertFor_field 100); [reflexivity | now apply digits_lack] ].
Qed.

(** X13. A card parses back: from the fragment that [generateBlogCard]
    makes of a post, [parsePost] gets the title, the category and the
    excerpt of the post, the image address of the fragment (the
    placeholder when the post has none), the alt text or else the title as
    alt text, and the date as its grammar reads the date shown. *)
Theorem card_parsed_back (post : Build.Post) (index : nat) (lang : Lang) :
  let cfg := Build.langs lang in
  let shown :=
    Build.formatDate Intl_DateTimeFormat (Build.date post) (Build.locale cfg)
                     (Build.dateOptions cfg) in
  comesBack post = true ->
  lacks 60 shown = true ->
  parsePost (Build.generateBlogCard Intl_DateTimeFormat post index lang)
            lang false
  = reextracted lang post (Build.cardImgSrc post index) shown false.
Proof.
  intros cfg shown C L; rewrite generateBlogCard_shape.
  match goal with
  | |- parsePost (_ ++ ?s) _ _ = _ => rewrite <- (app_nil_r s)
  end.
  apply parsePost_card; auto using inertForCard_comment.
Qed.

End CardFragment.

Lemma card_parsed_back_witness :
  comesBack samplePost = true
  /\ parsePost (Build.generateBlogCard fixedDate samplePost 7 fr) fr false
     = reextracted fr samplePost (u "img/a.png?w=800&h=500") (u "23.1.2025")
                   false.
Proof.
  assert (comesBack samplePost = true) as C by (vm_compute; reflexivity).
  split; [exact C|].
  apply (card_parsed_back fixedDate samplePost 7 fr C).
  vm_compute; reflexivity.
Defined.

Section FeaturedShape.

Variable Intl_DateTimeFormat : jsstring -> objectLiteral -> Z -> jsstring.

Ltac flatten :=
  unfold q; repeat (rewrite <- ?app_comm_cons, <- ?app_assoc).

Ltac inert :=
  first [ assumption
        | apply inertFor_clash; vm_compute; reflexivity
        | apply (inertFor_field 60); [reflexivity | assumption] ].

Ltac skip_to p mnone :=
  repeat match goal with
         | |- context [search ?m (?x ++ ?s)] =>
             rewrite (search_skip p m x s mnone) by inert
         end.

(** The featured fragment of the build script is its comment line and the
    chain of [featShape]. *)
Lemma generateFeaturedPost_shape (post : Build.Post) (lang : Lang) :
  let cfg := Build.langs lang in
  Build.generateFeaturedPost Intl_DateTimeFormat post lang
  = featComment
      ++ featShape (Build.isHe lang) (Build.category post)
           (Build.featuredImgSrc post)
           (Build.escapeHtml (orStr (Build.image_alt post) (Build.title post)))
           (toString (Build.catLabelOf cfg post))
           (Build.formatDate Intl_DateTimeFormat (Build.date post)
                             (Build.locale cfg) (Build.dateOptions cfg))
           (Build.escapeHtml (Build.title post))
           (Build.escapeHtml (Build.excerpt post))
           (Build.linkOf cfg lang
              (if jseqb (Build.category post) (u "podcasts")
               then Build.listenNow cfg else Build.readFull cfg)).
Proof.
  intros cfg.
  unfold Build.generateFeaturedPost, Build.featuredImgBlock,
    Build.featuredBodyBlock; cbv zeta; fold cfg.
  unfold featComment, featShape, featImgShape, featBodyShape, featuredOpen,
    featB1, featI1, featI2, featC1, featC2, featC3, featC4, featC5, featTail,
    patCat, patImg, patAlt, patFeatDate, patFeatTitle, patFeatExcerpt.
  generalize (Build.featuredImgSrc post)
    (Build.escapeHtml (orStr (Build.image_alt post) (Build.title post)))
    (toString (Build.catLabelOf cfg post))
    (Build.formatDate Intl_DateTimeFormat (Build.date post)
                      (Build.locale cfg) (Build.dateOptions cfg))
    (Build.escapeHtml (Build.title post))
    (Build.escapeHtml (Build.excerpt post))
    (Build.linkOf cfg lang
       (if jseqb (Build.category post) (u "podcasts")
        then Build.listenNow cfg else Build.readFull cfg))
    (Build.category post).
  intros src alt label date title excerpt link cat.
  destruct (Build.isHe lang); flatten; reflexivity.
Qed.

Lemma featured_searches (hebrew : bool)
      (pre post cat src alt label date title excerpt link : jsstring) :
  inertForFeatured pre ->
  cat <> [] -> lacks QUOTE cat = true -> lacks 60 cat = true ->
  lacks QUOTE src = true -> lacks 60 src = true ->
  lacks QUOTE alt = true -> lacks 60 alt = true ->
  lacks 60 label = true -> lacks 60 date = true ->
  lacks 60 title = true -> lacks 60 excerpt = true ->
  lacks 60 link = true ->
  let block :=
    pre ++ featShape hebrew cat src alt label date title excerpt link
        ++ post in
  search catAttrRe block = Some cat
  /\ search imgRe block = Some (src, alt)
  /\ search (betweenRe patFeatDate (u "</div>")) block = Some date
  /\ search (betweenRe patFeatTitle (u "</a></h2>")) block = Some title
  /\ search (betweenRe patFeatExcerpt (u "</p>")) block = Some excerpt.
Proof.
  intros (I1 & I2 & I3 & I4 & I5) Nc Qc Lc Qs Ls Qa La Ll Ld Lt Le Lk block.
  subst block; unfold featShape, featImgShape, featBodyShape.
  destruct hebrew; rewrite <- !app_assoc; repeat split.
  all: try (skip_to patCat catAttrRe_none;
            apply search_here, (catAttrRe_here cat _ Nc Qc)).
  all: try (skip_to patImg imgRe_none;
            apply search_here; exact (imgRe_here src alt _ Qs Qa)).
  all: try (skip_to patFeatDate (betweenRe_none patFeatDate (u "</div>"));
            apply search_here;
            exact (betweenRe_here 60 patFeatDate (u "/div>") date _ Ld)).
  all: try (skip_to patFeatTitle (betweenRe_none patFeatTitle (u "</a></h2>"));
            apply search_here;
            exact (betweenRe_here 60 patFeatTitle (u "/a></h2>") title _ Lt)).
  all: skip_to patFeatExcerpt (betweenRe_none patFeatExcerpt (u "</p>"));
       apply search_here;
       exact (betweenRe_here 60 patFeatExcerpt (u "/p>") excerpt _ Le).
Qed.

Lemma featuredImgSrc_lacks (post : Build.Post) :
  lacks QUOTE (Build.image post) = true -> lacks 60 (Build.image post) = true ->
  lacks QUOTE (Build.featuredImgSrc post) = true
  /\ lacks 60 (Build.featuredImgSrc post) = true.
Proof.
  intros Q L; unfold Build.featuredImgSrc.
  destruct (Build.image post) as [|c s]; [split; reflexivity | now split].
Qed.

Lemma link_lacks (lang : Lang) (b : bool) :
  lacks 60 (Build.linkOf (Build.langs lang) lang
              (if b then Build.listenNow (Build.langs lang)
               else Build.readFull (Build.langs lang))) = true.
Proof. destruct lang, b; reflexivity. Qed.

(** What [parsePost] finds in a featured fragment that stands after a
    harmless text, whatever comes after it. *)
Lemma parsePost_featured (post : Build.Post) (lang : Lang)
      (pre rest : jsstring) :
  let cfg := Build.langs lang in
  let shown :=
    Build.formatDate Intl_DateTimeFormat (Build.date post) (Build.locale cfg)
                     (Build.dateOptions cfg) in
  inertForFeatured pre ->
  comesBack post = true ->
  lacks 60 shown = true ->
  parsePost
    (pre ++ featShape (Build.isHe lang) (Build.category post)
            (Build.featuredImgSrc post)
            (Build.escapeHtml (orStr (Build.image_alt post) (Build.title post)))
            (toString (Build.catLabelOf cfg post))
            shown
            (Build.escapeHtml (Build.title post))
            (Build.escapeHtml (Build.excerpt post))
            (Build.linkOf cfg lang
               (if jseqb (Build.category post) (u "podcasts")
                then Build.listenNow cfg else Build.readFull cfg))
         ++ rest)
    lang true
  = reextracted lang post (Build.featuredImgSrc post) shown true.
Proof.
  intros cfg shown I C Ld; unfold comesBack in C.
  repeat (apply andb_true_iff in C as [C ?]).
  assert (Build.category post <> []) as Nc
    by (destruct (Build.category post); [discriminate C | discriminate]).
  destruct (featuredImgSrc_lacks post) as [Qs Ls]; try assumption.
  destruct (escapeHtml_lacks (orStr (Build.image_alt post) (Build.title post)))
    as [Qa La].
  destruct (escapeHtml_lacks (Build.title post)) as [_ Lt].
  destruct (escapeHtml_lacks (Build.excerpt post)) as [_ Le].
  pose proof (catLabel_lacks lang post) as Ll.
  pose proof (link_lacks lang (jseqb (Build.category post) (u "podcasts")))
    as Lk.
  match goal with
  | |- parsePost (pre ++ featShape ?h ?cat ?src ?alt ?label ?date ?title
                                   ?excerpt ?link ++ rest) _ _ = _ =>
      destruct (featured_searches h pre rest cat src alt label date title
                                  excerpt link I)
        as (S1 & S2 & S3 & S4 & S5); auto
  end.
  unfold patFeatDate, patFeatTitle, patFeatExcerpt in S3, S4, S5.
  unfold parsePost; cbv beta iota zeta.
  rewrite S1, S2, S3, S4, S5; unfold trimmedOrEmpty.
  rewrite !trim_escapeHtml, !decodable_round_trip by assumption.
  unfold reextracted, parseDateOf, slugSourceOf; f_equal.
  destruct lang; try reflexivity;
    (rewrite slug_source_back; [reflexivity | assumption | apply orStr_nil]).
Qed.

Lemma inertForFeatured_comment : inertForFeatured featComment.
Proof.
  repeat split; apply inertFor_clash; vm_compute; reflexivity.
Qed.

(** X14. The featured fragment parses back in the same way, whichever of
    the image block and the body block comes first. *)
Theorem featured_parsed_back (post : Build.Post) (lang : Lang) :
  let cfg := Build.langs lang in
  let shown :=
    Build.formatDate Intl_DateTimeFormat (Build.date post) (Build.locale cfg)
                     (Build.dateOptions cfg) in
  comesBack post = true ->
  lacks 60 shown = true ->
  parsePost (Build.generateFeaturedPost Intl_DateTimeFormat post lang)
            lang true
  = reextracted lang post (Build.featuredImgSrc post) shown true.
Proof.
  intros cfg shown C L; rewrite generateFeaturedPost_shape.
  match goal with
  | |- parsePost (_ ++ ?s) _ _ = _ => rewrite <- (app_nil_r s)
  end.
  apply parsePost_featured; auto using inertForFeatured_comment.
Qed.

End FeaturedShape.

Lemma featured_parsed_back_witness :
  comesBack samplePost = true
  /\ parsePost (Build.generateFeaturedPost fixedDate samplePost he) he true
     = reextracted he samplePost (u "img/a.png?w=800&h=500") (u "23.1.2025")
                   true.
Proof.
  assert (comesBack samplePost = true) as C by (vm_compute; reflexivity).
  split; [exact C|].
  apply (featured_parsed_back fixedDate samplePost he C).
  vm_compute; reflexivity.
Defined.

(* ================================================================== *)
(** * From a built page back to the posts                             *)
(* ================================================================== *)

Section Closing.

Lemma mismatch_nil (p : jsstring) : mismatch p [] = false.
Proof. now destruct p. Qed.

Lemma lit_ext (p b s r : jsstring) :
  lit p b = Some r -> lit p (b ++ s) = Some (r ++ s).
Proof.
  intros H; rewrite (lit_suffix _ _ _ H), <- app_assoc; apply lit_app.
Qed.

Lemma dropWhile_ext (f : codeunit -> bool) (b s : jsstring) :
  dropWhile f b <> [] ->
  dropWhile f (b ++ s) = dropWhile f b ++ s
  /\ takeWhile f (b ++ s) = takeWhile f b.
Proof.
  induction b as [|c b IH]; simpl; [congruence|].
  destruct (f c); [|now split].
  intros H; destruct (IH H) as [-> ->]; now split.
Qed.

(** What [closeFails] tells holds whatever follows. *)
Lemma closeFails_sound (two : bool) (last b s : jsstring) :
  closeFails two last b = true ->
  lit divClose (b ++ s) >>= ws >>= lit divClose
    >>= (if two then wsTwoNewlines else ws) >>= lit last = None.
Proof.
  unfold closeFails; intros H; apply orb_true_iff in H as [H|H].
  { now rewrite (lit_none _ _ (mismatch_startsWith _ _ s H)). }
  destruct (lit divClose b) as [b1|] eqn:E1; [|discriminate].
  rewrite (lit_ext _ _ s _ E1); cbn [andThen]; unfold ws at 1; cbn [andThen].
  cbv zeta in H; apply orb_true_iff in H as [H|H].
  { assert (dropWhile isSpace b1 <> []) as N
      by (intros Z; rewrite Z, mismatch_nil in H; discriminate).
    destruct (dropWhile_ext isSpace b1 s N) as [-> _].
    now rewrite (lit_none _ _ (mismatch_startsWith _ _ s H)). }
  destruct (lit divClose (dropWhile isSpace b1)) as [b3|] eqn:E3;
    [|discriminate].
  assert (dropWhile isSpace b1 <> []) as N
    by (intros Z; rewrite Z in E3; discriminate).
  destruct (dropWhile_ext isSpace b1 s N) as [-> _].
  rewrite (lit_ext _ _ s _ E3); cbn [andThen].
  destruct (dropWhile isSpace b3) as [|c b4] eqn:E4; [discriminate|].
  assert (dropWhile isSpace b3 <> []) as N3 by congruence.
  destruct (dropWhile_ext isSpace b3 s N3) as [D T]; rewrite E4 in D.
  apply orb_true_iff in H as [H|H].
  - apply andb_true_iff in H as [-> H]; unfold wsTwoNewlines.
    rewrite T; apply Nat.ltb_lt in H.
    destruct (Nat.leb_spec 2 (count_occ N.eq_dec (takeWhile isSpace b3) NL));
      [lia | reflexivity].
  - assert (lit last ((c :: b4) ++ s) = None) as L
      by apply lit_none, mismatch_startsWith, H.
    destruct two; unfold wsTwoNewlines, ws;
      [destruct (2 <=? _)%nat; [|reflexivity]|]; cbn [andThen];
      now rewrite D.
Qed.

Lemma featuredClose_fails (b s : jsstring) :
  closeFails true gridComment b = true -> featuredClose (b ++ s) = None.
Proof. exact (closeFails_sound true gridComment b s). Qed.

Lemma gridClose_fails (b s : jsstring) :
  closeFails false (u "</section>") b = true -> gridClose (b ++ s) = None.
Proof. exact (closeFails_sound false (u "</section>") b s). Qed.

Lemma failsAll_dead {A} (m : jsstring -> option A) (f : jsstring -> bool) :
  (forall b s, f b = true -> m (b ++ s) = None) ->
  forall x y s, failsAll f x y = true -> deadFor m x (y ++ s).
Proof.
  intros F x y s; induction x as [|c x IH]; intros H a b E N.
  - symmetry in E; apply app_eq_nil in E as [_ ->]; congruence.
  - cbn [failsAll] in H; apply andb_true_iff in H as [H1 H2].
    destruct a as [|c' a]; cbn [app] in E.
    + subst b; rewrite app_assoc; apply F, H1.
    + injection E as _ E; now apply (IH H2 a b).
Qed.

Lemma failsAll_always {A} (m : jsstring -> option A) (f : jsstring -> bool) :
  (forall b s, f b = true -> m (b ++ s) = None) ->
  forall x, failsAll f x [] = true -> deadAlways m x.
Proof. intros F x H s; exact (failsAll_dead m f F x [] s H). Qed.

Lemma deadAlways_inert {A} (m : jsstring -> option A) (p x : jsstring) :
  (forall t, startsWith p t = false -> m t = None) ->
  inertFor p x -> deadAlways m x.
Proof. intros M I s a b E N; apply M, (I a b s E N). Qed.

Lemma deadFor_app {A} (m : jsstring -> option A) (x y s : jsstring) :
  deadFor m x (y ++ s) -> deadFor m y s -> deadFor m (x ++ y) s.
Proof.
  intros X Y a b E N; apply app_eq_app in E as (l & [[-> ->]|[-> ->]]).
  - destruct l as [|c l].
    + cbn [app]; apply (Y [] y); [reflexivity | exact N].
    + rewrite <- app_assoc; apply (X a (c :: l)); [reflexivity | discriminate].
  - now apply (Y l b).
Qed.

Lemma deadAlways_app {A} (m : jsstring -> option A) (x y : jsstring) :
  deadAlways m x -> deadAlways m y -> deadAlways m (x ++ y).
Proof. intros X Y s; apply deadFor_app; [apply X | apply Y]. Qed.

Lemma deadAlways_then {A} (m : jsstring -> option A) (x y s : jsstring) :
  deadAlways m x -> deadFor m y s -> deadFor m (x ++ y) s.
Proof. intros X Y; apply deadFor_app; [apply X | exact Y]. Qed.

Lemma deadFor_nil {A} (m : jsstring -> option A) (s : jsstring) :
  deadFor m [] s.
Proof.
  intros a b E N; symmetry in E; apply app_eq_nil in E as [_ ->]; congruence.
Qed.

(** The lazy wildcard runs over a text in which the closing expression
    matches nowhere. *)
Lemma lazyUntil_skip {A} (m : jsstring -> option A) (x s : jsstring) :
  deadFor m x s ->
  lazyUntil m (x ++ s)
  = match lazyUntil m s with
    | Some (b, r) => Some (x ++ b, r)
    | None => None
    end.
Proof.
  induction x as [|c x IH]; intros D.
  - cbn [app]; now destruct (lazyUntil m s) as [[b r]|].
  - cbn [app lazyUntil].
    change (c :: x ++ s) with ((c :: x) ++ s).
    rewrite (D [] (c :: x) eq_refl) by discriminate.
    rewrite IH by (intros a b ->; apply (D (c :: a) b eq_refl)).
    now destruct (lazyUntil m s) as [[b r]|].
Qed.

Lemma splitG_inert (m : jsstring -> option nat) (x s cur : jsstring) :
  deadFor m x s ->
  splitG m 0 cur (x ++ s) = splitG m 0 (rev x ++ cur) s.
Proof.
  revert cur; induction x as [|c x IH]; intros cur D; [reflexivity|].
  cbn [app splitG]; change (c :: x ++ s) with ((c :: x) ++ s).
  rewrite (D [] (c :: x) eq_refl) by discriminate.
  rewrite IH by (intros a b ->; apply (D (c :: a) b eq_refl)).
  cbn [rev]; now rewrite <- app_assoc.
Qed.

Lemma splitG_skip (m : jsstring -> option nat) (x s cur : jsstring) :
  splitG m (length x) cur (x ++ s) = splitG m 0 cur s.
Proof. induction x as [|c x IH]; [reflexivity | exact IH]. Qed.

Lemma splitG_last (m : jsstring -> option nat) (x cur : jsstring) :
  deadFor m x [] -> m [] = None -> splitG m 0 cur x = [rev (rev x ++ cur)].
Proof.
  intros D E; rewrite <- (app_nil_r x) at 1.
  now rewrite splitG_inert.
Qed.

Lemma postMarkerRe_none (s : jsstring) :
  startsWith (u "<!-- Post ") s = false -> postMarkerRe s = None.
Proof. intros H; unfold postMarkerRe; now rewrite lit_none. Qed.

Lemma postMarkerRe_match (index : nat) (t : jsstring) :
  postMarkerRe (postMarker index ++ t) = Some (length (postMarker index)).
Proof.
  unfold postMarker, postMarkerRe.
  destruct (numberToString_digits (N.of_nat (index + 1))) as [D N].
  set (ds := numberToString _) in *.
  rewrite <- !app_assoc, lit_app; cbv beta iota zeta.
  assert (takeWhile isDigit (ds ++ u " -->" ++ t) = ds) as T
    by exact (takeWhile_all isDigit ds 32 (u "-->" ++ t) D eq_refl).
  rewrite T.
  destruct ds as [|c l] eqn:K; [congruence|]; rewrite <- K.
  rewrite skipn_app, Nat.sub_diag, skipn_all; cbn [app skipn].
  rewrite lit_app, !length_app; reflexivity.
Qed.

Lemma splitG_marker (index : nat) (cur t : jsstring) :
  splitG postMarkerRe 0 cur (postMarker index ++ t)
  = rev cur :: splitG postMarkerRe 0 [] t.
Proof.
  pose proof (postMarkerRe_match index t) as M.
  unfold postMarker in *; rewrite <- !app_assoc in *.
  change (u "<!-- Post " ++ ?r) with (60 :: u "!-- Post " ++ r) in *.
  cbn [splitG]; rewrite M; cbn [length pred]; f_equal.
  set (x := u "!-- Post " ++ numberToString _ ++ u " -->").
  replace (u "!-- Post " ++ numberToString (N.of_nat (index + 1))
             ++ u " -->" ++ t)
    with (x ++ t) by (unfold x; now rewrite <- !app_assoc).
  apply splitG_skip.
Qed.

End Closing.

Section FeaturedOnPage.

Variable Intl_DateTimeFormat : jsstring -> objectLiteral -> Z -> jsstring.

Ltac flatten :=
  unfold q; repeat (rewrite <- ?app_comm_cons, <- ?app_assoc).

(** A match of [p] that starts before [y] ends before [y]. *)
Lemma shifts_sound (p y : jsstring) :
  shifts p y = true ->
  forall b s, b <> [] -> startsWith p (b ++ y ++ s) = true ->
              startsWith p b = true.
Proof.
  intros S b; revert p S; induction b as [|c b IH]; intros p S s N H;
    [congruence|].
  destruct p as [|a p]; [reflexivity|].
  cbn [app startsWith] in *; apply andb_true_iff in H as [-> H].
  cbn [shifts] in S; apply andb_true_iff in S as [M S]; cbn [andb].
  destruct b as [|c' b].
  - destruct p as [|a' p]; [reflexivity|].
    cbn [app] in H; now rewrite (mismatch_startsWith _ _ s M) in H.
  - apply (IH p S s); [discriminate | exact H].
Qed.

Lemma inert_before (p x y : jsstring) :
  includes p x = false -> shifts p y = true -> clashes p y = true ->
  inertFor p (x ++ y).
Proof.
  intros I S C a b s E N; apply inertFor_clash in C.
  apply app_eq_app in E as (l & [[-> ->]|[-> ->]]).
  - destruct l as [|c l]; [now apply (C [] y)|].
    rewrite <- app_assoc.
    destruct (startsWith p ((c :: l) ++ y ++ s)) eqn:W; [|reflexivity].
    apply shifts_sound in W; [|exact S|discriminate].
    now rewrite (includes_suffix p a _ (includes_here _ _ W)) in I.
  - now apply (C l b).
Qed.

Lemma featuredRe_none (s : jsstring) :
  startsWith featuredOpen s = false -> featuredRe s = None.
Proof. intros H; unfold featuredRe; fold featuredOpen; now rewrite lit_none. Qed.

Lemma gridRe_none (s : jsstring) :
  startsWith gridComment s = false -> gridRe s = None.
Proof.
  intros H; unfold gridRe; fold gridComment; now rewrite lit_none.
Qed.

Lemma featuredClose_none (s : jsstring) :
  startsWith divClose s = false -> featuredClose s = None.
Proof.
  intros H; unfold featuredClose; fold divClose; now rewrite lit_none.
Qed.

Lemma gridClose_none (s : jsstring) :
  startsWith divClose s = false -> gridClose s = None.
Proof.
  intros H; unfold gridClose; fold divClose; now rewrite lit_none.
Qed.

Lemma dropWhile_run (f : codeunit -> bool) (w : jsstring) c (t : jsstring) :
  forallb f w = true -> f c = false -> dropWhile f (w ++ c :: t) = c :: t.
Proof.
  intros W C; induction w as [|x w IH]; simpl; [now rewrite C|].
  cbn [forallb] in W; apply andb_true_iff in W as [-> W]; auto.
Qed.

Lemma takeWhile_run (f : codeunit -> bool) (w : jsstring) c (t : jsstring) :
  forallb f w = true -> f c = false -> takeWhile f (w ++ c :: t) = w.
Proof.
  intros W C; apply takeWhile_all; [|exact C].
  now apply Forall_forall, forallb_forall.
Qed.

(** The closing expression of the featured block where it matches. *)
Lemma featuredClose_here (w1 w2 s : jsstring) :
  forallb isSpace w1 = true -> forallb isSpace w2 = true ->
  (2 <=? count_occ N.eq_dec w2 NL)%nat = true ->
  featuredClose (divClose ++ w1 ++ divClose ++ w2 ++ gridComment ++ s)
  = Some s.
Proof.
  intros W1 W2 C; unfold featuredClose; fold divClose gridComment.
  rewrite lit_app; cbn [andThen]; unfold ws, wsTwoNewlines.
  change (divClose ++ w2 ++ gridComment ++ s)
    with (60 :: u "/div>" ++ w2 ++ gridComment ++ s).
  rewrite dropWhile_run by (assumption || reflexivity).
  change (60 :: u "/div>" ++ w2 ++ gridComment ++ s)
    with (divClose ++ w2 ++ gridComment ++ s).
  cbn [andThen]; rewrite lit_app; cbn [andThen].
  change (gridComment ++ s) with (60 :: u "!-- Blog Grid -->" ++ s).
  rewrite takeWhile_run, dropWhile_run, C by (assumption || reflexivity).
  cbn [andThen].
  change (60 :: u "!-- Blog Grid -->" ++ s) with (gridComment ++ s).
  apply lit_app.
Qed.

Lemma gridClose_here (w1 w2 s : jsstring) :
  forallb isSpace w1 = true -> forallb isSpace w2 = true ->
  gridClose (divClose ++ w1 ++ divClose ++ w2 ++ u "</section>" ++ s)
  = Some s.
Proof.
  intros W1 W2; unfold gridClose; fold divClose.
  rewrite lit_app; cbn [andThen]; unfold ws.
  change (divClose ++ w2 ++ u "</section>" ++ s)
    with (60 :: u "/div>" ++ w2 ++ u "</section>" ++ s).
  rewrite dropWhile_run by (assumption || reflexivity).
  change (60 :: u "/div>" ++ w2 ++ u "</section>" ++ s)
    with (divClose ++ w2 ++ u "</section>" ++ s).
  cbn [andThen]; rewrite lit_app; cbn [andThen].
  change (u "</section>" ++ s) with (60 :: u "/section>" ++ s).
  rewrite dropWhile_run by (assumption || reflexivity).
  change (60 :: u "/section>" ++ s) with (u "</section>" ++ s).
  apply lit_app.
Qed.

Lemma featShape_lazy (hebrew : bool)
      (cat src alt label date title excerpt link : jsstring) :
  featShape hebrew cat src alt label date title excerpt link
  = featuredOpen ++ featLazy hebrew cat src alt label date title excerpt link
      ++ divClose ++ featTail.
Proof.
  unfold featShape, featLazy, featImgShape, featBodyShape, featI2, featI2a,
    featC5, featC5a, divClose.
  destruct hebrew; flatten; reflexivity.
Qed.

Ltac dead_piece :=
  first [ apply (deadAlways_inert featuredClose divClose);
          [ exact featuredClose_none
          | apply (inertFor_field 60); [reflexivity | assumption] ]
        | apply (failsAll_always featuredClose (closeFails true gridComment)
                                 featuredClose_fails);
          vm_compute; reflexivity ].

(** The closing expression matches nowhere in the featured fragment
    before the end of its last block. *)
Lemma featLazy_dead (hebrew : bool)
      (cat src alt label date title excerpt link s : jsstring) :
  lacks 60 cat = true -> lacks 60 src = true -> lacks 60 alt = true ->
  lacks 60 label = true -> lacks 60 date = true -> lacks 60 title = true ->
  lacks 60 excerpt = true -> lacks 60 link = true ->
  deadFor featuredClose
          (featLazy hebrew cat src alt label date title excerpt link)
          ((divClose ++ featTail) ++ s).
Proof.
  intros Lc Ls La Ll Ld Lt Le Lk; unfold featLazy.
  destruct hebrew;
    repeat match goal with
           | |- deadFor _ (?x ++ ?y) _ =>
               apply (deadAlways_then _ x y); [dead_piece|]
           end;
    apply (failsAll_dead featuredClose (closeFails true gridComment)
                         featuredClose_fails);
    vm_compute; reflexivity.
Qed.

Lemma firstn_prefix (a b : jsstring) :
  firstn (length (a ++ b) - length b) (a ++ b) = a.
Proof.
  rewrite length_app, Nat.add_sub, firstn_app, Nat.sub_diag, firstn_all.
  cbn [firstn]; apply app_nil_r.
Qed.

(** The featured expression matches the fragment up to the grid comment. *)
Lemma featuredRe_here (hebrew : bool)
      (cat src alt label date title excerpt link rest : jsstring) :
  lacks 60 cat = true -> lacks 60 src = true -> lacks 60 alt = true ->
  lacks 60 label = true -> lacks 60 date = true -> lacks 60 title = true ->
  lacks 60 excerpt = true -> lacks 60 link = true ->
  featuredRe (featShape hebrew cat src alt label date title excerpt link
                ++ afterFeatured ++ gridComment ++ rest)
  = Some (featShape hebrew cat src alt label date title excerpt link
            ++ afterFeatured ++ gridComment).
Proof.
  intros Lc Ls La Ll Ld Lt Le Lk.
  set (shape := featShape hebrew cat src alt label date title excerpt link).
  assert (shape = featuredOpen
                    ++ featLazy hebrew cat src alt label date title excerpt
                                link
                    ++ divClose ++ featTail) as E by apply featShape_lazy.
  set (body := featLazy hebrew cat src alt label date title excerpt link)
    in *.
  assert (deadFor featuredClose body
                  ((divClose ++ featTail) ++ afterFeatured ++ gridComment
                     ++ rest)) as D
    by now apply featLazy_dead.
  assert (featuredClose ((divClose ++ featTail) ++ afterFeatured
                           ++ gridComment ++ rest) = Some rest) as C
    by exact (featuredClose_here ([NL] ++ u "    ") afterFeatured rest
                                 eq_refl eq_refl eq_refl).
  unfold featuredRe; fold featuredOpen.
  replace (shape ++ afterFeatured ++ gridComment ++ rest)
    with (featuredOpen
            ++ body ++ (divClose ++ featTail) ++ afterFeatured
            ++ gridComment ++ rest)
    by (rewrite E, <- !app_assoc; reflexivity).
  rewrite lit_app, (lazyUntil_skip _ _ _ D), (lazyUntil_now _ _ _ C).
  f_equal.
  replace (featuredOpen
             ++ body ++ (divClose ++ featTail) ++ afterFeatured
             ++ gridComment ++ rest)
    with ((shape ++ afterFeatured ++ gridComment) ++ rest)
    by (rewrite E, <- !app_assoc; reflexivity).
  apply firstn_prefix.
Qed.

End FeaturedOnPage.

Section GridOnPage.

Variable Intl_DateTimeFormat : jsstring -> objectLiteral -> Z -> jsstring.

Ltac flatten :=
  unfold q; repeat (rewrite <- ?app_comm_cons, <- ?app_assoc).

Lemma cardShape_lazy (rd cat src alt label date title excerpt link
                      : jsstring) :
  cardShape rd cat src alt label date title excerpt link
  = cardLazy rd cat src alt label date title excerpt link ++ cardA8.
Proof.
  unfold cardShape, cardLazy, cardA1, divClose; flatten; reflexivity.
Qed.

Ltac grid_piece :=
  first [ apply (deadAlways_inert gridClose divClose);
          [ exact gridClose_none
          | apply (inertFor_field 60); [reflexivity | assumption] ]
        | apply (failsAll_always gridClose (closeFails false (u "</section>"))
                                 gridClose_fails);
          vm_compute; reflexivity ].

Ltac marker_piece :=
  first [ apply (inertFor_field 60); [reflexivity | assumption]
        | apply inertFor_clash; vm_compute; reflexivity ].

(** The closing expression of the grid matches nowhere in a card before
    its last closing tags. *)
Lemma cardLazy_dead (rd cat src alt label date title excerpt link
                     : jsstring) :
  fieldsPlain rd cat src alt label date title excerpt link ->
  deadAlways gridClose
             (cardLazy rd cat src alt label date title excerpt link).
Proof.
  intros (Lr & Lc & Ls & La & Ll & Ld & Lt & Le & Lk); unfold cardLazy.
  repeat match goal with
         | |- deadAlways _ (?x ++ ?y) =>
             apply (deadAlways_app _ x y); [grid_piece|]
         end.
  grid_piece.
Qed.

(** No comment line of a card starts inside a card. *)
Lemma cardShape_inert (rd cat src alt label date title excerpt link
                       : jsstring) :
  fieldsPlain rd cat src alt label date title excerpt link ->
  inertFor markerOpen
           (cardShape rd cat src alt label date title excerpt link).
Proof.
  intros (Lr & Lc & Ls & La & Ll & Ld & Lt & Le & Lk).
  rewrite cardShape_lazy; unfold cardLazy.
  apply inertFor_app; [|marker_piece].
  repeat match goal with
         | |- inertFor _ (?x ++ ?y) =>
             apply (inertFor_app _ x y); [marker_piece|]
         end.
  marker_piece.
Qed.

Lemma rdClass_lacks (index : nat) : lacks 60 (rdClassOf index) = true.
Proof.
  unfold rdClassOf; rewrite lacks_app; apply andb_true_iff; split;
    [reflexivity | now apply digits_lack].
Qed.

Lemma cardLink_lacks (lang : Lang) (b : bool) :
  lacks 60 (Build.linkOf (Build.langs lang) lang
              (if b then Build.listenNow (Build.langs lang)
               else Build.readMore (Build.langs lang))) = true.
Proof. destruct lang, b; reflexivity. Qed.

(** The fields of a card hold no [<]. *)
Lemma card_fieldsPlain (lang : Lang) (p : Build.Post) (index : nat) :
  comesBack p = true ->
  lacks 60 (shownDate Intl_DateTimeFormat lang p) = true ->
  let cfg := Build.langs lang in
  fieldsPlain (rdClassOf index) (Build.category p)
    (Build.cardImgSrc p index)
    (Build.escapeHtml (orStr (Build.image_alt p) (Build.title p)))
    (toString (Build.catLabelOf cfg p))
    (shownDate Intl_DateTimeFormat lang p)
    (Build.escapeHtml (Build.title p)) (Build.escapeHtml (Build.excerpt p))
    (Build.linkOf cfg lang
       (if jseqb (Build.category p) (u "podcasts")
        then Build.listenNow cfg else Build.readMore cfg)).
Proof.
  intros C L cfg; unfold comesBack in C.
  repeat (apply andb_true_iff in C as [C ?]).
  destruct (cardImgSrc_lacks p index) as [_ Ls]; try assumption.
  repeat split; try assumption.
  - apply rdClass_lacks.
  - apply escapeHtml_lacks.
  - now apply catLabel_lacks.
  - apply escapeHtml_lacks.
  - apply escapeHtml_lacks.
  - apply cardLink_lacks.
Qed.

Lemma cardBody_lazy (lang : Lang) (p : Build.Post) (index : nat) :
  exists body,
    cardBody Intl_DateTimeFormat lang p index = body ++ cardA8
    /\ (comesBack p = true ->
        lacks 60 (shownDate Intl_DateTimeFormat lang p) = true ->
        deadAlways gridClose body).
Proof.
  unfold cardBody; cbv zeta; rewrite cardShape_lazy.
  eexists; split; [reflexivity|].
  intros C L; apply cardLazy_dead, card_fieldsPlain; assumption.
Qed.

Lemma cardBody_inert (lang : Lang) (p : Build.Post) (index : nat) :
  comesBack p = true ->
  lacks 60 (shownDate Intl_DateTimeFormat lang p) = true ->
  inertFor markerOpen (cardBody Intl_DateTimeFormat lang p index).
Proof.
  intros C L; unfold cardBody; cbv zeta.
  apply cardShape_inert, card_fieldsPlain; assumption.
Qed.

Lemma postMarker_dead (index : nat) : deadAlways gridClose (postMarker index).
Proof.
  unfold postMarker.
  assert (lacks 60 (numberToString (N.of_nat (index + 1))) = true)
    by now apply digits_lack.
  repeat match goal with
         | |- deadAlways _ (?x ++ ?y) =>
             apply (deadAlways_app _ x y); [grid_piece|]
         end.
  grid_piece.
Qed.

Variable lang : Lang.

Hypothesis plainDates :
  forall p, lacks 60 (shownDate Intl_DateTimeFormat lang p) = true.

(** The closing expression of the grid matches nowhere in the cards. *)
Lemma cardsText_dead (cards : list Build.Post) :
  forallb comesBack cards = true ->
  forall index s,
    deadFor gridClose
            (cardsText Intl_DateTimeFormat lang index cards ++ gridIndent)
            (gridEnd1 ++ s).
Proof.
  induction cards as [|p t IH]; intros C index s.
  - cbn [cardsText app].
    assert (deadAlways gridClose gridIndent) as D by grid_piece.
    apply D.
  - cbn [forallb] in C; apply andb_true_iff in C as [Cp Ct].
    cbn [cardsText].
    destruct (cardBody_lazy lang p index) as (body & -> & D).
    specialize (D Cp (plainDates p)).
    rewrite <- !app_assoc.
    apply deadAlways_then; [grid_piece|].
    apply deadAlways_then; [apply postMarker_dead|].
    apply deadAlways_then; [grid_piece|].
    apply deadAlways_then; [exact D|].
    rewrite (app_assoc cardA8).
    apply deadFor_app; [|now apply IH].
    destruct t as [|p' t].
    + cbn [cardsText app]; rewrite app_assoc.
      apply (failsAll_dead gridClose (closeFails false (u "</section>"))
                           gridClose_fails).
      vm_compute; reflexivity.
    + cbn [cardsText]; unfold postMarker; fold markerOpen.
      rewrite <- !app_assoc, (app_assoc cardIndent).
      apply (failsAll_dead gridClose (closeFails false (u "</section>"))
                           gridClose_fails).
      vm_compute; reflexivity.
Qed.

Lemma dropWhile_before (w p r : jsstring) :
  forallb isSpace w = true ->
  match p with c :: _ => isSpace c | [] => true end = false ->
  dropWhile isSpace (w ++ p ++ r) = p ++ r.
Proof.
  intros W P; destruct p as [|c p]; [discriminate|].
  now apply dropWhile_run.
Qed.

(** The grid expression matches from the grid comment on, and what it
    captures ends before the closing tag of the grid. *)
Lemma gridRe_here (x s : jsstring) :
  deadFor gridClose ([NL; NL] ++ x) (gridEnd1 ++ gridEnd2 ++ s) ->
  gridRe (gridComment ++ gridOpen ++ [NL; NL] ++ x ++ gridEnd1 ++ gridEnd2
            ++ s)
  = Some ([NL; NL] ++ x).
Proof.
  intros D; unfold gridRe; fold gridComment gridTag.
  rewrite lit_app; cbn [andThen]; unfold ws, gridOpen.
  rewrite <- app_assoc, dropWhile_before by reflexivity.
  cbn [andThen]; rewrite lit_app.
  assert (gridClose (gridEnd1 ++ gridEnd2 ++ s) = Some ([NL; NL] ++ s)) as C
    by exact (gridClose_here ([NL] ++ u "  ") [NL] ([NL; NL] ++ s)
                             eq_refl eq_refl).
  replace ([NL; NL] ++ x ++ gridEnd1 ++ gridEnd2 ++ s)
    with (([NL; NL] ++ x) ++ gridEnd1 ++ gridEnd2 ++ s)
    by now rewrite <- app_assoc.
  rewrite (lazyUntil_skip _ _ _ D), (lazyUntil_now _ _ _ C).
  now rewrite app_nil_r.
Qed.

Lemma grid_dead (cards : list Build.Post) (s : jsstring) :
  forallb comesBack cards = true ->
  deadFor gridClose
          ([NL; NL] ++ gridCards Intl_DateTimeFormat lang cards ++ gridIndent)
          (gridEnd1 ++ s).
Proof.
  intros C; apply deadAlways_then; [grid_piece|].
  destruct cards as [|p t]; [|now apply cardsText_dead].
  unfold gridCards.
  apply (failsAll_dead gridClose (closeFails false (u "</section>"))
                       gridClose_fails).
  vm_compute; reflexivity.
Qed.

Lemma card_text (p : Build.Post) (index : nat) :
  Build.generateBlogCard Intl_DateTimeFormat p index lang
  = cardIndent ++ postMarker index ++ [NL]
      ++ cardBody Intl_DateTimeFormat lang p index.
Proof.
  rewrite generateBlogCard_shape.
  unfold cardComment, cardIndent, postMarker, cardBody, shownDate.
  rewrite <- !app_assoc; reflexivity.
Qed.

Lemma join_cons (sep a : jsstring) (l : list jsstring) :
  l <> [] -> Build.join sep (a :: l) = a ++ sep ++ Build.join sep l.
Proof. destruct l; [congruence | reflexivity]. Qed.

Lemma join_cardsText (cards : list Build.Post) :
  cards <> [] ->
  forall index x,
    Build.join [NL; NL]
               (Build.mapi (fun post i =>
                              Build.generateBlogCard Intl_DateTimeFormat post
                                                     i lang)
                           index cards)
      ++ [NL] ++ [NL] ++ x
    = cardsText Intl_DateTimeFormat lang index cards ++ x.
Proof.
  induction cards as [|p t IH]; intros N index x; [congruence|].
  destruct t as [|p' t].
  - cbn [Build.mapi Build.join cardsText].
    rewrite card_text, <- !app_assoc; reflexivity.
  - specialize (IH ltac:(discriminate) (S index) x).
    change (Build.mapi ?f index (p :: p' :: t))
      with (f p index :: Build.mapi f (S index) (p' :: t)).
    rewrite join_cons by discriminate.
    change (cardsText Intl_DateTimeFormat lang index (p :: p' :: t))
      with (cardIndent ++ postMarker index ++ [NL]
              ++ cardBody Intl_DateTimeFormat lang p index ++ [NL; NL]
              ++ cardsText Intl_DateTimeFormat lang (S index) (p' :: t)).
    rewrite card_text, <- !app_assoc, IH; reflexivity.
Qed.

Lemma filter_first {A} (f : A -> bool) (a : A) (l : list A) :
  filter f (a :: l) = filter f [a] ++ filter f l.
Proof. simpl; now destruct (f a). Qed.

Lemma cardBody_includes (p : Build.Post) (index : nat) (pre rest : jsstring) :
  includes (u "blog-card")
           (pre ++ cardBody Intl_DateTimeFormat lang p index ++ rest) = true.
Proof.
  apply includes_suffix; unfold cardBody, cardShape, cardA1, q; cbv zeta.
  rewrite <- !app_assoc.
  apply (includes_app (u "blog-card") (u "      <div class=" ++ [QUOTE])).
Qed.

Lemma inertForCard_newline : inertForCard [NL].
Proof. repeat split; apply inertFor_clash; vm_compute; reflexivity. Qed.

(** The blocks between the comment lines of the cards, parsed: one post
    for each card. *)
Lemma split_cards (cards : list Build.Post) :
  forallb comesBack cards = true ->
  forall index pre,
    map (fun b => parsePost b lang false)
        (filter (includes (u "blog-card"))
                (splitG postMarkerRe 0 (rev pre)
                        (cardsText Intl_DateTimeFormat lang index cards
                           ++ gridIndent)))
    = map (fun b => parsePost b lang false)
          (filter (includes (u "blog-card")) [pre ++ blockEnd cards])
        ++ cardsBack Intl_DateTimeFormat lang index cards.
Proof.
  induction cards as [|p t IH]; intros C index pre.
  - cbn [cardsText app cardsBack Build.mapi blockEnd]; rewrite app_nil_r.
    rewrite splitG_last, <- rev_app_distr, rev_involutive; [reflexivity|..].
    + apply (deadAlways_inert postMarkerRe markerOpen _ postMarkerRe_none).
      apply inertFor_clash; vm_compute; reflexivity.
    + reflexivity.
  - cbn [forallb] in C; apply andb_true_iff in C as [Cp Ct].
    cbn [cardsText blockEnd]; rewrite <- !app_assoc.
    rewrite splitG_inert
      by (apply (deadAlways_inert postMarkerRe markerOpen _ postMarkerRe_none),
            inertFor_clash; vm_compute; reflexivity).
    rewrite splitG_marker, <- rev_app_distr, rev_involutive.
    set (body := cardBody Intl_DateTimeFormat lang p index).
    replace ([NL] ++ body ++ [NL; NL]
               ++ cardsText Intl_DateTimeFormat lang (S index) t
               ++ gridIndent)
      with (([NL] ++ body ++ [NL; NL])
              ++ cardsText Intl_DateTimeFormat lang (S index) t
              ++ gridIndent)
      by (rewrite <- !app_assoc; reflexivity).
    rewrite splitG_inert, app_nil_r.
    2:{ apply (deadAlways_inert postMarkerRe markerOpen _ postMarkerRe_none).
        apply inertFor_app; [|apply inertFor_app].
        - apply inertFor_clash; vm_compute; reflexivity.
        - apply cardBody_inert; [exact Cp | apply plainDates].
        - apply inertFor_clash; vm_compute; reflexivity. }
    rewrite filter_first, map_app, (IH Ct); f_equal.
    cbn [cardsBack Build.mapi]; fold (cardsBack Intl_DateTimeFormat lang).
    rewrite <- !app_assoc.
    cbn [filter]; rewrite (cardBody_includes p index [NL]).
    cbn [map app]; f_equal.
    exact (parsePost_card Intl_DateTimeFormat p index lang [NL]
                          ([NL; NL] ++ blockEnd t) inertForCard_newline Cp
                          (plainDates p)).
Qed.

End GridOnPage.

Section PageRoundTrip.

Variable Intl_DateTimeFormat : jsstring -> objectLiteral -> Z -> jsstring.

Variable lang : Lang.

Hypothesis plainDates :
  forall p, lacks 60 (shownDate Intl_DateTimeFormat lang p) = true.

Ltac flatten :=
  unfold q; repeat (rewrite <- ?app_comm_cons, <- ?app_assoc).

Ltac grid_comment_piece :=
  first [ apply (inertFor_field 60); [reflexivity | assumption]
        | apply inertFor_clash; vm_compute; reflexivity ].

(** The page is the top template, the featured fragment, the grid of the
    cards and the bottom template. *)
Lemma buildPage_pageOf (posts : list Build.Post) (top bottom : jsstring)
      (f : Build.Post) (cards : list Build.Post) :
  Build.selectPosts posts = (Some f, cards) ->
  Build.buildPage Intl_DateTimeFormat lang posts top bottom
  = Build.Written (pageOf Intl_DateTimeFormat lang f cards top bottom).
Proof.
  intros E; unfold Build.buildPage, pageOf; rewrite E; cbv zeta; f_equal.
  rewrite generateFeaturedPost_shape; cbv zeta.
  fold (shownDate Intl_DateTimeFormat lang f).
  fold (featuredBody Intl_DateTimeFormat lang f).
  f_equal; rewrite <- !app_assoc; do 2 f_equal.
  unfold gridCards; destruct cards as [|p t].
  - cbn [Build.mapi Build.join].
    unfold afterFeatured, gridComment, gridOpen, gridTag, gridIndent,
      gridEnd1, gridEnd2.
    flatten; reflexivity.
  - set (l := p :: t).
    replace (u "    </div>" ++ [NL] ++ u "  </div>" ++ [NL] ++ u "</section>"
               ++ [NL] ++ [NL] ++ bottom)
      with (gridIndent ++ gridEnd1 ++ gridEnd2 ++ bottom)
      by (unfold gridIndent, gridEnd1, gridEnd2; flatten; reflexivity).
    rewrite (join_cardsText Intl_DateTimeFormat lang l) by discriminate.
    unfold afterFeatured, gridComment, gridOpen, gridTag.
    flatten; reflexivity.
Qed.

(** The fields of the featured fragment hold no [<]. *)
Lemma featured_fieldsPlain (p : Build.Post) :
  comesBack p = true ->
  let cfg := Build.langs lang in
  fieldsPlain [] (Build.category p) (Build.featuredImgSrc p)
    (Build.escapeHtml (orStr (Build.image_alt p) (Build.title p)))
    (toString (Build.catLabelOf cfg p))
    (shownDate Intl_DateTimeFormat lang p)
    (Build.escapeHtml (Build.title p)) (Build.escapeHtml (Build.excerpt p))
    (Build.linkOf cfg lang
       (if jseqb (Build.category p) (u "podcasts")
        then Build.listenNow cfg else Build.readFull cfg)).
Proof.
  intros C cfg; unfold comesBack in C.
  repeat (apply andb_true_iff in C as [C ?]).
  destruct (featuredImgSrc_lacks p) as [_ Ls]; try assumption.
  repeat split; try assumption.
  - apply escapeHtml_lacks.
  - now apply catLabel_lacks.
  - apply plainDates.
  - apply escapeHtml_lacks.
  - apply escapeHtml_lacks.
  - apply link_lacks.
Qed.

(** The grid comment starts nowhere inside the featured fragment. *)
Lemma featShape_inert (hebrew : bool)
      (cat src alt label date title excerpt link : jsstring) :
  fieldsPlain [] cat src alt label date title excerpt link ->
  inertFor gridComment
           (featShape hebrew cat src alt label date title excerpt link).
Proof.
  intros (_ & Lc & Ls & La & Ll & Ld & Lt & Le & Lk).
  rewrite featShape_lazy; unfold featLazy.
  apply inertFor_app; [grid_comment_piece|].
  rewrite !app_assoc; apply inertFor_app; [|grid_comment_piece].
  apply inertFor_app; [|grid_comment_piece].
  rewrite <- !app_assoc.
  destruct hebrew;
    repeat match goal with
           | |- inertFor _ (?x ++ ?y) =>
               apply (inertFor_app _ x y); [grid_comment_piece|]
           end;
    grid_comment_piece.
Qed.

Lemma inertForFeatured_nil : inertForFeatured [].
Proof. repeat split; apply inertFor_nil. Qed.

Section OnePage.

Variables (top bottom : jsstring) (f : Build.Post) (cards : list Build.Post).

Hypothesis topPlain : includes featuredOpen top = false.
Hypothesis topNoGrid : includes gridComment top = false.
Hypothesis featuredBack_ok : comesBack f = true.
Hypothesis cardsBack_ok : forallb comesBack cards = true.

Lemma extractFeatured_page :
  extractFeatured (pageOf Intl_DateTimeFormat lang f cards top bottom) lang
  = Some (featuredBack Intl_DateTimeFormat lang f).
Proof.
  destruct (featured_fieldsPlain f featuredBack_ok)
    as (_ & Lc & Ls & La & Ll & Ld & Lt & Le & Lk).
  unfold extractFeatured, pageOf.
  rewrite (app_assoc top featComment).
  rewrite (search_skip featuredOpen featuredRe _ _ featuredRe_none)
    by (apply inert_before; [exact topPlain | reflexivity | reflexivity]).
  unfold featuredBody; cbv zeta.
  rewrite (search_here featuredRe _ _
             (featuredRe_here _ _ _ _ _ _ _ _ _ _ Lc Ls La Ll Ld Lt Le Lk)).
  f_equal.
  exact (parsePost_featured Intl_DateTimeFormat f lang []
                            (afterFeatured ++ gridComment)
                            inertForFeatured_nil featuredBack_ok
                            (plainDates f)).
Qed.

Lemma extractCards_page :
  extractCards (pageOf Intl_DateTimeFormat lang f cards top bottom) lang
  = cardsBack Intl_DateTimeFormat lang 0 cards.
Proof.
  pose proof (featured_fieldsPlain f featuredBack_ok) as F.
  unfold extractCards, pageOf.
  rewrite (app_assoc top featComment).
  rewrite (search_skip gridComment gridRe _ _ gridRe_none)
    by (apply inert_before; [exact topNoGrid | reflexivity | reflexivity]).
  rewrite (search_skip gridComment gridRe _ _ gridRe_none)
    by (unfold featuredBody; cbv zeta; apply featShape_inert, F).
  rewrite (search_skip gridComment gridRe _ _ gridRe_none)
    by (apply inertFor_clash; vm_compute; reflexivity).
  rewrite (search_here gridRe _ _
             (gridRe_here _ _ (grid_dead Intl_DateTimeFormat lang plainDates
                                         cards _ cardsBack_ok))).
  cbv zeta; destruct cards as [|p t].
  - unfold gridCards.
    assert (filter (includes (u "blog-card"))
                   (splitG postMarkerRe 0 []
                           ([NL; NL] ++ [NL; NL] ++ gridIndent)) = [])
      as -> by (vm_compute; reflexivity).
    reflexivity.
  - unfold gridCards.
    rewrite splitG_inert, app_nil_r
      by (apply (deadAlways_inert postMarkerRe markerOpen _
                                  postMarkerRe_none),
            inertFor_clash; vm_compute; reflexivity).
    rewrite (split_cards Intl_DateTimeFormat lang plainDates (p :: t)
                         cardsBack_ok 0 [NL; NL]).
    assert (filter (includes (u "blog-card"))
                   [[NL; NL] ++ blockEnd (p :: t)] = [])
      as -> by (vm_compute; reflexivity).
    reflexivity.
Qed.

End OnePage.

(** X15. The migration undoes the build. When the top template holds
    neither the opening tag of the featured block nor the grid comment,
    and the posts are such that their fragments parse back, the page that
    [buildPage] writes gives back, under [extractFeatured] and
    [extractCards], the featured post and the cards in the order of the
    page, whatever the bottom template is. *)
Theorem page_migrates_back (posts : list Build.Post) (top bottom : jsstring)
        (f : Build.Post) (cards : list Build.Post) :
  Build.selectPosts posts = (Some f, cards) ->
  includes featuredOpen top = false ->
  includes gridComment top = false ->
  comesBack f = true ->
  forallb comesBack cards = true ->
  exists page,
    Build.buildPage Intl_DateTimeFormat lang posts top bottom
    = Build.Written page
    /\ extractFeatured page lang
       = Some (featuredBack Intl_DateTimeFormat lang f)
    /\ extractCards page lang = cardsBack Intl_DateTimeFormat lang 0 cards.
Proof.
  intros E T1 T2 Cf Cc.
  exists (pageOf Intl_DateTimeFormat lang f cards top bottom).
  split; [now apply buildPage_pageOf|].
  split; [now apply extractFeatured_page | now apply extractCards_page].
Qed.

End PageRoundTrip.

Lemma page_migrates_back_witness :
  exists page,
    Build.buildPage fixedDate he samplePosts (u "<html><section><div>")
                    (u "</html>")
    = Build.Written page
    /\ extractFeatured page he = Some (featuredBack fixedDate he sampleFeatured)
    /\ extractCards page he = cardsBack fixedDate he 0 sampleCards.
Proof.
  apply (page_migrates_back fixedDate he (fun p => eq_refl) samplePosts
                            (u "<html><section><div>") (u "</html>")
                            sampleFeatured sampleCards);
    vm_compute; reflexivity.
Defined.

(* ================================================================== *)
(** * Edge cases                                                      *)
(* ================================================================== *)

Section EdgeCases.

Variable Intl_DateTimeFormat : jsstring -> objectLiteral -> Z -> jsstring.

Lemma lacks_no_start (c : codeunit) (p s : jsstring) :
  lacks c s = true -> forall a b, s = a ++ b -> startsWith (c :: p) b = false.
Proof.
  intros L a b ->; rewrite lacks_app in L; apply andb_true_iff in L as [_ L].
  destruct b as [|x b]; [reflexivity|].
  cbn [lacks forallb] in L; apply andb_true_iff in L as [L _].
  apply negb_true_iff in L; cbn [startsWith].
  now rewrite N.eqb_sym, L.
Qed.

(** X16. A block without a tag and without a category attribute parses
    to the post with nothing in it: every field that is not found is the
    empty string, and the empty date is left as it is in each grammar. *)
Theorem parsePost_plain_block (block : jsstring) (lang : Lang)
        (isFeatured : bool) :
  lacks 60 block = true ->
  includes patCat block = false ->
  parsePost block lang isFeatured = emptyPost isFeatured.
Proof.
  intros L I.
  assert (search catAttrRe block = None) as S1.
  { apply search_none; intros a b E.
    apply catAttrRe_none, (not_included _ _ I a b E). }
  assert (search imgRe block = None) as S2.
  { apply search_none; intros a b E.
    apply imgRe_none, (lacks_no_start 60 _ _ L a b E). }
  assert (forall p close,
             startsWith [60] p = true ->
             search (betweenRe p close) block = None) as S3.
  { intros p close H; destruct (startsWith_head _ _ _ H) as (t & ->).
    apply search_none; intros a b E.
    apply betweenRe_none, (lacks_no_start 60 _ _ L a b E). }
  unfold parsePost; cbv zeta.
  rewrite S1, S2; destruct isFeatured; rewrite !S3 by reflexivity;
    destruct lang; reflexivity.
Qed.

Lemma escapeYamlQuotes_units (s : jsstring) :
  escapeYamlQuotes s = flat_map yamlUnit s.
Proof. apply replace_single. Qed.

(** X17. The quotes of the YAML header: in the escaped text every double
    quote has a backslash before it, and two texts that escape to the same
    text are the same. *)
Theorem escapeYamlQuotes_escaped (s : jsstring) :
  (forall a b, escapeYamlQuotes s = a ++ QUOTE :: b ->
               exists a', a = a' ++ [BACKSLASH])
  /\ (forall t, escapeYamlQuotes t = escapeYamlQuotes s -> t = s).
Proof.
  split.
  - rewrite escapeYamlQuotes_units.
    induction s as [|x s IH]; intros a b E; cbn [flat_map] in E.
    + destruct a; discriminate.
    + unfold yamlUnit at 1 in E; destruct (N.eqb_spec x QUOTE) as [->|N].
      * cbv iota in E; destruct a as [|c1 [|c2 a]]; cbn [app] in E.
        -- discriminate.
        -- injection E as <- _; now exists [].
        -- injection E as <- <- E; destruct (IH _ _ E) as (a' & ->).
           now exists (BACKSLASH :: QUOTE :: a').
      * cbv iota in E; destruct a as [|c1 a]; cbn [app] in E.
        -- injection E as -> _; congruence.
        -- injection E as <- E; destruct (IH _ _ E) as (a' & ->).
           now exists (x :: a').
  - intros t; rewrite !escapeYamlQuotes_units.
    revert t; induction s as [|x s IH]; intros [|y t] E; cbn [flat_map] in E.
    + reflexivity.
    + unfold yamlUnit at 1 in E; destruct (y =? QUOTE); discriminate.
    + unfold yamlUnit at 1 in E; destruct (x =? QUOTE); discriminate.
    + unfold yamlUnit at 1 3 in E.
      destruct (N.eqb_spec y QUOTE) as [->|Ny];
        destruct (N.eqb_spec x QUOTE) as [->|Nx]; cbv iota in E;
        cbn [app] in E.
      * injection E as E; f_equal; now apply IH.
      * injection E as <- E; exfalso.
        destruct s as [|z s]; [discriminate|].
        cbn [flat_map] in E; unfold yamlUnit in E.
        destruct (N.eqb_spec z QUOTE) as [->|Nz]; cbv iota in E;
          cbn [app] in E; [discriminate | injection E as E' _; congruence].
      * injection E as -> E; exfalso.
        destruct t as [|z t]; [discriminate|].
        cbn [flat_map] in E; unfold yamlUnit in E.
        destruct (N.eqb_spec z QUOTE) as [->|Nz]; cbv iota in E;
          cbn [app] in E; [discriminate | injection E as E' _; congruence].
      * injection E as -> E; f_equal; now apply IH.
Qed.

(** X18. The cards repeat every six places: the card of a post at a place
    and the one six places further differ in the number of the comment
    line only, the reveal class and the placeholder colour being taken
    modulo six. *)
Theorem card_repeats_every_six (post : Build.Post) (index : nat)
        (lang : Lang) :
  exists body,
    Build.generateBlogCard Intl_DateTimeFormat post index lang
    = cardComment index ++ body
    /\ Build.generateBlogCard Intl_DateTimeFormat post (index + 6) lang
       = cardComment (index + 6) ++ body.
Proof.
  exists (cardBody Intl_DateTimeFormat lang post index).
  rewrite !generateBlogCard_shape; cbv zeta; split; [reflexivity|].
  unfold cardBody, shownDate, rdClassOf, Build.cardImgSrc; cbv zeta.
  replace (index + 6)%nat with (index + 1 * 6)%nat by lia.
  change (length Build.cardColors) with 6%nat.
  now rewrite Nat.Div0.mod_add.
Qed.

End EdgeCases.

Lemma parsePost_plain_block_witness :
  parsePost (u "a blog-card, in words") fr false = emptyPost false.
Proof.
  apply (parsePost_plain_block (u "a blog-card, in words") fr false);
    vm_compute; reflexivity.
Defined.
